(** * BasicRoutingInterface: one step of the bidirectional search, packed-path
    retrieval and shortcut unpacking.

    Shallow embedding of [RoutingAlgorithms/BasicRoutingInterface.h].  The
    methods of the class template are embedded over a type class for the
    data facade (the template parameter [DataFacadeT]) and over a model of
    [SearchEngineData::QueryHeap], whose declaration is not part of the
    header. *)

From stdpp Require Import base option list gmap strings.
From Stdlib Require Import ZArith Lia.

Local Open Scope Z_scope.

(** ** Machine integers *)

Module MachineInt.

(** C++ [int]: 32 bits, two's complement.  Arithmetic results are reduced
    into the representable range. *)
Definition INT_MAX : Z := 2147483647.
Definition INT_MIN : Z := -2147483648.

Definition to_int (x : Z) : Z := (x + 2147483648) mod 4294967296 - 2147483648.

Definition int_add (x y : Z) : Z := to_int (x + y).
Definition int_sub (x y : Z) : Z := to_int (x - y).

(** C++ [unsigned]: 32 bits, arithmetic modulo [2^32]. *)
Definition UINT_MAX : N := 4294967295%N.

Definition to_unsigned (x : Z) : N := Z.to_N (x mod 4294967296).

Definition unsigned_sub (x y : N) : N := to_unsigned (Z.of_N x - Z.of_N y).

Definition in_int_range (x : Z) : Prop := INT_MIN <= x <= INT_MAX.

End MachineInt.
Export MachineInt.

(** ** Identifiers *)

(** [NodeID] and [EdgeID] are [unsigned] in the source. *)
Abbreviation NodeID := N (only parsing).
Abbreviation EdgeID := N (only parsing).

Definition SPECIAL_EDGEID : EdgeID := UINT_MAX.

(** ** Results of fallible code *)

Inductive Error : Type :=
| InvariantViolation (msg : string)   (* a failed BOOST_ASSERT_MSG *)
| OutOfBounds                         (* vector indexed past its end *)
| EmptyHeap                           (* DeleteMin on an empty queue *)
| NotInserted                         (* heap lookup of an unknown node *)
| OutOfFuel.                          (* loop bound of the model exhausted *)

Inductive result (A : Type) : Type :=
| Ok (a : A)
| Err (e : Error).
Arguments Ok {A} a.
Arguments Err {A} e.

Definition result_bind {A B} (f : A -> result B) (m : result A) : result B :=
  match m with
  | Ok a => f a
  | Err e => Err e
  end.

#[global] Instance result_mbind : MBind result := @result_bind.
#[global] Instance result_mret : MRet result := @Ok.

Definition of_option {A} (e : Error) (o : option A) : result A :=
  match o with
  | Some a => Ok a
  | None => Err e
  end.

(** [BOOST_ASSERT_MSG(cond, msg)]: the call is aborted when [cond] fails. *)
Definition BOOST_ASSERT_MSG (cond : bool) (msg : string) : result unit :=
  if cond then Ok tt else Err (InvariantViolation msg).

(** ** The query heap *)

Module Heap.

(** Modelled from the spec: the class [SearchEngineData::QueryHeap]
    (DataStructures/SearchEngineData.h and the binary heap it instantiates
    are included by the header, their text is not available).  The model
    follows the contract table of the Query Heap component: an addressable
    min-priority queue keyed by node id whose entries carry a tentative
    distance and a parent node; extracted nodes stay inserted and their
    data stays retrievable.

    Every inserted node owns a slot; [in_queue] tells whether the node is
    still waiting in the queue.  [calls] is ghost state: the mutating
    method calls the object has received, oldest first.  It has no
    influence on any result and exists so that frame properties can say
    which calls a piece of code made. *)
Record HeapEntry : Type := { key : Z; parent : NodeID }.

Record HeapSlot : Type := { entry : HeapEntry; in_queue : bool }.

Inductive HeapCall : Type :=
| CallInsert (n : NodeID) (k : Z) (p : NodeID)
| CallDecreaseKey (n : NodeID) (k : Z)
| CallSetParent (n : NodeID) (p : NodeID)
| CallDeleteMin
| CallDeleteAll.

Record QueryHeap : Type := { slots : gmap N HeapSlot; calls : list HeapCall }.

Definition empty_heap : QueryHeap := {| slots := ∅; calls := [] |}.

(** Modelled from the spec: [was_inserted(n)], the presence test; it does
    not imply that the node is still in the queue. *)
Definition WasInserted (h : QueryHeap) (n : NodeID) : bool :=
  bool_decide (is_Some (slots h !! n)).

(** Modelled from the spec: [get_data(n)] and [get_key(n)], lookups that
    are defined for inserted nodes. *)
Definition GetData (h : QueryHeap) (n : NodeID) : result HeapEntry :=
  of_option NotInserted (entry <$> slots h !! n).

Definition GetKey (h : QueryHeap) (n : NodeID) : result Z :=
  of_option NotInserted (key ∘ entry <$> slots h !! n).

(** Modelled from the spec: [insert(n, key, parent)]; precondition: [n] not
    yet inserted. *)
Definition Insert (h : QueryHeap) (n : NodeID) (k : Z) (p : NodeID)
  : result QueryHeap :=
  match slots h !! n with
  | Some _ => Err (InvariantViolation "insert of an inserted node")
  | None =>
      Ok {| slots := <[n := {| entry := {| key := k; parent := p |};
                               in_queue := true |}]> (slots h);
            calls := calls h ++ [CallInsert n k p] |}
  end.

(** Modelled from the spec: [decrease_key(n, key')]; precondition: [n]
    inserted and [key' < current_key(n)]. *)
Definition DecreaseKey (h : QueryHeap) (n : NodeID) (k : Z)
  : result QueryHeap :=
  match slots h !! n with
  | None => Err (InvariantViolation "decrease_key of a node never inserted")
  | Some s =>
      if k <? key (entry s) then
        Ok {| slots := <[n := {| entry := {| key := k;
                                             parent := parent (entry s) |};
                                 in_queue := in_queue s |}]> (slots h);
              calls := calls h ++ [CallDecreaseKey n k] |}
      else Err (InvariantViolation "decrease_key does not decrease")
  end.

(** Modelled from the spec: the assignment [GetData(n).parent = p] through
    the reference that [get_data] hands out. *)
Definition SetParent (h : QueryHeap) (n : NodeID) (p : NodeID)
  : result QueryHeap :=
  match slots h !! n with
  | None => Err NotInserted
  | Some s =>
      Ok {| slots := <[n := {| entry := {| key := key (entry s);
                                           parent := p |};
                               in_queue := in_queue s |}]> (slots h);
            calls := calls h ++ [CallSetParent n p] |}
  end.

(** Modelled from the spec: the queued node of smallest key.  The contract
    leaves the choice among equal keys open; the model keeps the first one
    met in the enumeration of the slots. *)
Definition better (best : option (N * Z)) (cand : N * HeapSlot)
  : option (N * Z) :=
  if in_queue cand.2 then
    match best with
    | None => Some (cand.1, key (entry cand.2))
    | Some (_, bk) =>
        if key (entry cand.2) <? bk then Some (cand.1, key (entry cand.2))
        else best
    end
  else best.

Definition min_queued (m : gmap N HeapSlot) : option (N * Z) :=
  foldl better None (map_to_list m).

Definition settle (s : HeapSlot) : HeapSlot :=
  {| entry := entry s; in_queue := false |}.

(** Modelled from the spec: [delete_min()] extracts the node with smallest
    key and leaves its data retrievable. *)
Definition DeleteMin (h : QueryHeap) : result (NodeID * QueryHeap) :=
  match min_queued (slots h) with
  | None => Err EmptyHeap
  | Some (n, _) =>
      Ok (n, {| slots := alter settle n (slots h);
                calls := calls h ++ [CallDeleteMin] |})
  end.

(** Modelled from the spec: [delete_all()] empties the queue and bulk-clears
    the inserted set. *)
Definition DeleteAll (h : QueryHeap) : QueryHeap :=
  {| slots := ∅; calls := calls h ++ [CallDeleteAll] |}.

End Heap.
Export Heap.

(** ** The data facade *)

Module Edge.

(** [DataFacadeT::EdgeData], with the members the header reads.  [id] is
    the middle node of a shortcut and the original-edge identifier
    otherwise. *)
Record EdgeData : Type := {
  distance : Z;
  forward : bool;
  backward : bool;
  shortcut : bool;
  id : N
}.

End Edge.
Abbreviation EdgeData := Edge.EdgeData.

(** The template parameter [DataFacadeT]: the member functions that
    [BasicRoutingInterface] calls through [facade->]. *)
Class DataFacade (F : Type) : Type := {
  BeginEdges : F -> NodeID -> EdgeID;
  EndEdges : F -> NodeID -> EdgeID;
  GetTarget : F -> EdgeID -> NodeID;
  GetEdgeData : F -> EdgeID -> EdgeData;
  GetNameIndexFromEdgeID : F -> N -> N;
  GetTurnInstructionForEdgeID : F -> N -> N
}.

(** Modelled from the spec: the record [_PathData] of
    DataStructures/RawRouteData.h, whose text is not available.  The four
    constructor arguments of the call in [UnpackPath], in order. *)
Record _PathData : Type := {
  edge_payload : N;
  name_index : N;
  turn_instruction : N;
  path_weight : Z
}.

(** The by-reference arguments of [RoutingStep] after the call.
    [forward_heap] is the heap being advanced and [reverse_heap] the
    opposite one, whatever the direction: the caller swaps them. *)
Record RoutingState : Type := {
  forward_heap : QueryHeap;
  reverse_heap : QueryHeap;
  middle_node_id : NodeID;
  upper_bound : Z
}.

(** The edge ids visited by [for (e = b; e < end; ++e)]. *)
Definition edge_range (b e : EdgeID) : list EdgeID :=
  (fun i => (b + N.of_nat i)%N) <$> seq 0 (N.to_nat (e - b)).

(** [v[i]] on a [std::vector]; indexing past the end has no defined
    behaviour and is reported as [OutOfBounds]. *)
Definition vector_at {A} (v : list A) (i : nat) : result A :=
  of_option OutOfBounds (v !! i).

Section BasicRoutingInterface.

Context {F : Type} `{DataFacade F} (facade : F).

(** *** RoutingStep *)

(** Lines 66-74: the update of [*middle_node_id] and [*upper_bound]. *)
Definition meet_in_the_middle (reverse_heap : QueryHeap) (node : NodeID)
    (distance : Z) (middle_node_id : NodeID) (upper_bound : Z)
  : result (NodeID * Z) :=
  if WasInserted reverse_heap node then
    key_in_reverse ← GetKey reverse_heap node;
    let new_distance := int_add key_in_reverse distance in
    if new_distance <? upper_bound then
      if 0 <=? new_distance then Ok (node, new_distance)
      else Ok (middle_node_id, upper_bound)
    else Ok (middle_node_id, upper_bound)
  else Ok (middle_node_id, upper_bound).

(** Lines 82-101: the stalling loop; [true] stands for its [return]. *)
Fixpoint stall_scan (forward_heap : QueryHeap) (distance : Z)
    (forward_direction : bool) (edges : list EdgeID) : result bool :=
  match edges with
  | [] => Ok false
  | edge :: rest =>
      let data := GetEdgeData facade edge in
      let reverse_flag :=
        if negb forward_direction then Edge.forward data
        else Edge.backward data in
      if reverse_flag then
        let to := GetTarget facade edge in
        let edge_weight := Edge.distance data in
        _ ← BOOST_ASSERT_MSG (0 <? edge_weight) "edge_weight invalid";
        if WasInserted forward_heap to then
          key_of_to ← GetKey forward_heap to;
          if int_add key_of_to edge_weight <? distance then Ok true
          else stall_scan forward_heap distance forward_direction rest
        else stall_scan forward_heap distance forward_direction rest
      else stall_scan forward_heap distance forward_direction rest
  end.

(** Lines 108-128: the body of the relaxation loop. *)
Definition relax_edge (node : NodeID) (distance : Z)
    (forward_direction : bool) (forward_heap : QueryHeap) (edge : EdgeID)
  : result QueryHeap :=
  let data := GetEdgeData facade edge in
  let forward_directionFlag :=
    if forward_direction then Edge.forward data else Edge.backward data in
  if forward_directionFlag then
    let to := GetTarget facade edge in
    let edge_weight := Edge.distance data in
    _ ← BOOST_ASSERT_MSG (0 <? edge_weight) "edge_weight invalid";
    let to_distance := int_add distance edge_weight in
    if negb (WasInserted forward_heap to) then
      Insert forward_heap to to_distance node
    else
      key_of_to ← GetKey forward_heap to;
      if to_distance <? key_of_to then
        forward_heap ← SetParent forward_heap to node;
        DecreaseKey forward_heap to to_distance
      else Ok forward_heap
  else Ok forward_heap.

(** Lines 103-129: the relaxation loop. *)
Fixpoint relax_edges (node : NodeID) (distance : Z)
    (forward_direction : bool) (forward_heap : QueryHeap)
    (edges : list EdgeID) : result QueryHeap :=
  match edges with
  | [] => Ok forward_heap
  | edge :: rest =>
      forward_heap ←
        relax_edge node distance forward_direction forward_heap edge;
      relax_edges node distance forward_direction forward_heap rest
  end.

Definition RoutingStep (forward_heap reverse_heap : QueryHeap)
    (middle_node_id : NodeID) (upper_bound : Z)
    (edge_expansion_offset : Z) (forward_direction : bool)
  : result RoutingState :=
  '(node, forward_heap) ← DeleteMin forward_heap;
  distance ← GetKey forward_heap node;
  '(middle_node_id, upper_bound) ←
    meet_in_the_middle reverse_heap node distance
      middle_node_id upper_bound;
  if int_sub distance edge_expansion_offset >? upper_bound then
    Ok {| forward_heap := DeleteAll forward_heap;
          reverse_heap := reverse_heap;
          middle_node_id := middle_node_id;
          upper_bound := upper_bound |}
  else
    let edges := edge_range (BeginEdges facade node) (EndEdges facade node) in
    stalled ← stall_scan forward_heap distance forward_direction edges;
    if (stalled : bool) then
      Ok {| forward_heap := forward_heap;
            reverse_heap := reverse_heap;
            middle_node_id := middle_node_id;
            upper_bound := upper_bound |}
    else
      forward_heap ←
        relax_edges node distance forward_direction forward_heap edges;
      Ok {| forward_heap := forward_heap;
            reverse_heap := reverse_heap;
            middle_node_id := middle_node_id;
            upper_bound := upper_bound |}.

(** *** Selection of the edge of a pair *)

(** The body of the scanning loops of lines 153-167 and 170-184 (and of
    their copies at lines 223-237 and 240-254): [wanted] is the node the
    edge must lead to and [flag] the direction member that is tested. *)
Definition scan_edge (wanted : NodeID) (flag : EdgeData -> bool)
    (best : EdgeID * Z) (edge_id : EdgeID) : EdgeID * Z :=
  let '(smaller_edge_id, edge_weight) := best in
  let weight := Edge.distance (GetEdgeData facade edge_id) in
  if (GetTarget facade edge_id =? wanted)%N
     && (weight <? edge_weight)
     && flag (GetEdgeData facade edge_id)
  then (edge_id, weight)
  else (smaller_edge_id, edge_weight).

(** Lines 151-185, repeated verbatim at lines 221-255: the values of
    [smaller_edge_id] and [edge_weight] when the assertion is reached. *)
Definition find_smaller_edge (edge : NodeID * NodeID) : EdgeID * Z :=
  let best :=
    foldl (scan_edge edge.2 Edge.forward) (SPECIAL_EDGEID, INT_MAX)
      (edge_range (BeginEdges facade edge.1) (EndEdges facade edge.1)) in
  if (SPECIAL_EDGEID =? best.1)%N then
    foldl (scan_edge edge.1 Edge.backward) best
      (edge_range (BeginEdges facade edge.2) (EndEdges facade edge.2))
  else best.

(** *** UnpackPath *)

(** Lines 140-144: [i] counts down from [packed_path_size - 1] to [1]. *)
Fixpoint seed_stack (packed_path : list NodeID) (i : nat)
    (recursion_stack : list (NodeID * NodeID))
  : result (list (NodeID * NodeID)) :=
  match i with
  | O => Ok recursion_stack
  | S j =>
      a ← vector_at packed_path j;
      b ← vector_at packed_path (S j);
      seed_stack packed_path j ((a, b) :: recursion_stack)
  end.

(** Lines 136-144: the stack before the [while] loop.  [size()] is
    narrowed to [unsigned] and the start index is computed in [unsigned]
    arithmetic. *)
Definition seed_recursion_stack (packed_path : list NodeID)
  : result (list (NodeID * NodeID)) :=
  let packed_path_size := to_unsigned (Z.of_nat (length packed_path)) in
  seed_stack packed_path (N.to_nat (unsigned_sub packed_path_size 1)) [].

Definition path_data_of (ed : EdgeData) : _PathData :=
  {| edge_payload := Edge.id ed;
     name_index := GetNameIndexFromEdgeID facade (Edge.id ed);
     turn_instruction := GetTurnInstructionForEdgeID facade (Edge.id ed);
     path_weight := Edge.distance ed |}.

(** Lines 148-204: one turn of the [while] loop, on the popped pair. *)
Definition unpack_path_step (edge : NodeID * NodeID)
    (recursion_stack : list (NodeID * NodeID))
    (unpacked_path : list _PathData)
  : result (list (NodeID * NodeID) * list _PathData) :=
  let '(smaller_edge_id, edge_weight) := find_smaller_edge edge in
  _ ← BOOST_ASSERT_MSG (negb (edge_weight =? INT_MAX)) "edge id invalid";
  let ed := GetEdgeData facade smaller_edge_id in
  if Edge.shortcut ed then
    let middle_node_id := Edge.id ed in
    Ok ((edge.1, middle_node_id) :: (middle_node_id, edge.2)
          :: recursion_stack,
        unpacked_path)
  else
    _ ← BOOST_ASSERT_MSG (negb (Edge.shortcut ed)) "edge must be a shortcut";
    Ok (recursion_stack, unpacked_path ++ [path_data_of ed]).

(** Lines 147-205.  The loop need not terminate (a shortcut may lead back
    to its own pair), so the model bounds the number of turns. *)
Fixpoint unpack_path_loop (fuel : nat)
    (recursion_stack : list (NodeID * NodeID))
    (unpacked_path : list _PathData) : result (list _PathData) :=
  match recursion_stack with
  | [] => Ok unpacked_path
  | edge :: recursion_stack =>
      match fuel with
      | O => Err OutOfFuel
      | S fuel =>
          '(recursion_stack, unpacked_path) ←
            unpack_path_step edge recursion_stack unpacked_path;
          unpack_path_loop fuel recursion_stack unpacked_path
      end
  end.

Definition UnpackPath (fuel : nat) (packed_path : list NodeID)
    (unpacked_path : list _PathData) : result (list _PathData) :=
  recursion_stack ← seed_recursion_stack packed_path;
  unpack_path_loop fuel recursion_stack unpacked_path.

(** *** UnpackEdge *)

(** Lines 218-271: one turn of the [while] loop, on the popped pair. *)
Definition unpack_edge_step (edge : NodeID * NodeID)
    (recursion_stack : list (NodeID * NodeID))
    (unpacked_path : list NodeID)
  : result (list (NodeID * NodeID) * list NodeID) :=
  let '(smaller_edge_id, edge_weight) := find_smaller_edge edge in
  _ ← BOOST_ASSERT_MSG (negb (edge_weight =? INT_MAX)) "edge weight invalid";
  let ed := GetEdgeData facade smaller_edge_id in
  if Edge.shortcut ed then
    let middle_node_id := Edge.id ed in
    Ok ((edge.1, middle_node_id) :: (middle_node_id, edge.2)
          :: recursion_stack,
        unpacked_path)
  else
    _ ← BOOST_ASSERT_MSG (negb (Edge.shortcut ed)) "edge must be shortcut";
    Ok (recursion_stack, unpacked_path ++ [edge.1]).

Fixpoint unpack_edge_loop (fuel : nat)
    (recursion_stack : list (NodeID * NodeID))
    (unpacked_path : list NodeID) : result (list NodeID) :=
  match recursion_stack with
  | [] => Ok unpacked_path
  | edge :: recursion_stack =>
      match fuel with
      | O => Err OutOfFuel
      | S fuel =>
          '(recursion_stack, unpacked_path) ←
            unpack_edge_step edge recursion_stack unpacked_path;
          unpack_edge_loop fuel recursion_stack unpacked_path
      end
  end.

Definition UnpackEdge (fuel : nat) (s t : NodeID)
    (unpacked_path : list NodeID) : result (list NodeID) :=
  unpacked_path ← unpack_edge_loop fuel [(s, t)] unpacked_path;
  Ok (unpacked_path ++ [t]).

End BasicRoutingInterface.

(** *** Packed paths *)

(** The loop of lines 283-286, 291-294 and 304-307: follow the parents in
    [search_heap] from [current_node_id], pushing every node reached, until
    a node is its own parent.  A parent cycle makes the source loop for
    ever, so the model bounds the number of turns. *)
Fixpoint follow_parents (fuel : nat) (search_heap : QueryHeap)
    (current_node_id : NodeID) (packed_path : list NodeID)
  : result (list NodeID) :=
  match fuel with
  | O => Err OutOfFuel
  | S fuel =>
      data ← GetData search_heap current_node_id;
      if negb (current_node_id =? parent data)%N then
        follow_parents fuel search_heap (parent data)
          (packed_path ++ [parent data])
      else Ok packed_path
  end.

Definition RetrievePackedPathFromHeap (fuel : nat)
    (forward_heap reverse_heap : QueryHeap) (middle_node_id : NodeID)
    (packed_path : list NodeID) : result (list NodeID) :=
  packed_path ← follow_parents fuel forward_heap middle_node_id packed_path;
  let packed_path := rev packed_path in
  let packed_path := packed_path ++ [middle_node_id] in
  follow_parents fuel reverse_heap middle_node_id packed_path.

Definition RetrievePackedPathFromSingleHeap (fuel : nat)
    (search_heap : QueryHeap) (middle_node_id : NodeID)
    (packed_path : list NodeID) : result (list NodeID) :=
  follow_parents fuel search_heap middle_node_id packed_path.

(** ** Callers and test fixtures *)

(** Modelled from the spec: the caller of [RoutingStep] (the query loops
    live in other headers, whose text is not available).  The caller owns a
    forward and a reverse heap and advances one side per call, handing the
    advanced heap over as first argument; which side it picks, and with
    which offset, is left open. *)
Definition advance {F : Type} `{DataFacade F} (facade : F)
    (st : RoutingState) (edge_expansion_offset : Z)
    (forward_direction : bool) : result RoutingState :=
  if forward_direction then
    RoutingStep facade (forward_heap st) (reverse_heap st)
      (middle_node_id st) (upper_bound st) edge_expansion_offset true
  else
    st' ← RoutingStep facade (reverse_heap st) (forward_heap st)
            (middle_node_id st) (upper_bound st) edge_expansion_offset false;
    Ok {| forward_heap := reverse_heap st';
          reverse_heap := forward_heap st';
          middle_node_id := middle_node_id st';
          upper_bound := upper_bound st' |}.

(** A query: any finite sequence of successful calls. *)
Inductive query_run {F : Type} `{DataFacade F} (facade : F)
  : RoutingState -> RoutingState -> Prop :=
| query_done st : query_run facade st st
| query_call st offset direction st' st'' :
    advance facade st offset direction = Ok st' ->
    query_run facade st' st'' ->
    query_run facade st st''.

(** An in-memory facade over an adjacency array: the edges out of node [n]
    are the slots [first_edge[n] .. first_edge[n+1]) of [edge_array]. *)
Record StaticGraph : Type := {
  first_edge : list EdgeID;
  edge_array : list (NodeID * EdgeData)
}.

Definition no_edge : NodeID * EdgeData :=
  (0%N, {| Edge.distance := 0; Edge.forward := false; Edge.backward := false;
           Edge.shortcut := false; Edge.id := 0%N |}).

#[global] Instance StaticGraph_facade : DataFacade StaticGraph := {
  BeginEdges g n := default 0%N (first_edge g !! N.to_nat n);
  EndEdges g n := default 0%N (first_edge g !! S (N.to_nat n));
  GetTarget g e := (default no_edge (edge_array g !! N.to_nat e)).1;
  GetEdgeData g e := (default no_edge (edge_array g !! N.to_nat e)).2;
  GetNameIndexFromEdgeID g i := (100 + i)%N;
  GetTurnInstructionForEdgeID g i := (i mod 8)%N
}.

Definition original_edge (target : NodeID) (w : Z) (fwd bwd : bool) (i : N)
  : NodeID * EdgeData :=
  (target, {| Edge.distance := w; Edge.forward := fwd; Edge.backward := bwd;
              Edge.shortcut := false; Edge.id := i |}).

Definition shortcut_edge (target : NodeID) (w : Z) (fwd bwd : bool)
    (middle : NodeID) : NodeID * EdgeData :=
  (target, {| Edge.distance := w; Edge.forward := fwd; Edge.backward := bwd;
              Edge.shortcut := true; Edge.id := middle |}).

(** Parallel edges [0→1(8,fwd)] and [0→1(5,fwd)]. *)
Definition parallel_graph : StaticGraph :=
  {| first_edge := [0; 2; 2]%N;
     edge_array := [original_edge 1 8 true false 10;
                    original_edge 1 5 true false 11] |}.

(** [0→1(3,fwd)], [0→2(7,fwd,shortcut=1)], [1→2(4,fwd)]. *)
Definition shortcut_graph : StaticGraph :=
  {| first_edge := [0; 2; 3; 3]%N;
     edge_array := [original_edge 1 3 true false 20;
                    shortcut_edge 2 7 true false 1;
                    original_edge 2 4 true false 21] |}.

(** Nodes 0 and 1 without edges. *)
Definition disconnected_graph : StaticGraph :=
  {| first_edge := [0; 0; 0]%N; edge_array := [] |}.

(** A forward edge [0→1] of weight [INT_MAX] and a backward edge [1→0] of
    weight 3. *)
Definition saturated_graph : StaticGraph :=
  {| first_edge := [0; 1; 2]%N;
     edge_array := [original_edge 1 INT_MAX true false 30;
                    original_edge 0 3 false true 31] |}.

(** The stall scenario: [0→1(1,fwd)], [0→2(10,fwd)], [1→2(1,fwd)],
    [2→1(1,bwd)]. *)
Definition stall_graph : StaticGraph :=
  {| first_edge := [0; 2; 3; 4]%N;
     edge_array := [original_edge 1 1 true false 40;
                    original_edge 2 10 true false 41;
                    original_edge 2 1 true false 42;
                    original_edge 1 1 false true 43] |}.

Definition heap_of (l : list (NodeID * Z * NodeID * bool)) : QueryHeap :=
  {| slots := list_to_map
       ((fun '(n, k, p, q) =>
           (n, {| entry := {| key := k; parent := p |}; in_queue := q |}))
          <$> l);
     calls := [] |}.

(** ** Vocabulary of the properties *)

Section Vocabulary.

Context {F : Type} `{DataFacade F} (facade : F).

Definition weight_of (e : EdgeID) : Z := Edge.distance (GetEdgeData facade e).

(** [e] is one of the edge slots of node [n]. *)
Definition edge_of (n : NodeID) (e : EdgeID) : Prop :=
  (BeginEdges facade n <= e < EndEdges facade n)%N.

(** The member tested by the relaxation loop, and the one tested by the
    stalling loop. *)
Definition direction_flag (forward_direction : bool) (e : EdgeID) : bool :=
  if forward_direction then Edge.forward (GetEdgeData facade e)
  else Edge.backward (GetEdgeData facade e).

Definition reverse_flag (forward_direction : bool) (e : EdgeID) : bool :=
  if forward_direction then Edge.backward (GetEdgeData facade e)
  else Edge.forward (GetEdgeData facade e).

(** The data-model invariant [weight > 0], for the edges of one node. *)
Definition positive_weights (n : NodeID) : Prop :=
  forall e, edge_of n e -> 0 < weight_of e.

(** [e] is an edge of [node] that stalls it: it may be travelled against
    the search direction, from a node that is inserted in [heap] with a key
    from which [node] is reached below [distance]. *)
Definition stalling_edge (heap : QueryHeap) (distance : Z)
    (forward_direction : bool) (node : NodeID) (e : EdgeID) : Prop :=
  edge_of node e /\
  reverse_flag forward_direction e = true /\
  WasInserted heap (GetTarget facade e) = true /\
  exists k, GetKey heap (GetTarget facade e) = Ok k /\
            int_add k (weight_of e) < distance.

(** Forward edges [a→b] among the slots of [a], and backward edges among
    the slots of [b] that lead to [a]. *)
Definition forward_edge (a b : NodeID) (e : EdgeID) : Prop :=
  edge_of a e /\ GetTarget facade e = b /\
  Edge.forward (GetEdgeData facade e) = true.

Definition backward_edge (a b : NodeID) (e : EdgeID) : Prop :=
  edge_of b e /\ GetTarget facade e = a /\
  Edge.backward (GetEdgeData facade e) = true.

Definition min_weight_among (P : EdgeID -> Prop) (e : EdgeID) : Prop :=
  P e /\ forall e', P e' -> weight_of e <= weight_of e'.

(** The edge-selection rule in the words of the specification. *)
Definition selected_as_specified (a b : NodeID) (e : EdgeID) : Prop :=
  min_weight_among (forward_edge a b) e \/
  ((~ exists e', forward_edge a b e') /\
   min_weight_among (backward_edge a b) e).

(** The rule of the code: an edge of weight [INT_MAX] is never taken, and
    among edges of equal weight the first slot wins. *)
Definition below_INT_MAX (P : EdgeID -> Prop) (e : EdgeID) : Prop :=
  P e /\ weight_of e < INT_MAX.

Definition first_min_weight_among (P : EdgeID -> Prop) (e : EdgeID) : Prop :=
  P e /\
  forall e', P e' ->
    weight_of e < weight_of e' \/ (weight_of e = weight_of e' /\ (e <= e')%N).

Definition selected_by_code (a b : NodeID) (e : EdgeID) : Prop :=
  first_min_weight_among (below_INT_MAX (forward_edge a b)) e \/
  ((~ exists e', below_INT_MAX (forward_edge a b) e') /\
   first_min_weight_among (below_INT_MAX (backward_edge a b)) e).

(** Edge ids are [unsigned] and [SPECIAL_EDGEID] is none of them. *)
Definition edge_ids_fit : Prop :=
  forall n, (EndEdges facade n <= SPECIAL_EDGEID)%N.

(** What the unpacking loops do with the pair [edge] once its edge [ed] is
    chosen. *)
Definition expand_path (ed : EdgeData) (edge : NodeID * NodeID)
    (recursion_stack : list (NodeID * NodeID))
    (unpacked_path : list _PathData)
  : list (NodeID * NodeID) * list _PathData :=
  if Edge.shortcut ed then
    ((edge.1, Edge.id ed) :: (Edge.id ed, edge.2) :: recursion_stack,
     unpacked_path)
  else (recursion_stack, unpacked_path ++ [path_data_of facade ed]).

Definition expand_edge (ed : EdgeData) (edge : NodeID * NodeID)
    (recursion_stack : list (NodeID * NodeID))
    (unpacked_path : list NodeID)
  : list (NodeID * NodeID) * list NodeID :=
  if Edge.shortcut ed then
    ((edge.1, Edge.id ed) :: (Edge.id ed, edge.2) :: recursion_stack,
     unpacked_path)
  else (recursion_stack, unpacked_path ++ [edge.1]).

(** A record that was built from an edge slot that is not a shortcut. *)
Definition from_original_edge (r : _PathData) : Prop :=
  exists e, Edge.shortcut (GetEdgeData facade e) = false /\
            r = path_data_of facade (GetEdgeData facade e).

End Vocabulary.

(** The parents met when walking from [x] in [heap] up to the first node
    that is its own parent, [x] excluded. *)
Inductive parent_chain (heap : QueryHeap) : NodeID -> list NodeID -> Prop :=
| chain_root x d :
    GetData heap x = Ok d -> parent d = x -> parent_chain heap x []
| chain_step x d l :
    GetData heap x = Ok d -> parent d <> x ->
    parent_chain heap (parent d) l ->
    parent_chain heap x (parent d :: l).

(** The packed path in the words of the specification. *)
Definition packed_path_as_specified (forward_parents reverse_parents : list NodeID)
    (meeting_node : NodeID) : list NodeID :=
  rev forward_parents ++ [meeting_node] ++ reverse_parents.

(** The condition under which the specification has [meeting_node] and
    [upper_bound] assigned, with the candidate value. *)
Definition meeting_candidate (reverse_heap : QueryHeap) (node : NodeID)
    (distance upper_bound candidate : Z) : Prop :=
  WasInserted reverse_heap node = true /\
  (exists k, GetKey reverse_heap node = Ok k /\ candidate = int_add k distance) /\
  0 <= candidate < upper_bound.

(** What one turn of the relaxation loop does to the heap: [before] and
    [after] are the heap on entry to and on exit from the turn for edge
    [e] out of [node], which was extracted with key [distance]. *)
Definition relaxation_outcome {F : Type} `{DataFacade F} (facade : F)
    (node : NodeID) (distance : Z) (before : QueryHeap) (e : EdgeID)
    (after : QueryHeap) : Prop :=
  let v := GetTarget facade e in
  let v_distance := int_add distance (weight_of facade e) in
  (WasInserted before v = false ->
     Insert before v v_distance node = Ok after /\
     WasInserted after v = true /\
     GetData after v = Ok {| key := v_distance; parent := node |} /\
     calls after = calls before ++ [CallInsert v v_distance node]) /\
  (forall k, WasInserted before v = true -> GetKey before v = Ok k ->
     v_distance < k ->
     GetData after v = Ok {| key := v_distance; parent := node |} /\
     calls after = calls before ++
       [CallSetParent v node; CallDecreaseKey v v_distance]) /\
  (forall k, WasInserted before v = true -> GetKey before v = Ok k ->
     k <= v_distance -> after = before) /\
  (forall n, n <> v -> slots after !! n = slots before !! n).

(** The edge-selection claim in the words of the specification: whenever a
    pair has a forward edge [a→b] or a backward edge [b→a], the edge the
    code settles on is the one the rule names. *)
Definition selection_rule_as_specified {F : Type} `{DataFacade F}
    (facade : F) : Prop :=
  edge_ids_fit facade ->
  forall a b,
    (exists e, forward_edge facade a b e \/ backward_edge facade a b e) ->
    selected_as_specified facade a b (find_smaller_edge facade (a, b)).1.

(** A node that is its own parent in [heap]. *)
Definition self_parent (heap : QueryHeap) (x : NodeID) : Prop :=
  exists d, GetData heap x = Ok d /\ parent d = x.

(** The pairs of neighbours of a path, left to right. *)
Definition adjacent_pairs (packed_path : list NodeID)
  : list (NodeID * NodeID) :=
  zip packed_path (tail packed_path).

(** The slots a scanning loop of the edge selection is interested in. *)
Definition scanned {F : Type} `{DataFacade F} (facade : F)
    (wanted : NodeID) (flag : EdgeData -> bool) (e : EdgeID) : Prop :=
  GetTarget facade e = wanted /\ flag (GetEdgeData facade e) = true.

(** Heaps of the worked examples. *)

(** Forward search of [stall_graph] from node 0 just before node 2 is
    extracted with the key 10 it got over the direct edge. *)
Definition stall_heap : QueryHeap :=
  heap_of [(0%N, 0, 0%N, false); (1%N, 1, 0%N, false); (2%N, 10, 0%N, true)].

Definition stall_heap_settled : QueryHeap :=
  {| slots := slots (heap_of [(0%N, 0, 0%N, false); (1%N, 1, 0%N, false);
                              (2%N, 10, 0%N, false)]);
     calls := [CallDeleteMin] |}.

(** The same search at its start. *)
Definition start_heap : QueryHeap := heap_of [(0%N, 0, 0%N, true)].

Definition start_heap_settled : QueryHeap :=
  {| slots := slots (heap_of [(0%N, 0, 0%N, false)]);
     calls := [CallDeleteMin] |}.

(** Node 2 queued with key 5 on one side and settled with key 7 on the
    other. *)
Definition meeting_heap : QueryHeap := heap_of [(2%N, 5, 1%N, true)].

Definition meeting_heap_settled : QueryHeap :=
  {| slots := slots (heap_of [(2%N, 5, 1%N, false)]);
     calls := [CallDeleteMin] |}.

Definition opposite_heap : QueryHeap := heap_of [(2%N, 7, 3%N, false)].

(** Parents [2 → 1 → 0] on the forward side and [2 → 3 → 4] on the reverse
    side. *)
Definition forward_tree : QueryHeap :=
  heap_of [(0%N, 0, 0%N, false); (1%N, 3, 0%N, false); (2%N, 5, 1%N, false)].

Definition reverse_tree : QueryHeap :=
  heap_of [(4%N, 0, 4%N, false); (3%N, 3, 4%N, false); (2%N, 5, 3%N, false)].

(** ** Vocabulary of the further properties *)

(** The sums [distance + weight] that the relaxation loop of [node] forms
    are representable in [int]. *)
Definition no_overflow {F : Type} `{DataFacade F} (facade : F)
    (node : NodeID) (distance : Z) (forward_direction : bool) : Prop :=
  forall e, edge_of facade node e ->
            direction_flag facade forward_direction e = true ->
            in_int_range (distance + weight_of facade e).

(** [after] has every node of [before], with a key that is not larger and
    with the same queue membership. *)
Definition keys_not_raised (before after : QueryHeap) : Prop :=
  forall n s, slots before !! n = Some s ->
    exists s', slots after !! n = Some s' /\
               key (entry s') <= key (entry s) /\
               in_queue s' = in_queue s.

(** Every inserted node is its own parent or has an inserted parent of
    strictly smaller key. *)
Definition parents_have_smaller_keys (heap : QueryHeap) : Prop :=
  forall n s, slots heap !! n = Some s ->
    parent (entry s) = n \/
    exists sp, slots heap !! parent (entry s) = Some sp /\
               key (entry sp) < key (entry s).

(** The edge selection finds an edge for the pair. *)
Definition resolved {F : Type} `{DataFacade F} (facade : F)
    (edge : NodeID * NodeID) : Prop :=
  (find_smaller_edge facade edge).2 <> INT_MAX.

Definition edge_data_of {F : Type} `{DataFacade F} (facade : F)
    (edge : NodeID * NodeID) : EdgeData :=
  GetEdgeData facade (find_smaller_edge facade edge).1.

(** The pair is resolved to an edge that is no shortcut. *)
Definition original_pair {F : Type} `{DataFacade F} (facade : F)
    (edge : NodeID * NodeID) : Prop :=
  resolved facade edge /\ Edge.shortcut (edge_data_of facade edge) = false.

(** The record [UnpackPath] emits for an original pair. *)
Definition record_of {F : Type} `{DataFacade F} (facade : F)
    (edge : NodeID * NodeID) : _PathData :=
  path_data_of facade (edge_data_of facade edge).

(** The recursive reading of unpacking: a pair whose edge is no shortcut
    stands for itself, a pair whose edge is a shortcut over [m] stands for
    the expansion of [(a, m)] followed by the expansion of [(m, b)]. *)
Inductive expands {F : Type} `{DataFacade F} (facade : F)
  : NodeID * NodeID -> list (NodeID * NodeID) -> Prop :=
| expands_original a b :
    resolved facade (a, b) ->
    Edge.shortcut (edge_data_of facade (a, b)) = false ->
    expands facade (a, b) [(a, b)]
| expands_shortcut a b l1 l2 :
    resolved facade (a, b) ->
    Edge.shortcut (edge_data_of facade (a, b)) = true ->
    expands facade (a, Edge.id (edge_data_of facade (a, b))) l1 ->
    expands facade (Edge.id (edge_data_of facade (a, b)), b) l2 ->
    expands facade (a, b) (l1 ++ l2).

(** [l] leads from [a] to [b]: it is not empty, starts at [a], ends at [b]
    and every pair starts where the one before it ends. *)
Definition leads_from_to (a : NodeID) (l : list (NodeID * NodeID))
    (b : NodeID) : Prop :=
  l <> [] /\ l.*1 ++ [b] = a :: l.*2.

(** Heaps of the worked examples of the further properties. *)

(** Parents [1 → 2 → 1]: no node is its own parent. *)
Definition cyclic_tree : QueryHeap :=
  heap_of [(1%N, 3, 2%N, false); (2%N, 5, 1%N, false)].

(** [start_heap] after node 0 was extracted and its two forward edges of
    [stall_graph] were relaxed. *)
Definition start_heap_relaxed : QueryHeap :=
  {| slots := slots (heap_of [(0%N, 0, 0%N, false); (1%N, 1, 0%N, true);
                              (2%N, 10, 0%N, true)]);
     calls := [CallDeleteMin; CallInsert 1 1 0; CallInsert 2 10 0] |}.

(** A single forward edge [0→1], of weight [INT_MAX]. *)
Definition heavy_graph : StaticGraph :=
  {| first_edge := [0; 1; 1]%N;
     edge_array := [original_edge 1 INT_MAX true false 50] |}.

(** The by-reference arguments after the first call of the forward search
    of [stall_graph], and after the call that extracts node 2 from
    [meeting_heap] with [opposite_heap] on the other side. *)
Definition start_state : RoutingState :=
  {| forward_heap := start_heap_relaxed; reverse_heap := empty_heap;
     middle_node_id := 99%N; upper_bound := 1000 |}.

Definition meeting_state : RoutingState :=
  {| forward_heap := meeting_heap_settled; reverse_heap := opposite_heap;
     middle_node_id := 2%N; upper_bound := 12 |}.

Definition stall_state : RoutingState :=
  {| forward_heap := stall_heap_settled; reverse_heap := empty_heap;
     middle_node_id := 99%N; upper_bound := 1000 |}.

(** The state of the caller around a call of [RoutingStep] on the heaps
    [current] and [opposite]: the heap advanced is the caller's forward heap
    when the direction is forward and its reverse heap otherwise. *)
Definition caller_state (forward_direction : bool)
    (current opposite : QueryHeap) (middle_node_id : NodeID)
    (upper_bound : Z) : RoutingState :=
  if forward_direction then
    {| forward_heap := current; reverse_heap := opposite;
       middle_node_id := middle_node_id; upper_bound := upper_bound |}
  else
    {| forward_heap := opposite; reverse_heap := current;
       middle_node_id := middle_node_id; upper_bound := upper_bound |}.

(** * Properties *)

(** ** Machine integers and results *)

Lemma to_int_id x : in_int_range x -> to_int x = x.
Proof.
  unfold in_int_range, INT_MIN, INT_MAX, to_int. intros Hx.
  rewrite Z.mod_small by lia. lia.
Qed.

Lemma to_int_range x : in_int_range (to_int x).
Proof.
  unfold in_int_range, INT_MIN, INT_MAX, to_int.
  pose proof (Z.mod_pos_bound (x + 2147483648) 4294967296). lia.
Qed.

Lemma int_add_exact x y : in_int_range (x + y) -> int_add x y = x + y.
Proof. apply to_int_id. Qed.

Lemma int_sub_exact x y : in_int_range (x - y) -> int_sub x y = x - y.
Proof. apply to_int_id. Qed.

Lemma unsigned_sub_wraps : unsigned_sub 0 1 = UINT_MAX.
Proof. reflexivity. Qed.

Lemma unsigned_sub_exact (x y : N) :
  (y <= x)%N -> (x <= UINT_MAX)%N -> unsigned_sub x y = (x - y)%N.
Proof.
  unfold unsigned_sub, to_unsigned, UINT_MAX. intros Hyx Hx.
  rewrite Z.mod_small by lia. lia.
Qed.

Lemma bind_Ok {A B} (f : A -> result B) (a : A) : (Ok a ≫= f) = f a.
Proof. reflexivity. Qed.

Lemma bind_inv_Ok {A B} (f : A -> result B) (m : result A) (b : B) :
  (m ≫= f) = Ok b -> exists a, m = Ok a /\ f a = Ok b.
Proof. destruct m as [a|e]; [eauto | discriminate]. Qed.

Lemma assert_true (msg : string) : BOOST_ASSERT_MSG true msg = Ok tt.
Proof. reflexivity. Qed.

(** ** The heap model meets its contract *)

Section HeapFacts.

Implicit Types (h : QueryHeap) (n : NodeID).

Lemma WasInserted_true h n :
  WasInserted h n = true <-> exists s, slots h !! n = Some s.
Proof. unfold WasInserted. rewrite bool_decide_eq_true. reflexivity. Qed.

Lemma WasInserted_false h n : WasInserted h n = false <-> slots h !! n = None.
Proof.
  unfold WasInserted. rewrite bool_decide_eq_false, <- eq_None_not_Some.
  reflexivity.
Qed.

Lemma GetKey_lookup h n s :
  slots h !! n = Some s -> GetKey h n = Ok (key (entry s)).
Proof. unfold GetKey. intros ->. reflexivity. Qed.

Lemma GetData_lookup h n s :
  slots h !! n = Some s -> GetData h n = Ok (entry s).
Proof. unfold GetData. intros ->. reflexivity. Qed.

Lemma GetKey_Ok h n k :
  GetKey h n = Ok k <-> exists s, slots h !! n = Some s /\ key (entry s) = k.
Proof.
  unfold GetKey. destruct (slots h !! n) as [s|]; simpl; split.
  - intros [= <-]. eauto.
  - intros (s' & [= <-] & <-). reflexivity.
  - discriminate.
  - intros (s' & ? & _). discriminate.
Qed.

Lemma GetData_Ok h n d :
  GetData h n = Ok d <-> exists s, slots h !! n = Some s /\ entry s = d.
Proof.
  unfold GetData. destruct (slots h !! n) as [s|]; simpl; split.
  - intros [= <-]. eauto.
  - intros (s' & [= <-] & <-). reflexivity.
  - discriminate.
  - intros (s' & ? & _). discriminate.
Qed.

(** A node that was inserted has a key. *)
Lemma WasInserted_GetKey h n :
  WasInserted h n = true -> exists k, GetKey h n = Ok k.
Proof.
  rewrite WasInserted_true. intros [s Hs]. exists (key (entry s)).
  by apply GetKey_lookup.
Qed.

(** What the fold of [better] keeps. *)
Lemma foldl_better_spec (l : list (N * HeapSlot)) (b : option (N * Z)) :
  match foldl better b l with
  | None => b = None /\ Forall (fun c => in_queue c.2 = false) l
  | Some (n, k) =>
      (b = Some (n, k) \/
       exists s, (n, s) ∈ l /\ in_queue s = true /\ key (entry s) = k) /\
      (forall bn bk, b = Some (bn, bk) -> k <= bk) /\
      Forall (fun c => in_queue c.2 = true -> k <= key (entry c.2)) l
  end.
Proof.
  revert b. induction l as [|[m s] l IH]; intros b; simpl.
  - destruct b as [[n k]|]; [|done].
    split; [by left|]. split; [|constructor]. intros ?? [= <- <-]. lia.
  - specialize (IH (better b (m, s))).
    destruct (foldl better (better b (m, s)) l) as [[n k]|].
    + destruct IH as (Hsrc & Hle & Hall). unfold better in Hsrc, Hle. simpl in *.
      destruct (in_queue s) eqn:Hq.
      * destruct b as [[bn bk]|].
        -- destruct (key (entry s) <? bk) eqn:Hlt.
           ++ apply Z.ltb_lt in Hlt. specialize (Hle _ _ eq_refl).
              split; [|split].
              ** right. destruct Hsrc as [[= <- <-]|(s' & Hin & ? & ?)].
                 --- exists s. split; [left|done].
                 --- exists s'. split; [by right|done].
              ** intros ?? [= <- <-]. lia.
              ** constructor; [simpl; intros _; lia | done].
           ++ apply Z.ltb_ge in Hlt. specialize (Hle _ _ eq_refl).
              split; [|split].
              ** destruct Hsrc as [?|(s' & Hin & ? & ?)]; [by left|].
                 right. exists s'. split; [by right|done].
              ** intros ?? [= <- <-]. lia.
              ** constructor; [simpl; intros _; lia | done].
        -- specialize (Hle _ _ eq_refl). split; [|split].
           ++ right. destruct Hsrc as [[= <- <-]|(s' & Hin & ? & ?)].
              ** exists s. split; [left|done].
              ** exists s'. split; [by right|done].
           ++ discriminate.
           ++ constructor; [simpl; intros _; lia | done].
      * split; [|split].
        -- destruct Hsrc as [?|(s' & Hin & ? & ?)]; [by left|].
           right. exists s'. split; [by right|done].
        -- done.
        -- constructor; [simpl; congruence | done].
    + destruct IH as (Hb & Hall). unfold better in Hb. simpl in Hb.
      destruct (in_queue s) eqn:Hq.
      * destruct b as [[bn bk]|]; [|discriminate].
        destruct (key (entry s) <? bk); discriminate.
      * split; [done|]. constructor; done.
Qed.

(** [min_queued] returns a queued node of smallest key, if any is queued. *)
Lemma min_queued_Some (m : gmap N HeapSlot) n k :
  min_queued m = Some (n, k) ->
  exists s, m !! n = Some s /\ in_queue s = true /\ key (entry s) = k /\
    forall n' s', m !! n' = Some s' -> in_queue s' = true ->
                  k <= key (entry s').
Proof.
  unfold min_queued. intros Hmin.
  pose proof (foldl_better_spec (map_to_list m) None) as Hspec.
  rewrite Hmin in Hspec. destruct Hspec as (Hsrc & _ & Hall).
  destruct Hsrc as [?|(s & Hin & Hq & Hk)]; [discriminate|].
  exists s. apply elem_of_map_to_list in Hin. repeat split; try done.
  intros n' s' Hn' Hq'. rewrite Forall_forall in Hall.
  apply (Hall (n', s')); [by apply elem_of_map_to_list | done].
Qed.

Lemma min_queued_None (m : gmap N HeapSlot) :
  min_queued m = None ->
  forall n s, m !! n = Some s -> in_queue s = false.
Proof.
  unfold min_queued. intros Hmin n s Hn.
  pose proof (foldl_better_spec (map_to_list m) None) as Hspec.
  rewrite Hmin in Hspec. destruct Hspec as (_ & Hall).
  rewrite Forall_forall in Hall.
  apply (Hall (n, s)). by apply elem_of_map_to_list.
Qed.

(** [delete_min] extracts a queued node of smallest key; the node stays
    inserted with its entry, and no other slot changes. *)
Lemma DeleteMin_Ok h n h' :
  DeleteMin h = Ok (n, h') ->
  exists s, slots h !! n = Some s /\ in_queue s = true /\
    (forall n' s', slots h !! n' = Some s' -> in_queue s' = true ->
                   key (entry s) <= key (entry s')) /\
    h' = {| slots := <[n := settle s]> (slots h);
            calls := calls h ++ [CallDeleteMin] |}.
Proof.
  unfold DeleteMin. destruct (min_queued (slots h)) as [[m k]|] eqn:Hmin;
    [|discriminate].
  intros [= <- <-]. apply min_queued_Some in Hmin as (s & Hs & Hq & Hk & Hle).
  exists s. repeat split; try done.
  - intros n' s' ??. rewrite Hk. eauto.
  - f_equal. apply map_eq. intros i. rewrite lookup_alter.
    destruct (decide (m = i)) as [<-|Hne].
    + rewrite Hs. by rewrite lookup_insert_eq.
    + by rewrite lookup_insert_ne.
Qed.

(** [delete_min] succeeds as soon as some node is queued. *)
Lemma DeleteMin_nonempty h n s :
  slots h !! n = Some s -> in_queue s = true ->
  exists m h', DeleteMin h = Ok (m, h').
Proof.
  intros Hs Hq. unfold DeleteMin.
  destruct (min_queued (slots h)) as [[m k]|] eqn:Hmin; [eauto|].
  pose proof (min_queued_None _ Hmin _ _ Hs). congruence.
Qed.

Lemma DeleteMin_GetKey h n h' :
  DeleteMin h = Ok (n, h') -> exists k, GetKey h' n = Ok k /\ GetKey h n = Ok k.
Proof.
  intros (s & Hs & _ & _ & ->)%DeleteMin_Ok. exists (key (entry s)). split.
  - apply GetKey_Ok. exists (settle s). simpl. by rewrite lookup_insert_eq.
  - by apply GetKey_lookup.
Qed.

Lemma DeleteMin_calls h n h' :
  DeleteMin h = Ok (n, h') -> calls h' = calls h ++ [CallDeleteMin].
Proof. by intros (s & _ & _ & _ & ->)%DeleteMin_Ok. Qed.

Lemma DeleteMin_entries h n h' m :
  DeleteMin h = Ok (n, h') ->
  entry <$> slots h' !! m = entry <$> slots h !! m.
Proof.
  intros (s & Hs & _ & _ & ->)%DeleteMin_Ok. simpl.
  destruct (decide (n = m)) as [<-|Hne].
  - rewrite lookup_insert_eq, Hs. reflexivity.
  - by rewrite lookup_insert_ne.
Qed.

Lemma DeleteMin_other h n h' m :
  DeleteMin h = Ok (n, h') -> m <> n -> slots h' !! m = slots h !! m.
Proof.
  intros (s & Hs & _ & _ & ->)%DeleteMin_Ok Hne. simpl.
  by rewrite lookup_insert_ne.
Qed.

(** [insert], [decrease_key] and the parent assignment touch one slot. *)
Lemma Insert_Ok h n k p :
  WasInserted h n = false ->
  Insert h n k p =
    Ok {| slots := <[n := {| entry := {| key := k; parent := p |};
                             in_queue := true |}]> (slots h);
          calls := calls h ++ [CallInsert n k p] |}.
Proof. rewrite WasInserted_false. unfold Insert. by intros ->. Qed.

Lemma SetParent_DecreaseKey h n s k p :
  slots h !! n = Some s -> k < key (entry s) ->
  (h' ← SetParent h n p; DecreaseKey h' n k) =
    Ok {| slots := <[n := {| entry := {| key := k; parent := p |};
                             in_queue := in_queue s |}]> (slots h);
          calls := calls h ++ [CallSetParent n p; CallDecreaseKey n k] |}.
Proof.
  intros Hs Hk. unfold SetParent. rewrite Hs. rewrite bind_Ok.
  unfold DecreaseKey. simpl. rewrite lookup_insert_eq. simpl.
  apply Z.ltb_lt in Hk. rewrite Hk. f_equal. f_equal.
  - by rewrite insert_insert_eq.
  - by rewrite <- app_assoc.
Qed.

End HeapFacts.

(** ** Edge ranges *)

Lemma edge_range_lookup (b e : EdgeID) (i : nat) (x : EdgeID) :
  edge_range b e !! i = Some x <->
  (x = b + N.of_nat i)%N /\ (i < N.to_nat (e - b))%nat.
Proof.
  unfold edge_range. rewrite list_lookup_fmap. split.
  - destruct (seq 0 (N.to_nat (e - b)) !! i) as [j|] eqn:Hj; [|discriminate].
    apply lookup_seq in Hj as [-> Hlt]. simpl. intros [= <-]. by split.
  - intros [-> Hlt]. rewrite (lookup_seq_lt 0 _ _ Hlt). reflexivity.
Qed.

Lemma elem_of_edge_range (b e x : EdgeID) :
  x ∈ edge_range b e <-> (b <= x < e)%N.
Proof.
  rewrite list_elem_of_lookup. split.
  - intros (i & [-> Hlt]%edge_range_lookup). lia.
  - intros Hx. exists (N.to_nat (x - b)). apply edge_range_lookup. lia.
Qed.

(** The slots are visited in increasing order. *)
Lemma edge_range_split (b e x : EdgeID) (pre post : list EdgeID) :
  edge_range b e = pre ++ x :: post ->
  (forall y, y ∈ pre -> (y < x)%N) /\ (forall y, y ∈ post -> (x < y)%N).
Proof.
  intros Hsplit.
  assert (Hx : edge_range b e !! length pre = Some x).
  { rewrite Hsplit. by rewrite list_lookup_middle. }
  apply edge_range_lookup in Hx as [-> _]. split.
  - intros y (i & Hi)%list_elem_of_lookup.
    assert (Hlt : (i < length pre)%nat) by (by eapply lookup_lt_Some).
    assert (Hy : edge_range b e !! i = Some y).
    { rewrite Hsplit. by rewrite lookup_app_l. }
    apply edge_range_lookup in Hy as [-> _]. lia.
  - intros y (i & Hi)%list_elem_of_lookup.
    assert (Hy : edge_range b e !! (length pre + S i)%nat = Some y).
    { rewrite Hsplit. rewrite lookup_app_r by lia.
      replace (length pre + S i - length pre)%nat with (S i) by lia. done. }
    apply edge_range_lookup in Hy as [-> _]. lia.
Qed.

(** ** RoutingStep *)

Section RoutingStepFacts.

Context {F : Type} `{DataFacade F} (facade : F).

Lemma meet_in_the_middle_Ok reverse_heap node distance mid ub :
  exists mid' ub',
    meet_in_the_middle reverse_heap node distance mid ub = Ok (mid', ub').
Proof.
  unfold meet_in_the_middle.
  destruct (WasInserted reverse_heap node) eqn:Hins; [|eauto].
  apply WasInserted_GetKey in Hins as [k ->]. rewrite bind_Ok.
  destruct (_ <? _); [destruct (_ <=? _)|]; eauto.
Qed.

(** The update is made exactly under the specified condition. *)
Lemma meet_in_the_middle_spec reverse_heap node distance mid ub mid' ub' :
  meet_in_the_middle reverse_heap node distance mid ub = Ok (mid', ub') ->
  (forall candidate,
      meeting_candidate reverse_heap node distance ub candidate ->
      mid' = node /\ ub' = candidate) /\
  ((~ exists candidate,
       meeting_candidate reverse_heap node distance ub candidate) ->
   mid' = mid /\ ub' = ub).
Proof.
  unfold meet_in_the_middle, meeting_candidate. intros Hmeet.
  destruct (WasInserted reverse_heap node) eqn:Hins.
  - destruct (WasInserted_GetKey _ _ Hins) as [k Hk].
    rewrite Hk, bind_Ok in Hmeet.
    destruct (int_add k distance <? ub) eqn:Hlt;
      [destruct (0 <=? int_add k distance) eqn:Hge|];
      injection Hmeet as <- <-.
    + apply Z.ltb_lt in Hlt. apply Z.leb_le in Hge. split.
      * intros c (_ & (k' & Hk' & ->) & _).
        rewrite Hk in Hk'. by injection Hk' as <-.
      * intros Hno. exfalso. apply Hno. exists (int_add k distance).
        split; [done|]. split; [eauto | lia].
    + apply Z.leb_gt in Hge. split; [|done].
      intros c (_ & (k' & Hk' & ->) & ?).
      rewrite Hk in Hk'. injection Hk' as <-. lia.
    + apply Z.ltb_ge in Hlt. split; [|done].
      intros c (_ & (k' & Hk' & ->) & ?).
      rewrite Hk in Hk'. injection Hk' as <-. lia.
  - injection Hmeet as <- <-. split; [|done].
    intros c (? & _). congruence.
Qed.

Lemma meet_in_the_middle_le reverse_heap node distance mid ub mid' ub' :
  meet_in_the_middle reverse_heap node distance mid ub = Ok (mid', ub') ->
  (ub' < ub /\ mid' = node) \/ (ub' = ub /\ mid' = mid).
Proof.
  unfold meet_in_the_middle. intros Hmeet.
  destruct (WasInserted reverse_heap node) eqn:Hins.
  - destruct (WasInserted_GetKey _ _ Hins) as [k Hk].
    rewrite Hk, bind_Ok in Hmeet.
    destruct (int_add k distance <? ub) eqn:Hlt;
      [destruct (0 <=? int_add k distance) eqn:Hge|];
      injection Hmeet as <- <-; auto.
    apply Z.ltb_lt in Hlt. auto.
  - injection Hmeet as <- <-. auto.
Qed.

(** [RoutingStep] after its first three statements. *)
Lemma RoutingStep_unfold fh rh mid ub offset direction node h1 d mid' ub' :
  DeleteMin fh = Ok (node, h1) ->
  GetKey h1 node = Ok d ->
  meet_in_the_middle rh node d mid ub = Ok (mid', ub') ->
  RoutingStep facade fh rh mid ub offset direction =
    if int_sub d offset >? ub' then
      Ok {| forward_heap := DeleteAll h1; reverse_heap := rh;
            middle_node_id := mid'; upper_bound := ub' |}
    else
      let edges :=
        edge_range (BeginEdges facade node) (EndEdges facade node) in
      stalled ← stall_scan facade h1 d direction edges;
      if (stalled : bool) then
        Ok {| forward_heap := h1; reverse_heap := rh;
              middle_node_id := mid'; upper_bound := ub' |}
      else
        h2 ← relax_edges facade node d direction h1 edges;
        Ok {| forward_heap := h2; reverse_heap := rh;
              middle_node_id := mid'; upper_bound := ub' |}.
Proof.
  intros Hmin Hkey Hmeet. unfold RoutingStep.
  rewrite Hmin, bind_Ok. rewrite Hkey, bind_Ok. rewrite Hmeet, bind_Ok.
  reflexivity.
Qed.

(** The stalling loop returns at the first stalling edge. *)
Lemma stall_scan_stalls heap distance direction (node : NodeID) edges e :
  (forall x, x ∈ edges -> reverse_flag facade direction x = true ->
             0 < weight_of facade x) ->
  e ∈ edges ->
  reverse_flag facade direction e = true ->
  WasInserted heap (GetTarget facade e) = true ->
  (exists k, GetKey heap (GetTarget facade e) = Ok k /\
             int_add k (weight_of facade e) < distance) ->
  stall_scan facade heap distance direction edges = Ok true.
Proof.
  intros Hpos Hin Hflag Hins (k & Hk & Hlt).
  induction edges as [|x edges IH]; [by apply elem_of_nil in Hin|].
  assert (Hrest : e ∈ edges ->
            stall_scan facade heap distance direction edges = Ok true).
  { intros Hin'. apply IH; [|done]. intros y Hy. apply Hpos. by right. }
  simpl.
  assert (Hfx : (if negb direction
                 then Edge.forward (GetEdgeData facade x)
                 else Edge.backward (GetEdgeData facade x))
                = reverse_flag facade direction x).
  { unfold reverse_flag. by destruct direction. }
  rewrite Hfx. destruct (reverse_flag facade direction x) eqn:Hrx.
  - assert (Hwx : 0 < weight_of facade x) by (apply Hpos; [left|done]).
    unfold weight_of in Hwx. apply Z.ltb_lt in Hwx. rewrite Hwx.
    rewrite assert_true, bind_Ok.
    apply elem_of_cons in Hin as [<-|Hin].
    + rewrite Hins, Hk, bind_Ok. unfold weight_of in Hlt.
      apply Z.ltb_lt in Hlt. by rewrite Hlt.
    + destruct (WasInserted heap (GetTarget facade x)) eqn:Hix;
        [|by apply Hrest].
      destruct (WasInserted_GetKey _ _ Hix) as [kx ->]. rewrite bind_Ok.
      destruct (int_add kx _ <? distance); [done | by apply Hrest].
  - apply elem_of_cons in Hin as [<-|Hin]; [congruence | by apply Hrest].
Qed.

(** The stalling loop never fails on positive weights. *)
Lemma stall_scan_Ok heap distance direction edges :
  (forall x, x ∈ edges -> reverse_flag facade direction x = true ->
             0 < weight_of facade x) ->
  exists b, stall_scan facade heap distance direction edges = Ok b.
Proof.
  induction edges as [|x edges IH]; intros Hpos; simpl; [eauto|].
  assert (Hrest : exists b,
             stall_scan facade heap distance direction edges = Ok b).
  { apply IH. intros y Hy. apply Hpos. by right. }
  assert (Hfx : (if negb direction
                 then Edge.forward (GetEdgeData facade x)
                 else Edge.backward (GetEdgeData facade x))
                = reverse_flag facade direction x).
  { unfold reverse_flag. by destruct direction. }
  rewrite Hfx. destruct (reverse_flag facade direction x) eqn:Hrx; [|done].
  assert (Hwx : 0 < weight_of facade x) by (apply Hpos; [left|done]).
  unfold weight_of in Hwx. apply Z.ltb_lt in Hwx. rewrite Hwx.
  rewrite assert_true, bind_Ok.
  destruct (WasInserted heap (GetTarget facade x)) eqn:Hix; [|done].
  destruct (WasInserted_GetKey _ _ Hix) as [kx ->]. rewrite bind_Ok.
  destruct (int_add kx _ <? distance); eauto.
Qed.

End RoutingStepFacts.

(** ** The relaxation loop *)

Section RelaxationFacts.

Context {F : Type} `{DataFacade F} (facade : F).

Variables (node : NodeID) (distance : Z) (direction : bool).

Lemma relax_edge_unflagged heap e :
  direction_flag facade direction e = false ->
  relax_edge facade node distance direction heap e = Ok heap.
Proof.
  unfold relax_edge, direction_flag. by destruct direction; intros ->.
Qed.

Lemma relax_edge_flagged heap e :
  direction_flag facade direction e = true ->
  0 < weight_of facade e ->
  relax_edge facade node distance direction heap e =
    let to := GetTarget facade e in
    let to_distance := int_add distance (weight_of facade e) in
    if negb (WasInserted heap to) then Insert heap to to_distance node
    else
      key_of_to ← GetKey heap to;
      if to_distance <? key_of_to then
        heap' ← SetParent heap to node; DecreaseKey heap' to to_distance
      else Ok heap.
Proof.
  unfold relax_edge, direction_flag, weight_of. intros Hflag Hpos.
  apply Z.ltb_lt in Hpos. rewrite Hpos, assert_true, bind_Ok.
  by destruct direction; rewrite Hflag.
Qed.

Lemma relax_edge_insert heap e :
  direction_flag facade direction e = true ->
  0 < weight_of facade e ->
  WasInserted heap (GetTarget facade e) = false ->
  relax_edge facade node distance direction heap e =
    Insert heap (GetTarget facade e)
      (int_add distance (weight_of facade e)) node.
Proof.
  intros Hflag Hpos Hins. rewrite relax_edge_flagged by done.
  simpl. by rewrite Hins.
Qed.

Lemma relax_edge_decrease heap e s :
  direction_flag facade direction e = true ->
  0 < weight_of facade e ->
  slots heap !! GetTarget facade e = Some s ->
  int_add distance (weight_of facade e) < key (entry s) ->
  relax_edge facade node distance direction heap e =
    Ok {| slots :=
            <[GetTarget facade e :=
                {| entry := {| key := int_add distance (weight_of facade e);
                               parent := node |};
                   in_queue := in_queue s |}]> (slots heap);
          calls := calls heap ++
            [CallSetParent (GetTarget facade e) node;
             CallDecreaseKey (GetTarget facade e)
               (int_add distance (weight_of facade e))] |}.
Proof.
  intros Hflag Hpos Hs Hlt. rewrite relax_edge_flagged by done. simpl.
  assert (Hins : WasInserted heap (GetTarget facade e) = true).
  { apply WasInserted_true. eauto. }
  rewrite Hins. simpl. rewrite (GetKey_lookup _ _ _ Hs), bind_Ok.
  pose proof Hlt as Hltb. apply Z.ltb_lt in Hltb. rewrite Hltb.
  by apply SetParent_DecreaseKey.
Qed.

Lemma relax_edge_skip heap e s :
  direction_flag facade direction e = true ->
  0 < weight_of facade e ->
  slots heap !! GetTarget facade e = Some s ->
  key (entry s) <= int_add distance (weight_of facade e) ->
  relax_edge facade node distance direction heap e = Ok heap.
Proof.
  intros Hflag Hpos Hs Hge. rewrite relax_edge_flagged by done. simpl.
  assert (Hins : WasInserted heap (GetTarget facade e) = true).
  { apply WasInserted_true. eauto. }
  rewrite Hins. simpl. rewrite (GetKey_lookup _ _ _ Hs), bind_Ok.
  apply Z.ltb_ge in Hge. by rewrite Hge.
Qed.

(** The loop body never fails on an edge of positive weight. *)
Lemma relax_edge_Ok heap e :
  (direction_flag facade direction e = true -> 0 < weight_of facade e) ->
  exists heap', relax_edge facade node distance direction heap e = Ok heap'.
Proof.
  intros Hpos. destruct (direction_flag facade direction e) eqn:Hflag.
  - specialize (Hpos eq_refl).
    destruct (slots heap !! GetTarget facade e) as [s|] eqn:Hs.
    + destruct (Z.lt_ge_cases (int_add distance (weight_of facade e))
                  (key (entry s))).
      * rewrite (relax_edge_decrease _ _ s) by done. eauto.
      * rewrite (relax_edge_skip _ _ s) by done. eauto.
    + apply WasInserted_false in Hs.
      rewrite relax_edge_insert, Insert_Ok by done. eauto.
  - rewrite relax_edge_unflagged by done. eauto.
Qed.

Lemma relax_edges_app heap pre post :
  relax_edges facade node distance direction heap (pre ++ post) =
    (heap' ← relax_edges facade node distance direction heap pre;
     relax_edges facade node distance direction heap' post).
Proof.
  revert heap. induction pre as [|x pre IH]; intros heap; simpl; [done|].
  destruct (relax_edge facade node distance direction heap x) as [h'|err];
    [|done].
  rewrite !bind_Ok. apply IH.
Qed.

Lemma relax_edges_Ok heap edges :
  (forall e, e ∈ edges -> direction_flag facade direction e = true ->
             0 < weight_of facade e) ->
  exists heap', relax_edges facade node distance direction heap edges
                = Ok heap'.
Proof.
  revert heap. induction edges as [|x edges IH]; intros heap Hpos; simpl.
  - eauto.
  - destruct (relax_edge_Ok heap x) as [h' ->].
    { apply Hpos. left. }
    rewrite bind_Ok. apply IH. intros e He. apply Hpos. by right.
Qed.

End RelaxationFacts.

(** [RoutingStep] returns when the queue holds a node and the edges of the
    extracted node have positive weights. *)
Lemma RoutingStep_returns {F : Type} `{DataFacade F} (facade : F)
    fh rh mid ub offset direction node h1 :
  DeleteMin fh = Ok (node, h1) ->
  positive_weights facade node ->
  exists st, RoutingStep facade fh rh mid ub offset direction = Ok st.
Proof.
  intros Hmin Hpos.
  destruct (DeleteMin_GetKey _ _ _ Hmin) as (d & Hd & _).
  destruct (meet_in_the_middle_Ok rh node d mid ub) as (mid' & ub' & Hmeet).
  rewrite (RoutingStep_unfold facade _ _ _ _ _ _ _ _ _ _ _ Hmin Hd Hmeet).
  destruct (int_sub d offset >? ub'); [eauto|]. simpl.
  assert (Hin : forall e,
             e ∈ edge_range (BeginEdges facade node) (EndEdges facade node) ->
             0 < weight_of facade e).
  { intros e He. apply Hpos. by apply elem_of_edge_range. }
  destruct (stall_scan_Ok facade h1 d direction
              (edge_range (BeginEdges facade node) (EndEdges facade node)))
    as [b ->]; [by auto|].
  rewrite bind_Ok. destruct b; [eauto|].
  destruct (relax_edges_Ok facade node d direction h1
              (edge_range (BeginEdges facade node) (EndEdges facade node)))
    as [h2 ->]; [by auto|].
  rewrite bind_Ok. eauto.
Qed.

(** ** The claims about RoutingStep *)

Section RoutingStepClaims.

Context {F : Type} `{DataFacade F} (facade : F).

Lemma relax_edge_outcome node d direction before e after :
  direction_flag facade direction e = true ->
  0 < weight_of facade e ->
  relax_edge facade node d direction before e = Ok after ->
  relaxation_outcome facade node d before e after.
Proof.
  intros Hflag Hpos Hrelax. unfold relaxation_outcome. simpl.
  destruct (slots before !! GetTarget facade e) as [s|] eqn:Hs.
  - assert (Hins : WasInserted before (GetTarget facade e) = true).
    { apply WasInserted_true. eauto. }
    pose proof (GetKey_lookup _ _ _ Hs) as Hkey.
    destruct (Z.lt_ge_cases (int_add d (weight_of facade e)) (key (entry s)))
      as [Hlt|Hge].
    + rewrite (relax_edge_decrease _ _ _ _ _ _ s) in Hrelax by done.
      injection Hrelax as <-. split; [|split; [|split]].
      * congruence.
      * intros k _ Hk _. split; [|done]. apply GetData_Ok. eexists. simpl.
        rewrite lookup_insert_eq. split; reflexivity.
      * intros k _ Hk Hle. rewrite Hkey in Hk. injection Hk as <-. lia.
      * intros n Hn. simpl. by rewrite lookup_insert_ne.
    + rewrite (relax_edge_skip _ _ _ _ _ _ s) in Hrelax by done.
      injection Hrelax as <-. split; [|split; [|split]].
      * congruence.
      * intros k _ Hk Hlt. rewrite Hkey in Hk. injection Hk as <-. lia.
      * done.
      * done.
  - assert (Hins : WasInserted before (GetTarget facade e) = false).
    { by apply WasInserted_false. }
    rewrite relax_edge_insert in Hrelax by done.
    pose proof Hrelax as Hinsert. rewrite Insert_Ok in Hrelax by done.
    injection Hrelax as <-. split; [|split; [|split]].
    + intros _. split; [done|]. split; [|split; [|done]].
      * apply WasInserted_true. simpl. rewrite lookup_insert_eq. eauto.
      * apply GetData_Ok. eexists. simpl.
        rewrite lookup_insert_eq. split; reflexivity.
    + intros k Hk. congruence.
    + intros k Hk. congruence.
    + intros n Hn. simpl. by rewrite lookup_insert_ne.
Qed.

(** C1 (stall-on-demand).  In a call that passed the termination check,
    if some edge out of the extracted node may be travelled against the
    search direction from a node [u] that is inserted in the current-side
    heap with [GetKey(u) + weight < distance], the call returns with the
    current-side heap exactly as [DeleteMin] left it: no edge is relaxed,
    and [DeleteMin] is the only mutating call the heap received. *)
Theorem RoutingStep_stalls fh rh mid ub offset direction node h1 d mid' ub' :
  DeleteMin fh = Ok (node, h1) ->
  GetKey h1 node = Ok d ->
  meet_in_the_middle rh node d mid ub = Ok (mid', ub') ->
  ~ int_sub d offset > ub' ->
  positive_weights facade node ->
  (exists e, stalling_edge facade h1 d direction node e) ->
  RoutingStep facade fh rh mid ub offset direction =
    Ok {| forward_heap := h1; reverse_heap := rh;
          middle_node_id := mid'; upper_bound := ub' |} /\
  calls h1 = calls fh ++ [CallDeleteMin].
Proof.
  intros Hmin Hd Hmeet Hterm Hpos (e & Hedge & Hflag & Hins & Hkey).
  split; [|by eapply DeleteMin_calls].
  rewrite (RoutingStep_unfold facade _ _ _ _ _ _ _ _ _ _ _ Hmin Hd Hmeet).
  assert (Hgt : (int_sub d offset >? ub') = false).
  { rewrite Z.gtb_ltb. apply Z.ltb_ge. lia. }
  rewrite Hgt. simpl.
  rewrite (stall_scan_stalls facade h1 d direction node _ e); try done.
  - intros x Hx _. apply Hpos. by apply elem_of_edge_range.
  - by apply elem_of_edge_range.
Qed.

(** C4 (termination check).  If the key of the extracted node minus
    [edge_expansion_offset] exceeds [upper_bound] as the meeting update
    left it, the call drains the current-side heap with [DeleteAll] and
    returns: the result does not depend on the edges of the node, and
    [DeleteMin] and [DeleteAll] are the only mutating calls. *)
Theorem RoutingStep_prunes fh rh mid ub offset direction node h1 d mid' ub' :
  DeleteMin fh = Ok (node, h1) ->
  GetKey h1 node = Ok d ->
  meet_in_the_middle rh node d mid ub = Ok (mid', ub') ->
  int_sub d offset > ub' ->
  RoutingStep facade fh rh mid ub offset direction =
    Ok {| forward_heap := DeleteAll h1; reverse_heap := rh;
          middle_node_id := mid'; upper_bound := ub' |} /\
  calls (DeleteAll h1) = calls fh ++ [CallDeleteMin; CallDeleteAll] /\
  DeleteMin (DeleteAll h1) = Err EmptyHeap.
Proof.
  intros Hmin Hd Hmeet Hterm. split; [|split].
  - rewrite (RoutingStep_unfold facade _ _ _ _ _ _ _ _ _ _ _ Hmin Hd Hmeet).
    assert (Hgt : (int_sub d offset >? ub') = true).
    { rewrite Z.gtb_ltb. apply Z.ltb_lt. lia. }
    by rewrite Hgt.
  - simpl. rewrite (DeleteMin_calls _ _ _ Hmin). by rewrite <- app_assoc.
  - reflexivity.
Qed.

(** C10 (frame of the stall branch).  When the call returns from inside
    the stalling loop, the current-side heap received [DeleteMin] and no
    other mutating call, so every entry keeps its key and parent and only
    the extracted node left the queue; the opposite heap is the one that
    was passed in; [middle_node_id] and [upper_bound] are as the meeting
    update left them. *)
Theorem RoutingStep_stall_frame fh rh mid ub offset direction node h1 d
    mid' ub' :
  DeleteMin fh = Ok (node, h1) ->
  GetKey h1 node = Ok d ->
  meet_in_the_middle rh node d mid ub = Ok (mid', ub') ->
  ~ int_sub d offset > ub' ->
  stall_scan facade h1 d direction
    (edge_range (BeginEdges facade node) (EndEdges facade node)) = Ok true ->
  exists st,
    RoutingStep facade fh rh mid ub offset direction = Ok st /\
    calls (forward_heap st) = calls fh ++ [CallDeleteMin] /\
    (forall n, entry <$> slots (forward_heap st) !! n
               = entry <$> slots fh !! n) /\
    (forall n, n <> node ->
               slots (forward_heap st) !! n = slots fh !! n) /\
    reverse_heap st = rh /\
    middle_node_id st = mid' /\ upper_bound st = ub'.
Proof.
  intros Hmin Hd Hmeet Hterm Hstall.
  exists {| forward_heap := h1; reverse_heap := rh;
            middle_node_id := mid'; upper_bound := ub' |}.
  split; [|simpl; split; [|split; [|split; [|done]]]].
  - rewrite (RoutingStep_unfold facade _ _ _ _ _ _ _ _ _ _ _ Hmin Hd Hmeet).
    assert (Hgt : (int_sub d offset >? ub') = false).
    { rewrite Z.gtb_ltb. apply Z.ltb_ge. lia. }
    rewrite Hgt. simpl. by rewrite Hstall.
  - by eapply DeleteMin_calls.
  - intros n. by eapply DeleteMin_entries.
  - intros n Hn. by eapply DeleteMin_other.
Qed.

End RoutingStepClaims.

(** ** The upper bound *)

Section UpperBound.

Context {F : Type} `{DataFacade F} (facade : F).

(** Whatever branch a call returns from, it hands back the opposite heap
    untouched and the bound and meeting node of the meeting update. *)
Lemma RoutingStep_inv fh rh mid ub offset direction st :
  RoutingStep facade fh rh mid ub offset direction = Ok st ->
  exists node h1 d,
    DeleteMin fh = Ok (node, h1) /\
    GetKey h1 node = Ok d /\
    meet_in_the_middle rh node d mid ub
      = Ok (middle_node_id st, upper_bound st) /\
    reverse_heap st = rh.
Proof.
  intros Hstep.
  destruct (DeleteMin fh) as [[node h1]|err] eqn:Hmin;
    [|unfold RoutingStep in Hstep; rewrite Hmin in Hstep; discriminate].
  destruct (DeleteMin_GetKey _ _ _ Hmin) as (d & Hd & _).
  destruct (meet_in_the_middle_Ok rh node d mid ub) as (mid' & ub' & Hmeet).
  rewrite (RoutingStep_unfold facade _ _ _ _ _ _ _ _ _ _ _ Hmin Hd Hmeet)
    in Hstep.
  exists node, h1, d. split; [done|]. split; [done|].
  destruct (int_sub d offset >? ub').
  - injection Hstep as <-. by rewrite Hmeet.
  - simpl in Hstep. apply bind_inv_Ok in Hstep as (stalled & _ & Hstep).
    destruct stalled.
    + injection Hstep as <-. by rewrite Hmeet.
    + apply bind_inv_Ok in Hstep as (h2 & _ & Hstep).
      injection Hstep as <-. by rewrite Hmeet.
Qed.

Lemma advance_upper_bound st offset direction st' :
  advance facade st offset direction = Ok st' ->
  upper_bound st' < upper_bound st \/
  (upper_bound st' = upper_bound st /\
   middle_node_id st' = middle_node_id st).
Proof.
  unfold advance. destruct direction.
  - intros (node & h1 & d & _ & _ & Hmeet & _)%RoutingStep_inv.
    apply meet_in_the_middle_le in Hmeet. tauto.
  - intros (st1 & Hstep & [= <-])%bind_inv_Ok. simpl.
    apply RoutingStep_inv in Hstep as (node & h1 & d & _ & _ & Hmeet & _).
    apply meet_in_the_middle_le in Hmeet. tauto.
Qed.

Lemma query_run_upper_bound st st' :
  query_run facade st st' ->
  upper_bound st' <= upper_bound st /\
  (upper_bound st' = upper_bound st ->
   middle_node_id st' = middle_node_id st).
Proof.
  induction 1 as [st|st offset direction st1 st2 Hcall _ IH].
  - split; [lia | done].
  - apply advance_upper_bound in Hcall. destruct IH as [Hle Hsame].
    split; [lia|]. intros Heq.
    assert (upper_bound st2 = upper_bound st1) by lia.
    rewrite Hsame by done. destruct Hcall as [?|[_ ->]]; [lia | done].
Qed.

Lemma advance_caller_state direction fh rh mid ub offset st :
  RoutingStep facade fh rh mid ub offset direction = Ok st ->
  advance facade (caller_state direction fh rh mid ub) offset direction
  = Ok (caller_state direction (forward_heap st) (reverse_heap st)
          (middle_node_id st) (upper_bound st)).
Proof.
  intros Hstep. unfold advance, caller_state.
  destruct direction; simpl; rewrite Hstep; [by destruct st | done].
Qed.

(** C3 (meeting update).  A call on a queue that holds a node whose edges
    have positive weights returns, and with [node] extracted at key [d]:
    [middle_node_id] and [upper_bound] are assigned exactly when [node] was
    inserted in the opposite heap and [candidate = GetKey(node) + d]
    satisfies [0 <= candidate < upper_bound]; they then become [node] and
    [candidate], which is strictly below the previous bound.  Otherwise
    both keep their values, in particular when the candidate equals the
    bound.  The call is one step of a query, and over any sequence of calls
    the bound never grows and has strictly decreased whenever the meeting
    node changed. *)
Theorem RoutingStep_meeting_update fh rh mid ub offset direction node h1 d :
  DeleteMin fh = Ok (node, h1) ->
  GetKey h1 node = Ok d ->
  positive_weights facade node ->
  exists mid' ub' st,
    meet_in_the_middle rh node d mid ub = Ok (mid', ub') /\
    RoutingStep facade fh rh mid ub offset direction = Ok st /\
    middle_node_id st = mid' /\ upper_bound st = ub' /\
    (forall candidate, meeting_candidate rh node d ub candidate ->
                       mid' = node /\ ub' = candidate /\ ub' < ub) /\
    ((~ exists candidate, meeting_candidate rh node d ub candidate) ->
     mid' = mid /\ ub' = ub) /\
    (forall k, GetKey rh node = Ok k -> int_add k d = ub ->
               mid' = mid /\ ub' = ub) /\
    query_run facade (caller_state direction fh rh mid ub)
      (caller_state direction (forward_heap st) (reverse_heap st) mid' ub') /\
    (forall s s', query_run facade s s' ->
       upper_bound s' <= upper_bound s /\
       (upper_bound s' = upper_bound s ->
        middle_node_id s' = middle_node_id s)).
Proof.
  intros Hmin Hd Hpos.
  destruct (meet_in_the_middle_Ok rh node d mid ub) as (mid' & ub' & Hmeet).
  destruct (RoutingStep_returns facade fh rh mid ub offset direction node h1
              Hmin Hpos) as [st Hstep].
  assert (Hst : middle_node_id st = mid' /\ upper_bound st = ub').
  { pose proof (RoutingStep_inv _ _ _ _ _ _ _ Hstep)
      as (node' & h1' & d' & Hmin' & Hd' & Hmeet' & _).
    rewrite Hmin in Hmin'. injection Hmin' as <- <-.
    rewrite Hd in Hd'. injection Hd' as <-.
    rewrite Hmeet in Hmeet'. by injection Hmeet' as <- <-. }
  destruct Hst as [Hmid Hub].
  exists mid', ub', st. split; [done|]. split; [done|].
  split; [done|]. split; [done|].
  destruct (meet_in_the_middle_spec _ _ _ _ _ _ _ Hmeet) as [Hyes Hno].
  split; [|split; [|split; [|split]]].
  - intros c Hc. destruct (Hyes c Hc) as [-> ->].
    destruct Hc as (_ & _ & ?). repeat split; lia.
  - done.
  - intros k Hk Htie. apply Hno. intros (c & _ & (k' & Hk' & ->) & Hrange).
    rewrite Hk in Hk'. injection Hk' as <-. lia.
  - eapply query_call; [|apply query_done].
    rewrite <- Hmid, <- Hub. by apply advance_caller_state.
  - apply query_run_upper_bound.
Qed.

End UpperBound.

(** ** Selection of the edge of a pair *)

Section SelectionFacts.

Context {F : Type} `{DataFacade F} (facade : F).

Lemma scan_edge_cases wanted flag id0 w0 x :
  (scanned facade wanted flag x /\ weight_of facade x < w0 /\
   scan_edge facade wanted flag (id0, w0) x = (x, weight_of facade x)) \/
  ((scanned facade wanted flag x -> w0 <= weight_of facade x) /\
   scan_edge facade wanted flag (id0, w0) x = (id0, w0)).
Proof.
  unfold scan_edge, scanned, weight_of.
  destruct (GetTarget facade x =? wanted)%N eqn:Ht; simpl.
  - apply N.eqb_eq in Ht.
    destruct (Edge.distance (GetEdgeData facade x) <? w0) eqn:Hw; simpl.
    + apply Z.ltb_lt in Hw.
      destruct (flag (GetEdgeData facade x)) eqn:Hf; [left; done|].
      right. split; [|done]. intros [_ ?]. congruence.
    + apply Z.ltb_ge in Hw. right. split; [|done]. intros _. lia.
  - apply N.eqb_neq in Ht. right. split; [|done]. intros [? _]. done.
Qed.

(** A scanning loop keeps the first slot of smallest weight among the
    slots of interest that beat the weight it started from. *)
Lemma scan_fold wanted flag l id0 w0 :
  let r := foldl (scan_edge facade wanted flag) (id0, w0) l in
  ((forall x, x ∈ l -> scanned facade wanted flag x -> w0 <= weight_of facade x) /\
   r = (id0, w0)) \/
  (exists pre post,
     l = pre ++ r.1 :: post /\ scanned facade wanted flag r.1 /\
     r.2 = weight_of facade r.1 /\ r.2 < w0 /\
     (forall x, x ∈ pre -> scanned facade wanted flag x ->
                r.2 < weight_of facade x) /\
     (forall x, x ∈ post -> scanned facade wanted flag x ->
                r.2 <= weight_of facade x)).
Proof.
  revert id0 w0. induction l as [|x l IH]; intros id0 w0; cbv zeta;
    cbn [foldl].
  - left. split; [|done]. intros x Hx. by apply elem_of_nil in Hx.
  - destruct (scan_edge_cases wanted flag id0 w0 x)
      as [(Hx & Hlt & ->)|(Hx & ->)].
    + right. destruct (IH x (weight_of facade x))
        as [(Hall & Hr)|(pre & post & Hl & HP & Hw & Hlt' & Hpre & Hpost)].
      * exists [], l. rewrite Hr. simpl. repeat split; try done.
        -- apply Hx.
        -- apply Hx.
        -- intros y Hy. by apply elem_of_nil in Hy.
      * exists (x :: pre), post. repeat split; try done.
        -- simpl. by rewrite <- Hl.
        -- apply HP.
        -- apply HP.
        -- lia.
        -- intros y [->|Hy]%elem_of_cons Hs; [lia | by apply Hpre].
    + destruct (IH id0 w0)
        as [(Hall & Hr)|(pre & post & Hl & HP & Hw & Hlt' & Hpre & Hpost)].
      * left. split; [|done].
        intros y [->|Hy]%elem_of_cons Hs; [by apply Hx | by apply Hall].
      * right. exists (x :: pre), post. repeat split; try done.
        -- simpl. by rewrite <- Hl.
        -- apply HP.
        -- apply HP.
        -- intros y [->|Hy]%elem_of_cons Hs; [|by apply Hpre].
           specialize (Hx Hs). lia.
Qed.

(** A scan over the slots of [n] that started from the sentinels. *)
Lemma scan_slots wanted flag n :
  let r := foldl (scan_edge facade wanted flag) (SPECIAL_EDGEID, INT_MAX)
             (edge_range (BeginEdges facade n) (EndEdges facade n)) in
  let P := fun e => edge_of facade n e /\ scanned facade wanted flag e in
  ((~ exists e, below_INT_MAX facade P e) /\ r = (SPECIAL_EDGEID, INT_MAX)) \/
  (first_min_weight_among facade (below_INT_MAX facade P) r.1 /\
   r.2 = weight_of facade r.1).
Proof.
  cbv zeta.
  destruct (scan_fold wanted flag
              (edge_range (BeginEdges facade n) (EndEdges facade n))
              SPECIAL_EDGEID INT_MAX)
    as [(Hall & Hr)|(pre & post & Hl & HP & Hw & Hlt & Hpre & Hpost)].
  - left. split; [|done]. intros (e & (He & Hs) & Hlt).
    specialize (Hall e). rewrite elem_of_edge_range in Hall.
    specialize (Hall He Hs). lia.
  - right. split; [|done].
    set (r := foldl _ _ _) in *.
    assert (Hin : r.1 ∈ edge_range (BeginEdges facade n) (EndEdges facade n)).
    { rewrite Hl. apply elem_of_app. right. left. }
    apply elem_of_edge_range in Hin.
    destruct (edge_range_split _ _ _ _ _ Hl) as [Hbefore Hafter].
    split.
    + split; [by split | lia].
    + intros e' ((He' & Hs') & _).
      apply elem_of_edge_range in He'. rewrite Hl in He'.
      apply elem_of_app in He' as [He'|[->|He']%elem_of_cons].
      * left. rewrite <- Hw. by apply Hpre.
      * right. split; [done | lia].
      * specialize (Hpost _ He' Hs'). specialize (Hafter _ He').
        rewrite Hw in Hpost. lia.
Qed.

Lemma forward_edge_scanned a b e :
  forward_edge facade a b e <->
  edge_of facade a e /\ scanned facade b Edge.forward e.
Proof. unfold forward_edge, scanned. tauto. Qed.

Lemma backward_edge_scanned a b e :
  backward_edge facade a b e <->
  edge_of facade b e /\ scanned facade a Edge.backward e.
Proof. unfold backward_edge, scanned. tauto. Qed.

Lemma first_min_weight_among_ext (P Q : EdgeID -> Prop) e :
  (forall x, P x <-> Q x) ->
  first_min_weight_among facade (below_INT_MAX facade P) e ->
  first_min_weight_among facade (below_INT_MAX facade Q) e.
Proof.
  intros Hext [[HP Hlt] Hmin]. split.
  - split; [by apply Hext | done].
  - intros e' [HQ Hlt']. apply Hmin. split; [by apply Hext | done].
Qed.

(** The two loops together: what [smaller_edge_id] and [edge_weight] hold
    when the assertion is reached. *)
Lemma find_smaller_edge_cases a b :
  edge_ids_fit facade ->
  let r := find_smaller_edge facade (a, b) in
  (selected_by_code facade a b r.1 /\ r.2 = weight_of facade r.1 /\
   r.2 < INT_MAX) \/
  ((~ exists e, below_INT_MAX facade (forward_edge facade a b) e) /\
   (~ exists e, below_INT_MAX facade (backward_edge facade a b) e) /\
   r = (SPECIAL_EDGEID, INT_MAX)).
Proof.
  intros Hfit. unfold find_smaller_edge. cbv zeta. cbn [fst snd].
  destruct (scan_slots b Edge.forward a) as [(Hnone & Hr)|(Hmin & Hw)].
  - cbv zeta in Hr. rewrite Hr. cbn [fst snd]. rewrite N.eqb_refl.
    assert (Hnof : ~ exists e,
               below_INT_MAX facade (forward_edge facade a b) e).
    { intros (e & He & Hlt). apply Hnone. exists e.
      split; [by apply forward_edge_scanned | done]. }
    destruct (scan_slots a Edge.backward b) as [(Hnoneb & Hrb)|(Hminb & Hwb)].
    + right. split; [done|]. split; [|done].
      intros (e & He & Hlt). apply Hnoneb. exists e.
      split; [by apply backward_edge_scanned | done].
    + left. cbv zeta in Hminb, Hwb. split; [|split; [done|]].
      * right. split; [done|].
        eapply first_min_weight_among_ext; [|exact Hminb].
        intros x. symmetry. apply backward_edge_scanned.
      * rewrite Hwb. destruct Hminb as [[_ ?] _]. done.
  - cbv zeta in Hmin, Hw. left.
    set (r := foldl _ _ _) in *.
    assert (Hne : (SPECIAL_EDGEID =? r.1)%N = false).
    { apply N.eqb_neq. destruct Hmin as [[[Hedge _] _] _].
      specialize (Hfit a). unfold edge_of in Hedge. lia. }
    rewrite Hne. split; [|split; [done|]].
    + left. eapply first_min_weight_among_ext; [|exact Hmin].
      intros x. symmetry. apply forward_edge_scanned.
    + rewrite Hw. destruct Hmin as [[_ ?] _]. done.
Qed.

(** Without any forward edge [a→b] and any backward edge [b→a] both loops
    leave the sentinels in place. *)
Lemma find_smaller_edge_none a b :
  (forall e, ~ forward_edge facade a b e) ->
  (forall e, ~ backward_edge facade a b e) ->
  find_smaller_edge facade (a, b) = (SPECIAL_EDGEID, INT_MAX).
Proof.
  intros Hnof Hnob. unfold find_smaller_edge. cbv zeta. cbn [fst snd].
  destruct (scan_fold b Edge.forward
              (edge_range (BeginEdges facade a) (EndEdges facade a))
              SPECIAL_EDGEID INT_MAX)
    as [(_ & ->)|(pre & post & Hl & HP & _)].
  - cbn [fst snd]. rewrite N.eqb_refl.
    destruct (scan_fold a Edge.backward
                (edge_range (BeginEdges facade b) (EndEdges facade b))
                SPECIAL_EDGEID INT_MAX)
      as [(_ & ->)|(pre & post & Hl & HP & _)]; [done|].
    set (r := foldl _ _ _) in *.
    exfalso. apply (Hnob r.1). apply backward_edge_scanned. split; [|exact HP].
    apply elem_of_edge_range. rewrite Hl. apply elem_of_app. right. left.
  - set (r := foldl _ _ _) in *.
    exfalso. apply (Hnof r.1). apply forward_edge_scanned. split; [|exact HP].
    apply elem_of_edge_range. rewrite Hl. apply elem_of_app. right. left.
Qed.

End SelectionFacts.

(** ** The unpacking loops *)

Section UnpackFacts.

Context {F : Type} `{DataFacade F} (facade : F).

Lemma unpack_path_step_found edge stack out :
  (find_smaller_edge facade edge).2 <> INT_MAX ->
  unpack_path_step facade edge stack out =
    Ok (expand_path facade
          (GetEdgeData facade (find_smaller_edge facade edge).1)
          edge stack out).
Proof.
  unfold unpack_path_step, expand_path.
  destruct (find_smaller_edge facade edge) as [e w]. cbn [fst snd].
  intros Hw. apply Z.eqb_neq in Hw. rewrite Hw. cbn [negb].
  rewrite assert_true, bind_Ok.
  by destruct (Edge.shortcut (GetEdgeData facade e)).
Qed.

Lemma unpack_path_step_abort edge stack out :
  (find_smaller_edge facade edge).2 = INT_MAX ->
  unpack_path_step facade edge stack out =
    Err (InvariantViolation "edge id invalid").
Proof.
  unfold unpack_path_step.
  destruct (find_smaller_edge facade edge) as [e w]. cbn [fst snd].
  intros ->. reflexivity.
Qed.

Lemma unpack_edge_step_found edge stack out :
  (find_smaller_edge facade edge).2 <> INT_MAX ->
  unpack_edge_step facade edge stack out =
    Ok (expand_edge
          (GetEdgeData facade (find_smaller_edge facade edge).1)
          edge stack out).
Proof.
  unfold unpack_edge_step, expand_edge.
  destruct (find_smaller_edge facade edge) as [e w]. cbn [fst snd].
  intros Hw. apply Z.eqb_neq in Hw. rewrite Hw. cbn [negb].
  rewrite assert_true, bind_Ok.
  by destruct (Edge.shortcut (GetEdgeData facade e)).
Qed.

Lemma unpack_edge_step_abort edge stack out :
  (find_smaller_edge facade edge).2 = INT_MAX ->
  unpack_edge_step facade edge stack out =
    Err (InvariantViolation "edge weight invalid").
Proof.
  unfold unpack_edge_step.
  destruct (find_smaller_edge facade edge) as [e w]. cbn [fst snd].
  intros ->. reflexivity.
Qed.

(** A successful turn is the expansion of the selected edge. *)
Lemma unpack_path_step_Ok edge stack out r :
  unpack_path_step facade edge stack out = Ok r ->
  r = expand_path facade
        (GetEdgeData facade (find_smaller_edge facade edge).1)
        edge stack out.
Proof.
  intros Hstep.
  destruct (Z.eq_dec (find_smaller_edge facade edge).2 INT_MAX) as [Heq|Hne].
  - rewrite unpack_path_step_abort in Hstep by done. discriminate.
  - rewrite unpack_path_step_found in Hstep by done. by injection Hstep.
Qed.

(** Every record the loop appends stems from an edge that is no shortcut. *)
Lemma unpack_path_loop_output fuel stack out0 out :
  unpack_path_loop facade fuel stack out0 = Ok out ->
  exists new, out = out0 ++ new /\ Forall (from_original_edge facade) new.
Proof.
  revert stack out0. induction fuel as [|fuel IH]; intros stack out0.
  - destruct stack as [|edge stack]; simpl; [|discriminate].
    intros [= <-]. exists []. by rewrite app_nil_r.
  - destruct stack as [|edge stack]; simpl.
    + intros [= <-]. exists []. by rewrite app_nil_r.
    + intros ([stack' out'] & Hstep & Hloop)%bind_inv_Ok.
      apply unpack_path_step_Ok in Hstep. unfold expand_path in Hstep.
      apply IH in Hloop as (new & -> & Hnew).
      destruct (Edge.shortcut _) eqn:Hshort; injection Hstep as -> ->.
      * by exists new.
      * eexists (_ :: new). split; [by rewrite <- app_assoc|].
        constructor; [|done]. eexists. split; [exact Hshort | done].
Qed.

End UnpackFacts.

(** The stack that seeds the loop. *)
Lemma adjacent_pairs_lookup (packed_path : list NodeID) (j : nat) a b :
  packed_path !! j = Some a -> packed_path !! S j = Some b ->
  adjacent_pairs packed_path !! j = Some (a, b).
Proof.
  unfold adjacent_pairs. intros Ha Hb.
  apply lookup_zip_with_Some. exists a, b. split; [done|]. split; [done|].
  by rewrite lookup_tail.
Qed.

Lemma seed_stack_in_bounds (packed_path : list NodeID) (i : nat) stack :
  (i < length packed_path)%nat ->
  seed_stack packed_path i stack
    = Ok (take i (adjacent_pairs packed_path) ++ stack).
Proof.
  revert stack. induction i as [|j IH]; intros stack Hlt; simpl; [done|].
  destruct (lookup_lt_is_Some_2 packed_path j) as [a Ha]; [lia|].
  destruct (lookup_lt_is_Some_2 packed_path (S j)) as [b Hb]; [lia|].
  unfold vector_at. rewrite Ha, Hb. simpl.
  rewrite IH by lia.
  rewrite (take_S_r _ _ (a, b)) by (by apply adjacent_pairs_lookup).
  by rewrite <- app_assoc.
Qed.

Lemma seed_stack_out_of_bounds (i : nat) stack :
  (0 < i)%nat -> seed_stack [] i stack = Err OutOfBounds.
Proof. destruct i as [|j]; [lia | done]. Qed.

Lemma length_adjacent_pairs (packed_path : list NodeID) :
  length (adjacent_pairs packed_path) = Nat.pred (length packed_path).
Proof.
  unfold adjacent_pairs. destruct packed_path as [|x l]; [done|].
  rewrite length_zip_with. cbn [tail length Nat.pred]. lia.
Qed.

(** The start index of the seeding loop lies inside a non-empty path. *)
Lemma seed_index_in_bounds (n : nat) :
  (0 < n)%nat ->
  (N.to_nat (unsigned_sub (to_unsigned (Z.of_nat n)) 1) < n)%nat.
Proof.
  intros Hn. unfold unsigned_sub, to_unsigned.
  pose proof (Z.mod_pos_bound (Z.of_nat n) 4294967296 eq_refl) as Hm.
  pose proof (Z.div_mod (Z.of_nat n) 4294967296) as Hdm.
  assert (Hq : 0 <= Z.of_nat n / 4294967296) by (apply Z.div_pos; lia).
  set (m := Z.of_nat n mod 4294967296) in *.
  set (q := Z.of_nat n / 4294967296) in *.
  rewrite Z2N.id by lia.
  destruct (Z.eq_dec m 0) as [Hz|Hnz].
  - rewrite Hz.
    replace ((0 - Z.of_N 1) mod 4294967296) with 4294967295 by reflexivity.
    lia.
  - rewrite Z.mod_small by lia. lia.
Qed.

Lemma seed_index_exact (n : nat) :
  (0 < n)%nat -> (N.of_nat n <= UINT_MAX)%N ->
  N.to_nat (unsigned_sub (to_unsigned (Z.of_nat n)) 1) = Nat.pred n.
Proof.
  unfold UINT_MAX. intros Hn Hmax. unfold unsigned_sub, to_unsigned.
  rewrite (Z.mod_small (Z.of_nat n)) by lia.
  rewrite Z2N.id by lia. rewrite Z.mod_small by lia. lia.
Qed.

(** ** The claims about unpacking *)

Section UnpackClaims.

Context {F : Type} `{DataFacade F} (facade : F).

(** C5 (edge selection, as the code has it).  Edge ids being [unsigned]
    values other than [SPECIAL_EDGEID], a popped pair [(a, b)] is resolved,
    in [UnpackPath] and in [UnpackEdge] alike, to the first edge of
    smallest weight among the edges out of [a] with target [b], forward
    flag set and weight below [INT_MAX]; and only if there is no such edge,
    to the first edge of smallest weight among the edges out of [b] with
    target [a], backward flag set and weight below [INT_MAX].  With the
    parallel forward edges [0→1] of weights 8 and 5 the pair [(0, 1)] is
    resolved to the edge of weight 5. *)
Theorem find_smaller_edge_selects a b :
  edge_ids_fit facade ->
  (exists e, below_INT_MAX facade (forward_edge facade a b) e \/
             below_INT_MAX facade (backward_edge facade a b) e) ->
  selected_by_code facade a b (find_smaller_edge facade (a, b)).1 /\
  (find_smaller_edge facade (a, b)).2
    = weight_of facade (find_smaller_edge facade (a, b)).1 /\
  (forall stack out,
     unpack_path_step facade (a, b) stack out =
       Ok (expand_path facade
             (GetEdgeData facade (find_smaller_edge facade (a, b)).1)
             (a, b) stack out)) /\
  (forall stack out,
     unpack_edge_step facade (a, b) stack out =
       Ok (expand_edge
             (GetEdgeData facade (find_smaller_edge facade (a, b)).1)
             (a, b) stack out)) /\
  (find_smaller_edge parallel_graph (0, 1)%N = (1%N, 5) /\
   UnpackPath parallel_graph 1 [0; 1]%N [] =
     Ok [{| edge_payload := 11; name_index := 111;
            turn_instruction := 3; path_weight := 5 |}] /\
   UnpackEdge parallel_graph 1 0 1 [] = Ok [0; 1]%N).
Proof.
  intros Hfit Hsome.
  destruct (find_smaller_edge_cases facade a b Hfit)
    as [(Hsel & Hw & Hlt)|(Hnof & Hnob & _)].
  - split; [done|]. split; [done|]. split; [|split].
    + intros stack out. apply unpack_path_step_found. lia.
    + intros stack out. apply unpack_edge_step_found. lia.
    + by vm_compute.
  - exfalso. destruct Hsome as (e & [He|He]); eauto.
Qed.

(** C7 (no edge for a pair).  When a popped pair [(a, b)] has neither a
    forward edge [a→b] nor a backward edge [b→a], the loop of [UnpackPath]
    and the loop of [UnpackEdge] stop at that pair with the failed
    assertion, whatever is left on the stack; so do the two functions when
    the pair is the one they start from. *)
Theorem unpacking_aborts_without_edge a b :
  (forall e, ~ forward_edge facade a b e) ->
  (forall e, ~ backward_edge facade a b e) ->
  (forall fuel stack out,
     unpack_path_loop facade (S fuel) ((a, b) :: stack) out
       = Err (InvariantViolation "edge id invalid")) /\
  (forall fuel stack out,
     unpack_edge_loop facade (S fuel) ((a, b) :: stack) out
       = Err (InvariantViolation "edge weight invalid")) /\
  (forall fuel out,
     UnpackPath facade (S fuel) [a; b] out
       = Err (InvariantViolation "edge id invalid")) /\
  (forall fuel out,
     UnpackEdge facade (S fuel) a b out
       = Err (InvariantViolation "edge weight invalid")).
Proof.
  intros Hnof Hnob.
  pose proof (find_smaller_edge_none facade a b Hnof Hnob) as Hnone.
  assert (Hpath : forall fuel stack out,
             unpack_path_loop facade (S fuel) ((a, b) :: stack) out
             = Err (InvariantViolation "edge id invalid")).
  { intros fuel stack out. cbn [unpack_path_loop].
    rewrite unpack_path_step_abort; [done | by rewrite Hnone]. }
  assert (Hedge : forall fuel stack out,
             unpack_edge_loop facade (S fuel) ((a, b) :: stack) out
             = Err (InvariantViolation "edge weight invalid")).
  { intros fuel stack out. cbn [unpack_edge_loop].
    rewrite unpack_edge_step_abort; [done | by rewrite Hnone]. }
  split; [done|]. split; [done|]. split.
  - intros fuel out. unfold UnpackPath.
    change (seed_recursion_stack [a; b]) with (Ok [(a, b)]).
    rewrite bind_Ok. apply Hpath.
  - intros fuel out. unfold UnpackEdge. by rewrite Hedge.
Qed.

(** C6 (shortcuts are expanded, never emitted).  In a turn of the loop of
    [UnpackPath] on the pair [(a, b)] with selected edge [E]: if [E] is a
    shortcut the stack grows by [(a, E.id)] on top of [(E.id, b)], so that
    [(a, E.id)] is the pair of the next turn, and nothing is emitted; if
    [E] is no shortcut its record is appended.  Hence every record that
    [UnpackPath] appends was built from an edge that is no shortcut. *)
Theorem UnpackPath_expands_shortcuts :
  (forall a b stack out r,
     unpack_path_step facade (a, b) stack out = Ok r ->
     let E := GetEdgeData facade (find_smaller_edge facade (a, b)).1 in
     (Edge.shortcut E = true ->
      r = ((a, Edge.id E) :: (Edge.id E, b) :: stack, out) /\
      forall fuel,
        unpack_path_loop facade (S fuel) r.1 r.2 =
          (r' ← unpack_path_step facade (a, Edge.id E)
                  ((Edge.id E, b) :: stack) out;
           unpack_path_loop facade fuel r'.1 r'.2)) /\
     (Edge.shortcut E = false ->
      r = (stack, out ++ [path_data_of facade E]))) /\
  (forall fuel packed_path out0 out,
     UnpackPath facade fuel packed_path out0 = Ok out ->
     exists new,
       out = out0 ++ new /\ Forall (from_original_edge facade) new).
Proof.
  split.
  - intros a b stack out r Hstep. cbv zeta.
    apply unpack_path_step_Ok in Hstep. unfold expand_path in Hstep.
    cbn [fst snd] in Hstep. split; intros Hshort; rewrite Hshort in Hstep.
    + split; [done|]. intros fuel. subst r. cbn [fst snd unpack_path_loop].
      by destruct (unpack_path_step _ _ _ _) as [[??]|].
    + done.
  - intros fuel packed_path out0 out (stack & _ & Hloop)%bind_inv_Ok.
    by eapply unpack_path_loop_output.
Qed.

End UnpackClaims.

(** C9 (the seeding loop).  On a non-empty [packed_path] every index the
    seeding loop of [UnpackPath] uses is in bounds: the loop completes, and
    it leaves the pairs of neighbours on the stack when the size fits in
    [unsigned].  On the empty [packed_path] the start index
    [packed_path_size - 1] wraps around to [UINT_MAX], the loop is entered
    and indexes past the end of the vector. *)
Theorem seed_recursion_stack_bounds :
  (forall packed_path : list NodeID,
     packed_path <> [] ->
     exists stack, seed_recursion_stack packed_path = Ok stack) /\
  (forall packed_path : list NodeID,
     packed_path <> [] ->
     (N.of_nat (length packed_path) <= UINT_MAX)%N ->
     seed_recursion_stack packed_path = Ok (adjacent_pairs packed_path)) /\
  unsigned_sub (to_unsigned (Z.of_nat (length (@nil NodeID)))) 1 = UINT_MAX /\
  (0 < N.to_nat UINT_MAX)%nat /\
  seed_recursion_stack [] = Err OutOfBounds /\
  (forall (F : Type) (DF : DataFacade F) (facade : F) fuel out,
     UnpackPath facade fuel [] out = Err OutOfBounds).
Proof.
  assert (Hwrap :
    unsigned_sub (to_unsigned (Z.of_nat (length (@nil NodeID)))) 1 = UINT_MAX)
    by reflexivity.
  assert (Hpos : (0 < N.to_nat UINT_MAX)%nat) by (unfold UINT_MAX; lia).
  assert (Hempty : seed_recursion_stack [] = Err OutOfBounds).
  { unfold seed_recursion_stack. rewrite Hwrap.
    by apply seed_stack_out_of_bounds. }
  split; [|split; [|split; [done|split; [done|split; [done|]]]]].
  - intros packed_path Hne. unfold seed_recursion_stack.
    rewrite seed_stack_in_bounds; [eauto|].
    apply seed_index_in_bounds. destruct packed_path; [done | simpl; lia].
  - intros packed_path Hne Hfit. unfold seed_recursion_stack.
    assert (Hlen : (0 < length packed_path)%nat)
      by (destruct packed_path; [done | simpl; lia]).
    rewrite seed_stack_in_bounds by (by apply seed_index_in_bounds).
    rewrite seed_index_exact by done. rewrite app_nil_r.
    rewrite take_ge; [done|]. rewrite length_adjacent_pairs. lia.
  - intros F' DF facade fuel out. unfold UnpackPath. by rewrite Hempty.
Qed.

(** ** Packed paths *)

Lemma follow_parents_chain heap x l :
  parent_chain heap x l ->
  forall fuel packed_path,
    (length l < fuel)%nat ->
    follow_parents fuel heap x packed_path = Ok (packed_path ++ l).
Proof.
  induction 1 as [x d Hd Hroot|x d l Hd Hne _ IH]; intros fuel packed_path Hfuel.
  - destruct fuel as [|fuel]; [simpl in Hfuel; lia|]. simpl.
    rewrite Hd, bind_Ok, Hroot, N.eqb_refl. simpl. by rewrite app_nil_r.
  - destruct fuel as [|fuel]; [simpl in Hfuel; lia|]. simpl.
    rewrite Hd, bind_Ok.
    assert (Hneq : (x =? parent d)%N = false) by (apply N.eqb_neq; congruence).
    rewrite Hneq. simpl. rewrite IH by (simpl in Hfuel; lia).
    by rewrite <- app_assoc.
Qed.

(** The walk is determined by the heap. *)
Lemma parent_chain_functional heap x l l' :
  parent_chain heap x l -> parent_chain heap x l' -> l = l'.
Proof.
  intros Hl. revert l'.
  induction Hl as [x d Hd Hroot|x d l Hd Hne _ IH]; intros l' Hl'.
  - destruct Hl' as [x d' Hd' _|x d' l' Hd' Hne' _]; [done|].
    rewrite Hd in Hd'. injection Hd' as <-. done.
  - destruct Hl' as [x d' Hd' Hroot'|x d' l' Hd' _ Hl'].
    + rewrite Hd in Hd'. injection Hd' as <-. done.
    + rewrite Hd in Hd'. injection Hd' as <-. f_equal. by apply IH.
Qed.

(** The walk ends at a node that is its own parent. *)
Lemma parent_chain_last heap x l :
  parent_chain heap x l ->
  exists r, last (x :: l) = Some r /\ self_parent heap r.
Proof.
  induction 1 as [x d Hd Hroot|x d l Hd Hne Hl (r & Hlast & Hself)].
  - exists x. split; [done|]. exists d. by split.
  - exists r. split; [|done]. by rewrite last_cons_cons.
Qed.

Lemma head_packed_path (l l' : list NodeID) (x : NodeID) :
  head (rev l ++ [x] ++ l') = last (x :: l).
Proof.
  destruct l as [|p l _] using rev_ind; [done|].
  rewrite rev_app_distr. simpl. by rewrite app_comm_cons, last_snoc.
Qed.

Lemma last_packed_path (l l' : list NodeID) (x : NodeID) :
  last (rev l ++ [x] ++ l') = last (x :: l').
Proof.
  rewrite last_app. simpl.
  by destruct (last (x :: l')) eqn:Hlast; [|apply last_None in Hlast].
Qed.

(** C8 (packed path).  If the walks along the parents from the meeting node
    in the forward heap and in the reverse heap each end at a node that is
    its own parent, [RetrievePackedPathFromHeap], called on an empty vector
    with enough turns allowed for its loops, returns the parents of the
    forward walk reversed, then the meeting node, then the parents of the
    reverse walk: a path from the root of the forward walk through the
    meeting node to the root of the reverse walk.  (Called on a vector that
    already holds nodes, it reverses them along with the forward walk.) *)
Theorem RetrievePackedPathFromHeap_spec forward_heap reverse_heap
    middle_node_id forward_parents reverse_parents :
  parent_chain forward_heap middle_node_id forward_parents ->
  parent_chain reverse_heap middle_node_id reverse_parents ->
  (exists enough, forall fuel, (enough <= fuel)%nat ->
     RetrievePackedPathFromHeap fuel forward_heap reverse_heap
       middle_node_id []
     = Ok (packed_path_as_specified forward_parents reverse_parents
             middle_node_id) /\
     forall packed_path,
       RetrievePackedPathFromHeap fuel forward_heap reverse_heap
         middle_node_id packed_path
       = Ok (rev (packed_path ++ forward_parents) ++ [middle_node_id]
               ++ reverse_parents)) /\
  (exists source target,
     head (packed_path_as_specified forward_parents reverse_parents
             middle_node_id) = Some source /\
     last (packed_path_as_specified forward_parents reverse_parents
             middle_node_id) = Some target /\
     self_parent forward_heap source /\ self_parent reverse_heap target).
Proof.
  intros Hf Hr. split.
  - exists (S (max (length forward_parents) (length reverse_parents))).
    intros fuel Hfuel.
    assert (Hany : forall packed_path,
               RetrievePackedPathFromHeap fuel forward_heap reverse_heap
                 middle_node_id packed_path
               = Ok (rev (packed_path ++ forward_parents) ++ [middle_node_id]
                       ++ reverse_parents)).
    { intros packed_path. unfold RetrievePackedPathFromHeap.
      rewrite (follow_parents_chain _ _ _ Hf) by lia. rewrite bind_Ok.
      rewrite (follow_parents_chain _ _ _ Hr) by lia.
      by rewrite <- app_assoc. }
    split; [|exact Hany]. rewrite Hany. reflexivity.
  - destruct (parent_chain_last _ _ _ Hf) as (source & Hsource & Hfs).
    destruct (parent_chain_last _ _ _ Hr) as (target & Htarget & Hrt).
    exists source, target. unfold packed_path_as_specified.
    rewrite head_packed_path, last_packed_path. done.
Qed.

(** ** The claims on the worked examples *)

Lemma edge_ids_fit_StaticGraph (g : StaticGraph) :
  Forall (fun e => (e <= SPECIAL_EDGEID)%N) (first_edge g) ->
  edge_ids_fit g.
Proof.
  intros Hall n. simpl.
  destruct (first_edge g !! S (N.to_nat n)) as [e|] eqn:He; simpl.
  - rewrite Forall_forall in Hall. apply Hall.
    apply list_elem_of_lookup. eauto.
  - unfold SPECIAL_EDGEID, UINT_MAX. lia.
Qed.

Lemma stall_graph_positive : positive_weights stall_graph 2.
Proof.
  intros e [Hb He]. simpl in Hb, He.
  assert (e = 3%N) as -> by lia. by vm_compute.
Qed.

Lemma stall_graph_positive_0 : positive_weights stall_graph 0.
Proof.
  intros e [Hb He]. simpl in Hb, He.
  assert (e = 0%N \/ e = 1%N) as [-> | ->] by lia; by vm_compute.
Qed.

Lemma stall_graph_stalling_edge :
  stalling_edge stall_graph stall_heap_settled 10 true 2 3.
Proof.
  split; [|split; [|split]].
  - split; simpl; lia.
  - reflexivity.
  - reflexivity.
  - exists 1. split; [reflexivity | by vm_compute].
Qed.

(** The claim read as the specification words it fails on a graph with a
    forward edge of weight [INT_MAX]: the loops pass over that edge and
    settle on the backward edge. *)
Lemma selection_rule_fails_at_INT_MAX :
  ~ selection_rule_as_specified saturated_graph.
Proof.
  intros Hrule.
  assert (Hfit : edge_ids_fit saturated_graph).
  { apply edge_ids_fit_StaticGraph.
    repeat constructor; unfold SPECIAL_EDGEID, UINT_MAX; lia. }
  assert (Hfwd : forward_edge saturated_graph 0 1 0).
  { split; [split; simpl; lia | split; reflexivity]. }
  specialize (Hrule Hfit 0%N 1%N (ex_intro _ 0%N (or_introl Hfwd))).
  change (find_smaller_edge saturated_graph (0%N, 1%N)).1 with 1%N in Hrule.
  destruct Hrule as [[[[Hb He] _] _]|[Hno _]].
  - simpl in Hb, He. lia.
  - apply Hno. by exists 0%N.
Qed.

(** On that graph both unpacking functions go on with the backward edge. *)
Example saturated_graph_unpacking :
  find_smaller_edge saturated_graph (0, 1)%N = (1%N, 3) /\
  UnpackPath saturated_graph 1 [0; 1]%N [] =
    Ok [{| edge_payload := 31; name_index := 131;
           turn_instruction := 7; path_weight := 3 |}] /\
  UnpackEdge saturated_graph 1 0 1 [] = Ok [0; 1]%N.
Proof. by vm_compute. Qed.

Lemma RoutingStep_stalls_witness :
  DeleteMin stall_heap = Ok (2%N, stall_heap_settled) /\
  GetKey stall_heap_settled 2 = Ok 10 /\
  meet_in_the_middle empty_heap 2 10 99%N 1000 = Ok (99%N, 1000) /\
  ~ int_sub 10 0 > 1000 /\
  positive_weights stall_graph 2 /\
  (exists e, stalling_edge stall_graph stall_heap_settled 10 true 2 e) /\
  RoutingStep stall_graph stall_heap empty_heap 99%N 1000 0 true =
    Ok {| forward_heap := stall_heap_settled; reverse_heap := empty_heap;
          middle_node_id := 99%N; upper_bound := 1000 |} /\
  calls stall_heap_settled = calls stall_heap ++ [CallDeleteMin].
Proof.
  assert (Hmin : DeleteMin stall_heap = Ok (2%N, stall_heap_settled))
    by (vm_compute; reflexivity).
  assert (Hkey : GetKey stall_heap_settled 2 = Ok 10) by reflexivity.
  assert (Hmeet : meet_in_the_middle empty_heap 2 10 99%N 1000
                  = Ok (99%N, 1000)) by reflexivity.
  assert (Hterm : ~ int_sub 10 0 > 1000) by (vm_compute; discriminate).
  assert (Hedge : exists e,
             stalling_edge stall_graph stall_heap_settled 10 true 2 e)
    by (exists 3%N; exact stall_graph_stalling_edge).
  split; [exact Hmin|]. split; [exact Hkey|]. split; [exact Hmeet|].
  split; [exact Hterm|]. split; [exact stall_graph_positive|].
  split; [exact Hedge|].
  exact (RoutingStep_stalls stall_graph stall_heap empty_heap 99%N 1000 0 true
           2%N stall_heap_settled 10 99%N 1000
           Hmin Hkey Hmeet Hterm stall_graph_positive Hedge).
Defined.

Lemma RoutingStep_stall_frame_witness :
  DeleteMin stall_heap = Ok (2%N, stall_heap_settled) /\
  GetKey stall_heap_settled 2 = Ok 10 /\
  meet_in_the_middle empty_heap 2 10 99%N 1000 = Ok (99%N, 1000) /\
  ~ int_sub 10 0 > 1000 /\
  stall_scan stall_graph stall_heap_settled 10 true
    (edge_range (BeginEdges stall_graph 2) (EndEdges stall_graph 2))
    = Ok true /\
  exists st,
    RoutingStep stall_graph stall_heap empty_heap 99%N 1000 0 true = Ok st /\
    calls (forward_heap st) = calls stall_heap ++ [CallDeleteMin] /\
    (forall n, entry <$> slots (forward_heap st) !! n
               = entry <$> slots stall_heap !! n) /\
    (forall n, n <> 2%N ->
               slots (forward_heap st) !! n = slots stall_heap !! n) /\
    reverse_heap st = empty_heap /\
    middle_node_id st = 99%N /\ upper_bound st = 1000.
Proof.
  assert (Hmin : DeleteMin stall_heap = Ok (2%N, stall_heap_settled))
    by (vm_compute; reflexivity).
  assert (Hkey : GetKey stall_heap_settled 2 = Ok 10) by reflexivity.
  assert (Hmeet : meet_in_the_middle empty_heap 2 10 99%N 1000
                  = Ok (99%N, 1000)) by reflexivity.
  assert (Hterm : ~ int_sub 10 0 > 1000) by (vm_compute; discriminate).
  assert (Hstall : stall_scan stall_graph stall_heap_settled 10 true
            (edge_range (BeginEdges stall_graph 2) (EndEdges stall_graph 2))
          = Ok true) by (vm_compute; reflexivity).
  split; [exact Hmin|]. split; [exact Hkey|]. split; [exact Hmeet|].
  split; [exact Hterm|]. split; [exact Hstall|].
  exact (RoutingStep_stall_frame stall_graph stall_heap empty_heap 99%N 1000
           0 true 2%N stall_heap_settled 10 99%N 1000
           Hmin Hkey Hmeet Hterm Hstall).
Defined.

Lemma RoutingStep_prunes_witness :
  DeleteMin stall_heap = Ok (2%N, stall_heap_settled) /\
  GetKey stall_heap_settled 2 = Ok 10 /\
  meet_in_the_middle empty_heap 2 10 99%N 4 = Ok (99%N, 4) /\
  int_sub 10 3 > 4 /\
  RoutingStep stall_graph stall_heap empty_heap 99%N 4 3 true =
    Ok {| forward_heap := DeleteAll stall_heap_settled;
          reverse_heap := empty_heap;
          middle_node_id := 99%N; upper_bound := 4 |} /\
  calls (DeleteAll stall_heap_settled)
    = calls stall_heap ++ [CallDeleteMin; CallDeleteAll] /\
  DeleteMin (DeleteAll stall_heap_settled) = Err EmptyHeap.
Proof.
  assert (Hmin : DeleteMin stall_heap = Ok (2%N, stall_heap_settled))
    by (vm_compute; reflexivity).
  assert (Hkey : GetKey stall_heap_settled 2 = Ok 10) by reflexivity.
  assert (Hmeet : meet_in_the_middle empty_heap 2 10 99%N 4 = Ok (99%N, 4))
    by reflexivity.
  assert (Hterm : int_sub 10 3 > 4) by (vm_compute; reflexivity).
  split; [exact Hmin|]. split; [exact Hkey|]. split; [exact Hmeet|].
  split; [exact Hterm|].
  exact (RoutingStep_prunes stall_graph stall_heap empty_heap 99%N 4 3 true
           2%N stall_heap_settled 10 99%N 4 Hmin Hkey Hmeet Hterm).
Defined.

Lemma find_smaller_edge_selects_witness :
  edge_ids_fit parallel_graph /\
  below_INT_MAX parallel_graph (forward_edge parallel_graph 0 1) 0 /\
  selected_by_code parallel_graph 0 1
    (find_smaller_edge parallel_graph (0, 1)%N).1 /\
  (find_smaller_edge parallel_graph (0, 1)%N).1 = 1%N.
Proof.
  assert (Hfit : edge_ids_fit parallel_graph).
  { apply edge_ids_fit_StaticGraph.
    repeat constructor; unfold SPECIAL_EDGEID, UINT_MAX; lia. }
  assert (Hcand :
    below_INT_MAX parallel_graph (forward_edge parallel_graph 0 1) 0).
  { split; [|by vm_compute].
    split; [split; simpl; lia | split; reflexivity]. }
  split; [exact Hfit|]. split; [exact Hcand|].
  split; [|reflexivity].
  exact (proj1 (find_smaller_edge_selects parallel_graph 0%N 1%N Hfit
                  (ex_intro _ 0%N (or_introl Hcand)))).
Defined.

Lemma unpacking_aborts_without_edge_witness :
  (forall e, ~ forward_edge disconnected_graph 0 1 e) /\
  (forall e, ~ backward_edge disconnected_graph 0 1 e) /\
  UnpackPath disconnected_graph 1 [0; 1]%N []
    = Err (InvariantViolation "edge id invalid") /\
  UnpackEdge disconnected_graph 1 0 1 []
    = Err (InvariantViolation "edge weight invalid").
Proof.
  assert (Hnof : forall e, ~ forward_edge disconnected_graph 0 1 e).
  { intros e [[Hb He] _]. simpl in Hb, He. lia. }
  assert (Hnob : forall e, ~ backward_edge disconnected_graph 0 1 e).
  { intros e [[Hb He] _]. simpl in Hb, He. lia. }
  split; [exact Hnof|]. split; [exact Hnob|].
  destruct (unpacking_aborts_without_edge disconnected_graph 0%N 1%N Hnof Hnob)
    as (_ & _ & Hpath & Hedge).
  split; [exact (Hpath 0%nat []) | exact (Hedge 0%nat [])].
Defined.

Lemma UnpackPath_expands_shortcuts_witness :
  unpack_path_step shortcut_graph (0, 2)%N [] []
    = Ok ([(0, 1); (1, 2)]%N, []) /\
  UnpackPath shortcut_graph 3 [0; 2]%N [] =
    Ok [{| edge_payload := 20; name_index := 120;
           turn_instruction := 4; path_weight := 3 |};
        {| edge_payload := 21; name_index := 121;
           turn_instruction := 5; path_weight := 4 |}] /\
  exists new,
    [{| edge_payload := 20; name_index := 120;
        turn_instruction := 4; path_weight := 3 |};
     {| edge_payload := 21; name_index := 121;
        turn_instruction := 5; path_weight := 4 |}] = [] ++ new /\
    Forall (from_original_edge shortcut_graph) new.
Proof.
  assert (Hstep : unpack_path_step shortcut_graph (0, 2)%N [] []
                  = Ok ([(0, 1); (1, 2)]%N, [])) by (vm_compute; reflexivity).
  assert (Hrun : UnpackPath shortcut_graph 3 [0; 2]%N [] =
    Ok [{| edge_payload := 20; name_index := 120;
           turn_instruction := 4; path_weight := 3 |};
        {| edge_payload := 21; name_index := 121;
           turn_instruction := 5; path_weight := 4 |}])
    by (vm_compute; reflexivity).
  split; [exact Hstep|]. split; [exact Hrun|].
  exact (proj2 (UnpackPath_expands_shortcuts shortcut_graph) 3%nat [0; 2]%N
           [] _ Hrun).
Defined.

Lemma seed_recursion_stack_bounds_witness :
  [0; 1; 2]%N <> [] /\
  (N.of_nat (length [0; 1; 2]%N) <= UINT_MAX)%N /\
  seed_recursion_stack [0; 1; 2]%N = Ok [(0, 1); (1, 2)]%N /\
  seed_recursion_stack [] = Err OutOfBounds.
Proof.
  assert (Hne : [0; 1; 2]%N <> []) by discriminate.
  assert (Hfit : (N.of_nat (length [0; 1; 2]%N) <= UINT_MAX)%N)
    by (vm_compute; discriminate).
  split; [exact Hne|]. split; [exact Hfit|].
  destruct seed_recursion_stack_bounds as (_ & Hexact & _ & _ & Hempty & _).
  split; [exact (Hexact [0; 1; 2]%N Hne Hfit) | exact Hempty].
Defined.

Lemma forward_tree_chain : parent_chain forward_tree 2 [1; 0]%N.
Proof.
  apply (chain_step forward_tree 2 {| key := 5; parent := 1 |} [0%N]);
    [reflexivity | discriminate |].
  apply (chain_step forward_tree 1 {| key := 3; parent := 0 |} []);
    [reflexivity | discriminate |].
  apply (chain_root forward_tree 0 {| key := 0; parent := 0 |}); reflexivity.
Qed.

Lemma reverse_tree_chain : parent_chain reverse_tree 2 [3; 4]%N.
Proof.
  apply (chain_step reverse_tree 2 {| key := 5; parent := 3 |} [4%N]);
    [reflexivity | discriminate |].
  apply (chain_step reverse_tree 3 {| key := 3; parent := 4 |} []);
    [reflexivity | discriminate |].
  apply (chain_root reverse_tree 4 {| key := 0; parent := 4 |}); reflexivity.
Qed.

Lemma RetrievePackedPathFromHeap_spec_witness :
  parent_chain forward_tree 2 [1; 0]%N /\
  parent_chain reverse_tree 2 [3; 4]%N /\
  (exists enough, forall fuel, (enough <= fuel)%nat ->
     RetrievePackedPathFromHeap fuel forward_tree reverse_tree 2 []
     = Ok (packed_path_as_specified [1; 0]%N [3; 4]%N 2)) /\
  packed_path_as_specified [1; 0]%N [3; 4]%N 2 = [0; 1; 2; 3; 4]%N /\
  RetrievePackedPathFromHeap 3 forward_tree reverse_tree 2 []
    = Ok [0; 1; 2; 3; 4]%N.
Proof.
  split; [exact forward_tree_chain|]. split; [exact reverse_tree_chain|].
  split; [|split; reflexivity].
  destruct (RetrievePackedPathFromHeap_spec forward_tree reverse_tree 2%N
              [1; 0]%N [3; 4]%N forward_tree_chain reverse_tree_chain)
    as [(enough & Hrun) _].
  exists enough. intros fuel Hfuel. exact (proj1 (Hrun fuel Hfuel)).
Defined.

(** * Further properties *)

(** ** RoutingStep: what a call does to the heaps *)

Section RoutingStepMore.

Context {F : Type} `{DataFacade F} (facade : F).

(** The two ways a turn of the relaxation loop can end well. *)
Lemma relax_edge_cases node d direction h e h' :
  relax_edge facade node d direction h e = Ok h' ->
  h' = h \/
  (direction_flag facade direction e = true /\ 0 < weight_of facade e /\
   exists q,
     slots h' =
       <[GetTarget facade e :=
           {| entry := {| key := int_add d (weight_of facade e);
                          parent := node |};
              in_queue := q |}]> (slots h) /\
     ((slots h !! GetTarget facade e = None /\ q = true) \/
      exists s, slots h !! GetTarget facade e = Some s /\
                int_add d (weight_of facade e) < key (entry s) /\
                q = in_queue s)).
Proof.
  intros Hrelax.
  destruct (direction_flag facade direction e) eqn:Hflag.
  - destruct (Z.lt_ge_cases 0 (weight_of facade e)) as [Hpos|Hneg].
    + destruct (slots h !! GetTarget facade e) as [s|] eqn:Hs.
      * destruct (Z.lt_ge_cases (int_add d (weight_of facade e))
                    (key (entry s))) as [Hlt|Hge].
        -- rewrite (relax_edge_decrease _ _ _ _ _ _ s) in Hrelax by done.
           injection Hrelax as <-. right. split; [done|]. split; [done|].
           exists (in_queue s). split; [done|]. right. by exists s.
        -- rewrite (relax_edge_skip _ _ _ _ _ _ s) in Hrelax by done.
           injection Hrelax as <-. by left.
      * apply WasInserted_false in Hs as Hins.
        rewrite relax_edge_insert, Insert_Ok in Hrelax by done.
        injection Hrelax as <-. right. split; [done|]. split; [done|].
        exists true. split; [done|]. by left.
    + exfalso. unfold relax_edge, direction_flag, weight_of in *.
      apply Z.ltb_ge in Hneg.
      destruct direction; rewrite Hflag, Hneg in Hrelax; discriminate.
  - rewrite relax_edge_unflagged in Hrelax by done.
    injection Hrelax as <-. by left.
Qed.

(** A turn fails on the assertion only. *)
Lemma relax_edge_Err node d direction h e err :
  relax_edge facade node d direction h e = Err err ->
  err = InvariantViolation "edge_weight invalid" /\
  weight_of facade e <= 0.
Proof.
  intros Hrelax.
  destruct (Z.lt_ge_cases 0 (weight_of facade e)) as [Hpos|Hneg].
  - destruct (relax_edge_Ok facade node d direction h e) as [h' Hok];
      [done | congruence].
  - split; [|done].
    destruct (direction_flag facade direction e) eqn:Hflag.
    + unfold relax_edge, direction_flag, weight_of in *.
      apply Z.ltb_ge in Hneg.
      destruct direction; rewrite Hflag, Hneg in Hrelax;
        by injection Hrelax as <-.
    + rewrite relax_edge_unflagged in Hrelax by done. discriminate.
Qed.

Lemma relax_edges_Err node d direction edges h err :
  relax_edges facade node d direction h edges = Err err ->
  err = InvariantViolation "edge_weight invalid" /\
  exists e, e ∈ edges /\ weight_of facade e <= 0.
Proof.
  revert h. induction edges as [|x edges IH]; intros h; simpl; [discriminate|].
  destruct (relax_edge facade node d direction h x) as [h'|err'] eqn:Hx.
  - rewrite bind_Ok. intros (-> & e & He & Hw)%IH.
    split; [done|]. exists e. split; [by right | done].
  - intros [= <-]. apply relax_edge_Err in Hx as [-> Hw].
    split; [done|]. exists x. split; [left | done].
Qed.

Lemma stall_scan_Err heap d direction edges err :
  stall_scan facade heap d direction edges = Err err ->
  err = InvariantViolation "edge_weight invalid" /\
  exists e, e ∈ edges /\ weight_of facade e <= 0.
Proof.
  induction edges as [|x edges IH]; simpl; [discriminate|].
  assert (Hrest :
    stall_scan facade heap d direction edges = Err err ->
    err = InvariantViolation "edge_weight invalid" /\
    exists e, e ∈ x :: edges /\ weight_of facade e <= 0).
  { intros (-> & e & He & Hw)%IH. split; [done|].
    exists e. split; [by right | done]. }
  destruct (if negb direction then Edge.forward (GetEdgeData facade x)
            else Edge.backward (GetEdgeData facade x)); [|exact Hrest].
  destruct (0 <? Edge.distance (GetEdgeData facade x)) eqn:Hw.
  - rewrite assert_true, bind_Ok.
    destruct (WasInserted heap (GetTarget facade x)) eqn:Hins; [|exact Hrest].
    destruct (WasInserted_GetKey _ _ Hins) as [k ->]. rewrite bind_Ok.
    destruct (int_add k _ <? d); [discriminate | exact Hrest].
  - intros [= <-]. split; [done|]. exists x. split; [left|].
    apply Z.ltb_ge in Hw. exact Hw.
Qed.

(** An invariant of the turns is an invariant of the loop. *)
Lemma relax_edges_invariant (P : QueryHeap -> Prop) node d direction edges :
  (forall h e h', e ∈ edges -> P h ->
     relax_edge facade node d direction h e = Ok h' -> P h') ->
  forall h h', P h ->
    relax_edges facade node d direction h edges = Ok h' -> P h'.
Proof.
  induction edges as [|x edges IH]; intros Hturn h h' HP; simpl.
  - by intros [= <-].
  - intros (h1 & Hx & Hrest)%bind_inv_Ok.
    eapply (IH (fun h e h' He => Hturn h e h' (list_elem_of_further _ _ _ He)));
      [|exact Hrest].
    eapply Hturn; [left | exact HP | exact Hx].
Qed.

(** A call that is not pruned returns the heap of [DeleteMin] or the heap
    of the relaxation loop. *)
Lemma RoutingStep_not_pruned fh rh mid ub offset direction node h1 d
    mid' ub' st :
  DeleteMin fh = Ok (node, h1) ->
  GetKey h1 node = Ok d ->
  meet_in_the_middle rh node d mid ub = Ok (mid', ub') ->
  ~ int_sub d offset > ub' ->
  RoutingStep facade fh rh mid ub offset direction = Ok st ->
  (stall_scan facade h1 d direction
     (edge_range (BeginEdges facade node) (EndEdges facade node)) = Ok true /\
   forward_heap st = h1) \/
  (stall_scan facade h1 d direction
     (edge_range (BeginEdges facade node) (EndEdges facade node)) = Ok false /\
   relax_edges facade node d direction h1
     (edge_range (BeginEdges facade node) (EndEdges facade node))
   = Ok (forward_heap st)).
Proof.
  intros Hmin Hd Hmeet Hterm Hstep.
  rewrite (RoutingStep_unfold facade _ _ _ _ _ _ _ _ _ _ _ Hmin Hd Hmeet)
    in Hstep.
  assert (Hgt : (int_sub d offset >? ub') = false).
  { rewrite Z.gtb_ltb. apply Z.ltb_ge. lia. }
  rewrite Hgt in Hstep. simpl in Hstep.
  apply bind_inv_Ok in Hstep as (stalled & Hstall & Hstep).
  destruct stalled.
  - injection Hstep as <-. by left.
  - apply bind_inv_Ok in Hstep as (h2 & Hrelax & Hstep).
    injection Hstep as <-. by right.
Qed.

End RoutingStepMore.

Section RoutingStepExtras.

Context {F : Type} `{DataFacade F} (facade : F).

(** What the stalling loop has seen when it ends. *)
Lemma stall_scan_decides heap d direction edges b :
  stall_scan facade heap d direction edges = Ok b ->
  if b then
    exists e k, e ∈ edges /\ reverse_flag facade direction e = true /\
                WasInserted heap (GetTarget facade e) = true /\
                GetKey heap (GetTarget facade e) = Ok k /\
                int_add k (weight_of facade e) < d
  else
    forall e k, e ∈ edges -> reverse_flag facade direction e = true ->
                GetKey heap (GetTarget facade e) = Ok k ->
                d <= int_add k (weight_of facade e).
Proof.
  induction edges as [|x edges IH]; simpl.
  - intros [= <-]. intros e k He. by apply elem_of_nil in He.
  - assert (Hfx : (if negb direction
                   then Edge.forward (GetEdgeData facade x)
                   else Edge.backward (GetEdgeData facade x))
                  = reverse_flag facade direction x).
    { unfold reverse_flag. by destruct direction. }
    rewrite Hfx.
    assert (Hrest : forall Px : Prop,
      (forall k, reverse_flag facade direction x = true ->
                 GetKey heap (GetTarget facade x) = Ok k ->
                 d <= int_add k (weight_of facade x)) ->
      stall_scan facade heap d direction edges = Ok b ->
      if b then
        exists e k, e ∈ x :: edges /\ reverse_flag facade direction e = true /\
                    WasInserted heap (GetTarget facade e) = true /\
                    GetKey heap (GetTarget facade e) = Ok k /\
                    int_add k (weight_of facade e) < d
      else
        forall e k, e ∈ x :: edges -> reverse_flag facade direction e = true ->
                    GetKey heap (GetTarget facade e) = Ok k ->
                    d <= int_add k (weight_of facade e)).
    { intros _ Hx Hscan. specialize (IH Hscan). destruct b.
      - destruct IH as (e & k & He & Hrest). exists e, k.
        split; [by right | done].
      - intros e k [->|He]%elem_of_cons; [by apply Hx | by apply IH]. }
    destruct (reverse_flag facade direction x) eqn:Hrx.
    + destruct (0 <? Edge.distance (GetEdgeData facade x)); [|discriminate].
      rewrite assert_true, bind_Ok.
      destruct (WasInserted heap (GetTarget facade x)) eqn:Hins.
      * destruct (WasInserted_GetKey _ _ Hins) as [k Hk].
        rewrite Hk, bind_Ok.
        destruct (int_add k (Edge.distance (GetEdgeData facade x)) <? d)
          eqn:Hlt.
        -- intros [= <-]. exists x, k. apply Z.ltb_lt in Hlt.
           split; [left|]. done.
        -- apply Hrest; [exact True|]. intros k' _ Hk'.
           rewrite Hk in Hk'. injection Hk' as <-.
           apply Z.ltb_ge in Hlt. exact Hlt.
      * apply Hrest; [exact True|]. intros k' _ Hk'.
        apply WasInserted_false in Hins. apply GetKey_Ok in Hk' as (s & Hs & _).
        congruence.
    + apply Hrest; [exact True|]. intros k' Hflag. congruence.
Qed.

(** X1.  Whatever branch a call returns from, the opposite heap comes back
    as it was passed in, its call log included. *)
Theorem RoutingStep_opposite_heap_untouched fh rh mid ub offset direction st :
  RoutingStep facade fh rh mid ub offset direction = Ok st ->
  reverse_heap st = rh.
Proof.
  by intros (node & h1 & d & _ & _ & _ & Hrev)%RoutingStep_inv.
Qed.

(** X2.  A call fails in two ways only: on a queue without nodes, and on
    the assertion when the extracted node has an edge whose weight is not
    positive.  In particular it never breaks a precondition of the heap. *)
Theorem RoutingStep_fails_only_on fh rh mid ub offset direction err :
  RoutingStep facade fh rh mid ub offset direction = Err err ->
  (err = EmptyHeap /\
   forall n s, slots fh !! n = Some s -> in_queue s = false) \/
  (err = InvariantViolation "edge_weight invalid" /\
   exists node h1 e,
     DeleteMin fh = Ok (node, h1) /\ edge_of facade node e /\
     weight_of facade e <= 0).
Proof.
  intros Hstep.
  destruct (DeleteMin fh) as [[node h1]|err'] eqn:Hmin.
  - right.
    destruct (DeleteMin_GetKey _ _ _ Hmin) as (d & Hd & _).
    destruct (meet_in_the_middle_Ok rh node d mid ub) as (mid' & ub' & Hmeet).
    rewrite (RoutingStep_unfold facade _ _ _ _ _ _ _ _ _ _ _ Hmin Hd Hmeet)
      in Hstep.
    destruct (int_sub d offset >? ub'); [discriminate|]. simpl in Hstep.
    assert (Hbad : forall err',
      err' = InvariantViolation "edge_weight invalid" /\
      (exists e, e ∈ edge_range (BeginEdges facade node) (EndEdges facade node)
                 /\ weight_of facade e <= 0) ->
      err' = InvariantViolation "edge_weight invalid" /\
      exists node' h1' e, Ok (node, h1) = Ok (node', h1') /\
        edge_of facade node' e /\ weight_of facade e <= 0).
    { intros err' (-> & e & He & Hw). split; [done|].
      exists node, h1, e. split; [done|].
      split; [by apply elem_of_edge_range | done]. }
    destruct (stall_scan facade h1 d direction _) as [stalled|err'] eqn:Hstall.
    + rewrite bind_Ok in Hstep. destruct stalled; [discriminate|].
      destruct (relax_edges facade node d direction h1 _) as [h2|err']
        eqn:Hrelax; [discriminate|].
      injection Hstep as <-. apply Hbad. by eapply relax_edges_Err.
    + injection Hstep as <-. apply Hbad. by eapply stall_scan_Err.
  - left. unfold RoutingStep in Hstep. rewrite Hmin in Hstep.
    injection Hstep as <-. unfold DeleteMin in Hmin.
    destruct (min_queued (slots fh)) as [[n k]|] eqn:Hnone; [discriminate|].
    injection Hmin as <-. split; [done|]. by apply min_queued_None.
Qed.

(** X3.  In a call that is not pruned and returns, the extracted node is
    stalled exactly when it has a stalling edge; it is stalled or relaxed,
    never both. *)
Theorem RoutingStep_stalls_iff fh rh mid ub offset direction node h1 d
    mid' ub' st :
  DeleteMin fh = Ok (node, h1) ->
  GetKey h1 node = Ok d ->
  meet_in_the_middle rh node d mid ub = Ok (mid', ub') ->
  ~ int_sub d offset > ub' ->
  RoutingStep facade fh rh mid ub offset direction = Ok st ->
  ((exists e, stalling_edge facade h1 d direction node e) ->
   forward_heap st = h1) /\
  ((~ exists e, stalling_edge facade h1 d direction node e) ->
   relax_edges facade node d direction h1
     (edge_range (BeginEdges facade node) (EndEdges facade node))
   = Ok (forward_heap st)) /\
  ((exists e, stalling_edge facade h1 d direction node e) <->
   stall_scan facade h1 d direction
     (edge_range (BeginEdges facade node) (EndEdges facade node)) = Ok true).
Proof.
  intros Hmin Hd Hmeet Hterm Hstep.
  assert (Hyes :
    stall_scan facade h1 d direction
      (edge_range (BeginEdges facade node) (EndEdges facade node)) = Ok true ->
    exists e, stalling_edge facade h1 d direction node e).
  { intros (e & k & He & Hflag & Hins & Hk & Hlt)%stall_scan_decides.
    exists e. split; [by apply elem_of_edge_range|].
    split; [done|]. split; [done|]. by exists k. }
  assert (Hno :
    stall_scan facade h1 d direction
      (edge_range (BeginEdges facade node) (EndEdges facade node)) = Ok false ->
    ~ exists e, stalling_edge facade h1 d direction node e).
  { intros Hscan (e & He & Hflag & _ & k & Hk & Hlt).
    pose proof (stall_scan_decides _ _ _ _ _ Hscan) as Hall. simpl in Hall.
    apply elem_of_edge_range in He. specialize (Hall e k He Hflag Hk). lia. }
  destruct (RoutingStep_not_pruned facade _ _ _ _ _ _ _ _ _ _ _ _
              Hmin Hd Hmeet Hterm Hstep) as [[Hscan Hst]|[Hscan Hst]].
  - split; [done|]. split; [|split; [done | exact Hyes]].
    intros Hnone. exfalso. apply Hnone. by apply Hyes.
  - split; [|split; [done|split]].
    + intros Hsome. exfalso. by apply Hno.
    + intros Hsome. exfalso. by apply Hno.
    + intros Htrue. congruence.
Qed.

End RoutingStepExtras.

(** ** RoutingStep: keys and parents *)

Section RoutingStepKeys.

Context {F : Type} `{DataFacade F} (facade : F).

Lemma keys_not_raised_refl h : keys_not_raised h h.
Proof. intros n s Hs. exists s. split; [done|]. split; [lia | done]. Qed.

Lemma keys_not_raised_trans h1 h2 h3 :
  keys_not_raised h1 h2 -> keys_not_raised h2 h3 -> keys_not_raised h1 h3.
Proof.
  intros H12 H23 n s Hs.
  destruct (H12 n s Hs) as (s2 & Hs2 & Hk2 & Hq2).
  destruct (H23 n s2 Hs2) as (s3 & Hs3 & Hk3 & Hq3).
  exists s3. split; [done|]. split; [lia | congruence].
Qed.

Lemma relax_edge_keys_not_raised node d direction h e h' :
  relax_edge facade node d direction h e = Ok h' -> keys_not_raised h h'.
Proof.
  intros [->|(_ & _ & q & Hslots & Hcase)]%relax_edge_cases;
    [apply keys_not_raised_refl|].
  intros n s Hs. rewrite Hslots.
  destruct (decide (GetTarget facade e = n)) as [<-|Hne].
  - rewrite lookup_insert_eq.
    destruct Hcase as [[Hnone _]|(s0 & Hs0 & Hlt & ->)]; [congruence|].
    rewrite Hs in Hs0. injection Hs0 as <-.
    eexists. split; [done|]. simpl. split; [lia | done].
  - rewrite lookup_insert_ne by done. exists s.
    split; [done|]. split; [lia | done].
Qed.

Lemma relax_edges_keys_not_raised node d direction edges h h' :
  relax_edges facade node d direction h edges = Ok h' -> keys_not_raised h h'.
Proof.
  apply (relax_edges_invariant facade (keys_not_raised h));
    [|apply keys_not_raised_refl].
  intros h1 e h2 _ Hh1 Hturn. eapply keys_not_raised_trans; [exact Hh1|].
  by eapply relax_edge_keys_not_raised.
Qed.

(** X4.  A call that is not pruned loses no node and raises no key: every
    node that was inserted before the call is inserted after it with a key
    that is not larger; the extracted node has left the queue and every
    other node is queued exactly if it was. *)
Theorem RoutingStep_keys_not_raised fh rh mid ub offset direction node h1 d
    mid' ub' st :
  DeleteMin fh = Ok (node, h1) ->
  GetKey h1 node = Ok d ->
  meet_in_the_middle rh node d mid ub = Ok (mid', ub') ->
  ~ int_sub d offset > ub' ->
  RoutingStep facade fh rh mid ub offset direction = Ok st ->
  forall n s, slots fh !! n = Some s ->
    exists s', slots (forward_heap st) !! n = Some s' /\
               key (entry s') <= key (entry s) /\
               (n = node -> in_queue s' = false) /\
               (n <> node -> in_queue s' = in_queue s).
Proof.
  intros Hmin Hd Hmeet Hterm Hstep n s Hs.
  assert (Hkeep : keys_not_raised h1 (forward_heap st)).
  { destruct (RoutingStep_not_pruned facade _ _ _ _ _ _ _ _ _ _ _ _
                Hmin Hd Hmeet Hterm Hstep) as [[_ ->]|[_ Hrelax]].
    - apply keys_not_raised_refl.
    - by eapply relax_edges_keys_not_raised. }
  apply DeleteMin_Ok in Hmin as (s0 & Hs0 & _ & _ & ->).
  destruct (decide (n = node)) as [->|Hne].
  - rewrite Hs in Hs0. injection Hs0 as <-.
    destruct (Hkeep node (settle s)) as (s' & Hs' & Hk & Hq).
    { simpl. by rewrite lookup_insert_eq. }
    exists s'. split; [done|]. split; [done|]. split; [by intros _ | done].
  - destruct (Hkeep n s) as (s' & Hs' & Hk & Hq).
    { simpl. by rewrite lookup_insert_ne. }
    exists s'. split; [done|]. split; [done|]. split; [done | by intros _].
Qed.

(** X5.  Whatever a call that is not pruned changes in the heap after
    [DeleteMin] is a relaxation over an edge of the extracted node: a slot
    that differs has the extracted node as parent and, as key, the key of
    the extracted node plus the weight of a flagged edge from that node to
    the slot's node. *)
Theorem RoutingStep_changes_by_relaxation fh rh mid ub offset direction node
    h1 d mid' ub' st :
  DeleteMin fh = Ok (node, h1) ->
  GetKey h1 node = Ok d ->
  meet_in_the_middle rh node d mid ub = Ok (mid', ub') ->
  ~ int_sub d offset > ub' ->
  RoutingStep facade fh rh mid ub offset direction = Ok st ->
  forall n s', slots (forward_heap st) !! n = Some s' ->
    slots h1 !! n = Some s' \/
    (parent (entry s') = node /\
     exists e, edge_of facade node e /\
               direction_flag facade direction e = true /\
               GetTarget facade e = n /\
               key (entry s') = int_add d (weight_of facade e)).
Proof.
  intros Hmin Hd Hmeet Hterm Hstep.
  destruct (RoutingStep_not_pruned facade _ _ _ _ _ _ _ _ _ _ _ _
              Hmin Hd Hmeet Hterm Hstep) as [[_ ->]|[_ Hrelax]];
    [by left|].
  revert Hrelax.
  apply (relax_edges_invariant facade
           (fun h => forall n s', slots h !! n = Some s' ->
              slots h1 !! n = Some s' \/
              (parent (entry s') = node /\
               exists e, edge_of facade node e /\
                         direction_flag facade direction e = true /\
                         GetTarget facade e = n /\
                         key (entry s') = int_add d (weight_of facade e))));
    [|by left].
  intros h e h' He Hh [->|(Hflag & _ & q & Hslots & _)]%relax_edge_cases;
    [done|].
  intros n s'. rewrite Hslots.
  destruct (decide (GetTarget facade e = n)) as [<-|Hne].
  - rewrite lookup_insert_eq. intros [= <-]. right. split; [done|].
    exists e. split; [by apply elem_of_edge_range | done].
  - rewrite lookup_insert_ne by done. apply Hh.
Qed.

(** X6.  After a call that relaxed the extracted node, every flagged edge
    of that node is relaxed: its target is inserted with a key that is at
    most the key of the extracted node plus the weight of the edge. *)
Theorem RoutingStep_relaxes_all_edges fh rh mid ub offset direction node
    h1 d mid' ub' st :
  DeleteMin fh = Ok (node, h1) ->
  GetKey h1 node = Ok d ->
  meet_in_the_middle rh node d mid ub = Ok (mid', ub') ->
  ~ int_sub d offset > ub' ->
  RoutingStep facade fh rh mid ub offset direction = Ok st ->
  (~ exists e, stalling_edge facade h1 d direction node e) ->
  forall e, edge_of facade node e ->
    direction_flag facade direction e = true ->
    exists s, slots (forward_heap st) !! GetTarget facade e = Some s /\
              key (entry s) <= int_add d (weight_of facade e).
Proof.
  intros Hmin Hd Hmeet Hterm Hstep Hnostall e He Hflag.
  destruct (RoutingStep_not_pruned facade _ _ _ _ _ _ _ _ _ _ _ _
              Hmin Hd Hmeet Hterm Hstep) as [[Hscan _]|[_ Hrelax]].
  - exfalso. apply Hnostall.
    apply stall_scan_decides in Hscan
      as (x & k & Hx & Hxflag & Hins & Hk & Hlt).
    exists x. split; [by apply elem_of_edge_range|].
    split; [done|]. split; [done|]. by exists k.
  - apply elem_of_edge_range in He.
    apply list_elem_of_split in He as (pre & post & Hsplit).
    rewrite Hsplit, relax_edges_app in Hrelax.
    apply bind_inv_Ok in Hrelax as (before & _ & Hrelax). simpl in Hrelax.
    apply bind_inv_Ok in Hrelax as (after & Hturn & Hpost).
    assert (Hafter : exists s, slots after !! GetTarget facade e = Some s /\
                       key (entry s) <= int_add d (weight_of facade e)).
    { destruct (Z.lt_ge_cases 0 (weight_of facade e)) as [Hpos|Hneg].
      - destruct (slots before !! GetTarget facade e) as [s|] eqn:Hs.
        + destruct (Z.lt_ge_cases (int_add d (weight_of facade e))
                      (key (entry s))) as [Hlt|Hge].
          * rewrite (relax_edge_decrease _ _ _ _ _ _ s) in Hturn by done.
            injection Hturn as <-. eexists. simpl.
            rewrite lookup_insert_eq. split; [done|]. simpl. lia.
          * rewrite (relax_edge_skip _ _ _ _ _ _ s) in Hturn by done.
            injection Hturn as <-. by exists s.
        + apply WasInserted_false in Hs as Hins.
          rewrite relax_edge_insert, Insert_Ok in Hturn by done.
          injection Hturn as <-. eexists. simpl.
          rewrite lookup_insert_eq. split; [done|]. simpl. lia.
      - exfalso. unfold relax_edge, direction_flag, weight_of in *.
        apply Z.ltb_ge in Hneg.
        destruct direction; rewrite Hflag, Hneg in Hturn; discriminate. }
    destruct Hafter as (s & Hs & Hle).
    destruct (relax_edges_keys_not_raised _ _ _ _ _ _ Hpost _ _ Hs)
      as (s' & Hs' & Hk & _).
    exists s'. split; [done | lia].
Qed.

End RoutingStepKeys.

Section RoutingStepOrder.

Context {F : Type} `{DataFacade F} (facade : F).

(** X7.  Keys leave the queue in non-decreasing order.  If the sums formed
    by the relaxation loop do not overflow, then after a call that is not
    pruned every node still in the queue has a key that is not below the
    key of the node just extracted, and so has the node that the next
    [DeleteMin] extracts. *)
Theorem RoutingStep_queue_not_below fh rh mid ub offset direction node h1 d
    mid' ub' st :
  DeleteMin fh = Ok (node, h1) ->
  GetKey h1 node = Ok d ->
  meet_in_the_middle rh node d mid ub = Ok (mid', ub') ->
  ~ int_sub d offset > ub' ->
  RoutingStep facade fh rh mid ub offset direction = Ok st ->
  no_overflow facade node d direction ->
  (forall n s, slots (forward_heap st) !! n = Some s ->
               in_queue s = true -> d <= key (entry s)) /\
  (forall n' h' k, DeleteMin (forward_heap st) = Ok (n', h') ->
                   GetKey h' n' = Ok k -> d <= k).
Proof.
  intros Hmin Hd Hmeet Hterm Hstep Hfit.
  assert (Hqueue : forall n s, slots (forward_heap st) !! n = Some s ->
                     in_queue s = true -> d <= key (entry s)).
  { assert (Hh1 : forall n s, slots h1 !! n = Some s ->
                    in_queue s = true -> d <= key (entry s)).
    { pose proof Hmin as (s0 & Hs0 & _ & Hleast & ->)%DeleteMin_Ok.
      apply GetKey_Ok in Hd as (s1 & Hs1 & <-). simpl in Hs1.
      rewrite lookup_insert_eq in Hs1. injection Hs1 as <-.
      intros n s. simpl. destruct (decide (node = n)) as [<-|Hne].
      - rewrite lookup_insert_eq. intros [= <-]. discriminate.
      - rewrite lookup_insert_ne by done. intros Hs Hq. simpl. eauto. }
    destruct (RoutingStep_not_pruned facade _ _ _ _ _ _ _ _ _ _ _ _
                Hmin Hd Hmeet Hterm Hstep) as [[_ ->]|[_ Hrelax]]; [done|].
    revert Hrelax.
    apply (relax_edges_invariant facade
             (fun h => forall n s, slots h !! n = Some s ->
                         in_queue s = true -> d <= key (entry s))); [|done].
    intros h e h' He Hh [->|(Hflag & Hpos & q & Hslots & _)]%relax_edge_cases;
      [done|].
    intros n s. rewrite Hslots.
    destruct (decide (GetTarget facade e = n)) as [<-|Hne].
    - rewrite lookup_insert_eq. intros [= <-] _. simpl.
      apply elem_of_edge_range in He.
      rewrite int_add_exact by (by apply Hfit). lia.
    - rewrite lookup_insert_ne by done. apply Hh. }
  split; [exact Hqueue|].
  intros n' h' k (s & Hs & Hq & _ & ->)%DeleteMin_Ok Hk.
  apply GetKey_Ok in Hk as (s' & Hs' & <-). simpl in Hs'.
  rewrite lookup_insert_eq in Hs'. injection Hs' as <-. simpl. eauto.
Qed.

Lemma DeleteMin_parents_have_smaller_keys h n h' :
  DeleteMin h = Ok (n, h') ->
  parents_have_smaller_keys h -> parents_have_smaller_keys h'.
Proof.
  intros Hmin Hord m s Hs.
  pose proof (DeleteMin_entries _ _ _ m Hmin) as Hm. rewrite Hs in Hm.
  destruct (slots h !! m) as [s0|] eqn:Hs0; [|discriminate].
  simpl in Hm. injection Hm as Hm. rewrite Hm.
  destruct (Hord m s0 Hs0) as [Hroot|(sp & Hsp & Hlt)]; [by left|].
  right.
  pose proof (DeleteMin_entries _ _ _ (parent (entry s0)) Hmin) as Hp.
  rewrite Hsp in Hp.
  destruct (slots h' !! parent (entry s0)) as [sp'|]; [|discriminate].
  simpl in Hp. injection Hp as Hp. exists sp'. split; [done|].
  by rewrite Hp.
Qed.

(** X8.  The order of keys along parents is kept by every call.  If every
    inserted node is its own parent or has an inserted parent of strictly
    smaller key, and the sums formed by the relaxation loop do not overflow,
    the same holds of the heap the call returns. *)
Theorem RoutingStep_keeps_parent_order fh rh mid ub offset direction node
    h1 d st :
  DeleteMin fh = Ok (node, h1) ->
  GetKey h1 node = Ok d ->
  no_overflow facade node d direction ->
  parents_have_smaller_keys fh ->
  RoutingStep facade fh rh mid ub offset direction = Ok st ->
  parents_have_smaller_keys (forward_heap st).
Proof.
  intros Hmin Hd Hfit Hord Hstep.
  destruct (meet_in_the_middle_Ok rh node d mid ub) as (mid' & ub' & Hmeet).
  destruct (Z_gt_dec (int_sub d offset) ub') as [Hgt|Hterm].
  { rewrite (RoutingStep_unfold facade _ _ _ _ _ _ _ _ _ _ _ Hmin Hd Hmeet)
      in Hstep.
    assert (Hb : (int_sub d offset >? ub') = true).
    { rewrite Z.gtb_ltb. apply Z.ltb_lt. lia. }
    rewrite Hb in Hstep. injection Hstep as <-. intros n s. simpl.
    by rewrite lookup_empty. }
  pose proof (DeleteMin_parents_have_smaller_keys _ _ _ Hmin Hord) as Hh1.
  destruct (RoutingStep_not_pruned facade _ _ _ _ _ _ _ _ _ _ _ _
              Hmin Hd Hmeet Hterm Hstep) as [[_ ->]|[_ Hrelax]]; [done|].
  assert (Hboth : parents_have_smaller_keys (forward_heap st) /\
                  exists s, slots (forward_heap st) !! node = Some s /\
                            key (entry s) = d).
  { revert Hrelax.
    apply (relax_edges_invariant facade
             (fun h => parents_have_smaller_keys h /\
                       exists s, slots h !! node = Some s /\
                                 key (entry s) = d)).
    - intros h e h' He [Hh (sn & Hsn & Hkn)]
        [->|(Hflag & Hpos & q & Hslots & Hcase)]%relax_edge_cases;
        [by eauto|].
      apply elem_of_edge_range in He.
      assert (Hsum : int_add d (weight_of facade e) = d + weight_of facade e)
        by (apply int_add_exact; by apply Hfit).
      assert (Hne : GetTarget facade e <> node).
      { intros Heq. rewrite Heq in Hcase.
        destruct Hcase as [[Hnone _]|(s0 & Hs0 & Hlt & _)]; [congruence|].
        rewrite Hsn in Hs0. injection Hs0 as <-. lia. }
      split.
      + intros n s. rewrite Hslots.
        destruct (decide (GetTarget facade e = n)) as [<-|Hnv].
        * rewrite lookup_insert_eq. intros [= <-]. right. simpl.
          exists sn. rewrite lookup_insert_ne by done.
          split; [done | lia].
        * rewrite lookup_insert_ne by done. intros Hs.
          destruct (Hh n s Hs) as [Hroot|(sp & Hsp & Hlt)]; [by left|].
          right.
          destruct (decide (GetTarget facade e = parent (entry s)))
            as [Heq|Hnp].
          -- rewrite <- Heq, lookup_insert_eq. eexists. split; [done|].
             simpl. rewrite <- Heq in Hsp.
             destruct Hcase as [[Hnone _]|(s0 & Hs0 & Hlt0 & _)];
               [congruence|].
             rewrite Hsp in Hs0. injection Hs0 as <-. lia.
          -- rewrite lookup_insert_ne by done. by exists sp.
      + exists sn. rewrite Hslots, lookup_insert_ne by done. done.
    - split; [done|]. by apply GetKey_Ok in Hd. }
  apply Hboth.
Qed.

End RoutingStepOrder.

Section RoutingStepMeeting.

Context {F : Type} `{DataFacade F} (facade : F).

(** X18.  A call that assigns the meeting node and is not pruned returns
    heaps that both hold this node: it is the node just extracted, settled
    in the heap that was advanced and inserted in the opposite heap, so
    that both parent walks of the path retrieval can start from it. *)
Theorem RoutingStep_meeting_node_inserted fh rh mid ub offset direction node
    h1 d mid' ub' st candidate :
  DeleteMin fh = Ok (node, h1) ->
  GetKey h1 node = Ok d ->
  meet_in_the_middle rh node d mid ub = Ok (mid', ub') ->
  ~ int_sub d offset > ub' ->
  RoutingStep facade fh rh mid ub offset direction = Ok st ->
  meeting_candidate rh node d ub candidate ->
  middle_node_id st = node /\
  upper_bound st = candidate /\
  WasInserted (reverse_heap st) (middle_node_id st) = true /\
  exists s, slots (forward_heap st) !! middle_node_id st = Some s /\
            in_queue s = false.
Proof.
  intros Hmin Hd Hmeet Hterm Hstep Hcand.
  pose proof (RoutingStep_inv facade _ _ _ _ _ _ _ Hstep)
    as (node' & h1' & d' & Hmin' & Hd' & Hmeet' & Hrev).
  rewrite Hmin in Hmin'. injection Hmin' as <- <-.
  rewrite Hd in Hd'. injection Hd' as <-.
  destruct (meet_in_the_middle_spec _ _ _ _ _ _ _ Hmeet') as [Hyes _].
  destruct (Hyes _ Hcand) as [Hmid Hub].
  split; [done|]. split; [done|]. rewrite Hmid, Hrev.
  split; [by destruct Hcand|].
  assert (Hkeep : keys_not_raised h1 (forward_heap st)).
  { destruct (RoutingStep_not_pruned facade _ _ _ _ _ _ _ _ _ _ _ _
                Hmin Hd Hmeet Hterm Hstep) as [[_ ->]|[_ Hrelax]].
    - apply keys_not_raised_refl.
    - by eapply relax_edges_keys_not_raised. }
  apply DeleteMin_Ok in Hmin as (s0 & Hs0 & _ & _ & ->).
  destruct (Hkeep node (settle s0)) as (s' & Hs' & _ & Hq).
  { simpl. by rewrite lookup_insert_eq. }
  by exists s'.
Qed.

End RoutingStepMeeting.

(** ** The relaxation loop visits every slot of the node *)

Section RelaxationClaim.

Context {F : Type} `{DataFacade F} (facade : F).

(** After its turn the target of a flagged edge is inserted with a key that
    is at most the relaxed distance. *)
Lemma relax_edge_relaxed node d direction before e after :
  direction_flag facade direction e = true ->
  relax_edge facade node d direction before e = Ok after ->
  exists s, slots after !! GetTarget facade e = Some s /\
            key (entry s) <= int_add d (weight_of facade e).
Proof.
  intros Hflag Hturn.
  destruct (Z.lt_ge_cases 0 (weight_of facade e)) as [Hpos|Hneg].
  - destruct (slots before !! GetTarget facade e) as [s|] eqn:Hs.
    + destruct (Z.lt_ge_cases (int_add d (weight_of facade e))
                  (key (entry s))) as [Hlt|Hge].
      * rewrite (relax_edge_decrease _ _ _ _ _ _ s) in Hturn by done.
        injection Hturn as <-. eexists. simpl.
        rewrite lookup_insert_eq. split; [done|]. simpl. lia.
      * rewrite (relax_edge_skip _ _ _ _ _ _ s) in Hturn by done.
        injection Hturn as <-. by exists s.
    + apply WasInserted_false in Hs as Hins.
      rewrite relax_edge_insert, Insert_Ok in Hturn by done.
      injection Hturn as <-. eexists. simpl.
      rewrite lookup_insert_eq. split; [done|]. simpl. lia.
  - exfalso. unfold relax_edge, direction_flag, weight_of in *.
    apply Z.ltb_ge in Hneg.
    destruct direction; rewrite Hflag, Hneg in Hturn; discriminate.
Qed.

(** C2 (relaxation).  A call that reaches the relaxation loop (not pruned,
    no stalling edge) on a node whose edges have positive weights returns,
    and every edge slot [e] of the node, [BeginEdges <= e < EndEdges], whose
    current-direction flag is set has its turn: with [before] the heap left
    by the turns of the slots below [e] and [after] the heap left by the
    turn of [e], and with [v_distance = distance + weight], a target [v]
    that was never inserted in [before] is inserted with key [v_distance]
    and parent [node]; an inserted [v] with [v_distance] below its key gets
    parent [node] and key [v_distance]; otherwise the heap is left as it
    is; no other slot of the heap changes in the turn.  The heap the call
    returns is the one left by the turns of the slots above [e], in which
    [v] is inserted with a key of at most [v_distance]. *)
Theorem RoutingStep_relaxes fh rh mid ub offset direction node h1 d
    mid' ub' :
  DeleteMin fh = Ok (node, h1) ->
  GetKey h1 node = Ok d ->
  meet_in_the_middle rh node d mid ub = Ok (mid', ub') ->
  ~ int_sub d offset > ub' ->
  (~ exists e, stalling_edge facade h1 d direction node e) ->
  positive_weights facade node ->
  exists final,
    RoutingStep facade fh rh mid ub offset direction =
      Ok {| forward_heap := final; reverse_heap := rh;
            middle_node_id := mid'; upper_bound := ub' |} /\
    forall e,
      edge_of facade node e ->
      direction_flag facade direction e = true ->
      exists pre post before after,
        (forall x, x ∈ pre <-> (BeginEdges facade node <= x < e)%N) /\
        (forall x, x ∈ post <-> (e < x < EndEdges facade node)%N) /\
        relax_edges facade node d direction h1 pre = Ok before /\
        relax_edge facade node d direction before e = Ok after /\
        relax_edges facade node d direction after post = Ok final /\
        relaxation_outcome facade node d before e after /\
        keys_not_raised after final /\
        exists s, slots final !! GetTarget facade e = Some s /\
                  key (entry s) <= int_add d (weight_of facade e).
Proof.
  intros Hmin Hd Hmeet Hterm Hnostall Hpos.
  set (edges := edge_range (BeginEdges facade node) (EndEdges facade node)).
  assert (Hin : forall e, e ∈ edges -> 0 < weight_of facade e).
  { intros e He. apply Hpos. by apply elem_of_edge_range. }
  assert (Hstall : stall_scan facade h1 d direction edges = Ok false).
  { destruct (stall_scan_Ok facade h1 d direction edges) as [b Hb];
      [by auto|].
    destruct b; [|done]. exfalso. apply Hnostall.
    apply stall_scan_decides in Hb as (x & k & Hx & Hflag & Hins & Hk & Hlt).
    exists x. split; [by apply elem_of_edge_range|].
    split; [done|]. split; [done|]. by exists k. }
  destruct (relax_edges_Ok facade node d direction h1 edges) as [final Hfinal];
    [by auto|].
  exists final. split.
  - rewrite (RoutingStep_unfold facade _ _ _ _ _ _ _ _ _ _ _ Hmin Hd Hmeet).
    assert (Hgt : (int_sub d offset >? ub') = false).
    { rewrite Z.gtb_ltb. apply Z.ltb_ge. lia. }
    rewrite Hgt. simpl. fold edges. rewrite Hstall, bind_Ok.
    by rewrite Hfinal.
  - intros e He Hflag.
    assert (Hmem : e ∈ edges) by (by apply elem_of_edge_range).
    destruct (list_elem_of_split _ _ Hmem) as (pre & post & Hsplit).
    destruct (edge_range_split _ _ _ _ _ Hsplit) as [Hbelow Habove].
    assert (Hrange : forall x, x ∈ edges <->
              (BeginEdges facade node <= x < EndEdges facade node)%N)
      by (intros x; apply elem_of_edge_range).
    destruct He as [Hb He].
    rewrite Hsplit in Hfinal. rewrite relax_edges_app in Hfinal.
    apply bind_inv_Ok in Hfinal as (before & Hpre & Hfinal).
    simpl in Hfinal.
    apply bind_inv_Ok in Hfinal as (after & Hturn & Hpost).
    exists pre, post, before, after.
    split; [|split; [|split; [done|split; [done|split; [done|]]]]].
    + intros x. split.
      * intros Hx. pose proof (Hbelow x Hx).
        assert (Hxe : x ∈ edges)
          by (rewrite Hsplit; apply elem_of_app; by left).
        apply Hrange in Hxe. lia.
      * intros Hx.
        assert (Hxe : x ∈ edges) by (apply Hrange; lia).
        rewrite Hsplit in Hxe.
        apply elem_of_app in Hxe as [Hxe|[->|Hxe]%elem_of_cons];
          [done | lia | pose proof (Habove x Hxe); lia].
    + intros x. split.
      * intros Hx. pose proof (Habove x Hx).
        assert (Hxe : x ∈ edges)
          by (rewrite Hsplit; apply elem_of_app; right; by right).
        apply Hrange in Hxe. lia.
      * intros Hx.
        assert (Hxe : x ∈ edges) by (apply Hrange; lia).
        rewrite Hsplit in Hxe.
        apply elem_of_app in Hxe as [Hxe|[->|Hxe]%elem_of_cons];
          [pose proof (Hbelow x Hxe); lia | lia | done].
    + split; [|split].
      * eapply relax_edge_outcome; [done | by apply Hin | done].
      * by eapply relax_edges_keys_not_raised.
      * destruct (relax_edge_relaxed _ _ _ _ _ _ Hflag Hturn)
          as (s & Hs & Hle).
        destruct (relax_edges_keys_not_raised _ _ _ _ _ _ _ Hpost _ _ Hs)
          as (s' & Hs' & Hk & _).
        exists s'. split; [done | lia].
Qed.

End RelaxationClaim.

(** ** Packed paths: when the walks end *)

(** A walk that returns has followed a chain of parents up to a root. *)
Lemma follow_parents_Ok fuel heap x packed_path r :
  follow_parents fuel heap x packed_path = Ok r ->
  exists l, parent_chain heap x l /\ r = packed_path ++ l.
Proof.
  revert x packed_path. induction fuel as [|fuel IH]; intros x packed_path;
    simpl; [discriminate|].
  intros (d & Hd & Hwalk)%bind_inv_Ok.
  destruct (x =? parent d)%N eqn:Heq; simpl in Hwalk.
  - apply N.eqb_eq in Heq. injection Hwalk as <-. exists [].
    split; [by eapply chain_root | by rewrite app_nil_r].
  - apply N.eqb_neq in Heq. apply IH in Hwalk as (l & Hl & ->).
    exists (parent d :: l). split; [|by rewrite <- app_assoc].
    eapply chain_step; [exact Hd | congruence | exact Hl].
Qed.

(** What is already in the vector has no influence on the walk. *)
Lemma follow_parents_acc fuel heap x packed_path :
  follow_parents fuel heap x packed_path =
    (l ← follow_parents fuel heap x []; Ok (packed_path ++ l)).
Proof.
  revert x packed_path. induction fuel as [|fuel IH]; intros x packed_path;
    simpl; [done|].
  destruct (GetData heap x) as [d|err]; [|done]. rewrite !bind_Ok.
  destruct (x =? parent d)%N; simpl.
  - by rewrite app_nil_r.
  - rewrite (IH (parent d) (packed_path ++ [parent d])).
    rewrite (IH (parent d) [parent d]).
    destruct (follow_parents fuel heap (parent d) []) as [l|err]; [|done].
    rewrite !bind_Ok. by rewrite <- app_assoc.
Qed.

Lemma keys_bounded_below (m : gmap N HeapSlot) :
  exists b, forall n s, m !! n = Some s -> b <= key (entry s).
Proof.
  induction m as [|i x m Hi [b Hb]] using map_ind.
  - exists 0. intros n s. by rewrite lookup_empty.
  - exists (Z.min b (key (entry x))). intros n s.
    destruct (decide (i = n)) as [<-|Hne].
    + rewrite lookup_insert_eq. intros [= <-]. lia.
    + rewrite lookup_insert_ne by done. intros Hs. specialize (Hb n s Hs). lia.
Qed.

(** Under the order of keys along parents every walk ends: keys strictly
    decrease along it and the heap holds finitely many nodes. *)
Lemma parent_chain_exists heap x :
  parents_have_smaller_keys heap ->
  WasInserted heap x = true ->
  exists l, parent_chain heap x l.
Proof.
  intros Hord Hins.
  destruct (keys_bounded_below (slots heap)) as [b Hb].
  apply WasInserted_true in Hins as [s Hs].
  assert (Hgen : forall (k : nat) y sy,
             slots heap !! y = Some sy ->
             (Z.to_nat (key (entry sy) - b) < k)%nat ->
             exists l, parent_chain heap y l).
  { induction k as [|k IH]; intros y sy Hsy Hk; [lia|].
    pose proof (GetData_lookup _ _ _ Hsy) as Hd.
    destruct (decide (parent (entry sy) = y)) as [Hroot|Hne].
    - exists []. by eapply chain_root.
    - destruct (Hord y sy Hsy) as [?|(sp & Hsp & Hlt)]; [done|].
      destruct (IH (parent (entry sy)) sp Hsp) as [l Hl].
      { pose proof (Hb _ _ Hsp). pose proof (Hb _ _ Hsy). lia. }
      exists (parent (entry sy) :: l). by eapply chain_step. }
  apply (Hgen (S (Z.to_nat (key (entry s) - b))) x s Hs). lia.
Qed.

(** X9.  Path retrieval returns on heaps with ordered parents.  If in both
    heaps every inserted node is its own parent or has an inserted parent
    of strictly smaller key, and the meeting node is inserted in both, then
    with enough turns allowed [RetrievePackedPathFromHeap] returns the path
    made of the two walks, which leads from a root of the forward heap
    through the meeting node to a root of the reverse heap. *)
Theorem RetrievePackedPathFromHeap_returns forward_heap reverse_heap
    middle_node_id :
  parents_have_smaller_keys forward_heap ->
  parents_have_smaller_keys reverse_heap ->
  WasInserted forward_heap middle_node_id = true ->
  WasInserted reverse_heap middle_node_id = true ->
  exists forward_parents reverse_parents source target enough,
    parent_chain forward_heap middle_node_id forward_parents /\
    parent_chain reverse_heap middle_node_id reverse_parents /\
    (forall fuel, (enough <= fuel)%nat ->
       RetrievePackedPathFromHeap fuel forward_heap reverse_heap
         middle_node_id []
       = Ok (rev forward_parents ++ [middle_node_id] ++ reverse_parents)) /\
    head (rev forward_parents ++ [middle_node_id] ++ reverse_parents)
      = Some source /\
    last (rev forward_parents ++ [middle_node_id] ++ reverse_parents)
      = Some target /\
    self_parent forward_heap source /\ self_parent reverse_heap target.
Proof.
  intros Hof Hor Hif Hir.
  destruct (parent_chain_exists _ _ Hof Hif) as [lf Hlf].
  destruct (parent_chain_exists _ _ Hor Hir) as [lr Hlr].
  destruct (parent_chain_last _ _ _ Hlf) as (source & Hsource & Hfs).
  destruct (parent_chain_last _ _ _ Hlr) as (target & Htarget & Hrt).
  exists lf, lr, source, target, (S (max (length lf) (length lr))).
  split; [done|]. split; [done|]. split; [|split; [|split; [|done]]].
  - intros fuel Hfuel. unfold RetrievePackedPathFromHeap.
    rewrite (follow_parents_chain _ _ _ Hlf) by lia. rewrite bind_Ok.
    rewrite (follow_parents_chain _ _ _ Hlr) by lia.
    by rewrite <- app_assoc.
  - by rewrite head_packed_path.
  - by rewrite last_packed_path.
Qed.

(** X10.  Whenever [RetrievePackedPathFromHeap] returns, both walks have
    ended at a node that is its own parent and the result is what was in
    the vector and the forward walk, reversed together, then the meeting
    node, then the reverse walk.  If one of the walks never reaches such a
    node, for instance on a cycle of parents, no number of turns makes the
    function return. *)
Theorem RetrievePackedPathFromHeap_sound forward_heap reverse_heap
    middle_node_id :
  (forall fuel packed_path path,
     RetrievePackedPathFromHeap fuel forward_heap reverse_heap
       middle_node_id packed_path = Ok path ->
     exists forward_parents reverse_parents,
       parent_chain forward_heap middle_node_id forward_parents /\
       parent_chain reverse_heap middle_node_id reverse_parents /\
       path = rev (packed_path ++ forward_parents) ++ [middle_node_id]
                ++ reverse_parents) /\
  (((forall l, ~ parent_chain forward_heap middle_node_id l) \/
    (forall l, ~ parent_chain reverse_heap middle_node_id l)) ->
   forall fuel packed_path path,
     RetrievePackedPathFromHeap fuel forward_heap reverse_heap
       middle_node_id packed_path <> Ok path).
Proof.
  assert (Hsound : forall fuel packed_path path,
     RetrievePackedPathFromHeap fuel forward_heap reverse_heap
       middle_node_id packed_path = Ok path ->
     exists forward_parents reverse_parents,
       parent_chain forward_heap middle_node_id forward_parents /\
       parent_chain reverse_heap middle_node_id reverse_parents /\
       path = rev (packed_path ++ forward_parents) ++ [middle_node_id]
                ++ reverse_parents).
  { intros fuel packed_path path. unfold RetrievePackedPathFromHeap.
    intros (p1 & (lf & Hlf & ->)%follow_parents_Ok
               & (lr & Hlr & ->)%follow_parents_Ok)%bind_inv_Ok.
    exists lf, lr. split; [done|]. split; [done|]. by rewrite <- app_assoc. }
  split; [exact Hsound|].
  intros Hnone fuel packed_path path Hrun.
  apply Hsound in Hrun as (lf & lr & Hlf & Hlr & _).
  destruct Hnone as [Hnone|Hnone]; by eapply Hnone.
Qed.

(** X11.  [RetrievePackedPathFromSingleHeap] appends the walk along the
    parents to what is in the vector, start node excluded and in the order
    of the walk: it returns exactly when the walk ends at a node that is
    its own parent, given enough turns, and the last node appended is that
    root. *)
Theorem RetrievePackedPathFromSingleHeap_spec search_heap middle_node_id :
  (forall fuel packed_path path,
     RetrievePackedPathFromSingleHeap fuel search_heap middle_node_id
       packed_path = Ok path ->
     exists parents,
       parent_chain search_heap middle_node_id parents /\
       path = packed_path ++ parents) /\
  (forall parents,
     parent_chain search_heap middle_node_id parents ->
     (forall fuel packed_path, (length parents < fuel)%nat ->
        RetrievePackedPathFromSingleHeap fuel search_heap middle_node_id
          packed_path = Ok (packed_path ++ parents)) /\
     exists root, last (middle_node_id :: parents) = Some root /\
                  self_parent search_heap root).
Proof.
  split.
  - intros fuel packed_path path. apply follow_parents_Ok.
  - intros parents Hchain. split.
    + intros fuel packed_path Hfuel. by apply follow_parents_chain.
    + by apply parent_chain_last.
Qed.

(** X12.  [RetrievePackedPathFromHeap] on an empty vector is the composition
    of two single-heap retrievals: the forward one reversed, the meeting
    node, the reverse one; a failure of either walk is the failure of the
    whole. *)
Theorem RetrievePackedPathFromHeap_as_single_walks fuel forward_heap
    reverse_heap middle_node_id :
  RetrievePackedPathFromHeap fuel forward_heap reverse_heap middle_node_id []
  = (forward_parents ←
       RetrievePackedPathFromSingleHeap fuel forward_heap middle_node_id [];
     reverse_parents ←
       RetrievePackedPathFromSingleHeap fuel reverse_heap middle_node_id [];
     Ok (rev forward_parents ++ [middle_node_id] ++ reverse_parents)).
Proof.
  unfold RetrievePackedPathFromHeap, RetrievePackedPathFromSingleHeap.
  destruct (follow_parents fuel forward_heap middle_node_id []) as [lf|err];
    [|done].
  rewrite !bind_Ok. rewrite follow_parents_acc.
  destruct (follow_parents fuel reverse_heap middle_node_id []) as [lr|err];
    [|done].
  rewrite !bind_Ok. by rewrite <- app_assoc.
Qed.

(** ** Unpacking: the loops and the recursive expansion *)

Lemma leads_from_to_app a l1 m l2 b :
  leads_from_to a l1 m -> leads_from_to m l2 b ->
  leads_from_to a (l1 ++ l2) b.
Proof.
  intros [Hne1 H1] [Hne2 H2]. split.
  - destruct l1; [done | discriminate].
  - rewrite !fmap_app, <- app_assoc, H2.
    change (l1.*1 ++ m :: l2.*2) with (l1.*1 ++ [m] ++ l2.*2).
    by rewrite app_assoc, H1.
Qed.

Lemma zip_leading (l : list (NodeID * NodeID)) (b : NodeID) :
  zip (l.*1 ++ [b]) l.*2 = l.
Proof.
  induction l as [|[x y] l IH]; [done|]. simpl. f_equal. exact IH.
Qed.

(** The nodes of a chain of pairs have exactly these pairs as neighbours. *)
Lemma leads_from_to_nodes a l b :
  leads_from_to a l b ->
  head (l.*1 ++ [b]) = Some a /\
  last (l.*1 ++ [b]) = Some b /\
  adjacent_pairs (l.*1 ++ [b]) = l.
Proof.
  intros [Hne Hl]. split; [by rewrite Hl|]. split; [by rewrite last_snoc|].
  unfold adjacent_pairs. rewrite Hl at 2. simpl. apply zip_leading.
Qed.

Section UnpackMore.

Context {F : Type} `{DataFacade F} (facade : F).

Lemma expands_leads p l :
  expands facade p l ->
  leads_from_to p.1 l p.2 /\ Forall (original_pair facade) l.
Proof.
  induction 1 as [a b Hres Hshort|a b l1 l2 Hres Hshort _ [IH1 IHo1] _ [IH2 IHo2]].
  - split; [by split | by repeat constructor].
  - split; [|by apply Forall_app]. simpl in *.
    by eapply leads_from_to_app.
Qed.

Lemma expands_functional p l l' :
  expands facade p l -> expands facade p l' -> l = l'.
Proof.
  intros Hl. revert l'.
  induction Hl as [a b Hres Hshort|a b l1 l2 Hres Hshort _ IH1 _ IH2];
    intros l' Hl'; inversion Hl'; subst; try congruence.
  f_equal; [by apply IH1 | by apply IH2].
Qed.

Lemma unpack_path_step_resolved a b stack out :
  resolved facade (a, b) ->
  unpack_path_step facade (a, b) stack out =
    Ok (if Edge.shortcut (edge_data_of facade (a, b)) then
          ((a, Edge.id (edge_data_of facade (a, b)))
             :: (Edge.id (edge_data_of facade (a, b)), b) :: stack, out)
        else (stack, out ++ [record_of facade (a, b)])).
Proof. intros Hres. by rewrite unpack_path_step_found. Qed.

Lemma unpack_edge_step_resolved a b stack out :
  resolved facade (a, b) ->
  unpack_edge_step facade (a, b) stack out =
    Ok (if Edge.shortcut (edge_data_of facade (a, b)) then
          ((a, Edge.id (edge_data_of facade (a, b)))
             :: (Edge.id (edge_data_of facade (a, b)), b) :: stack, out)
        else (stack, out ++ [a])).
Proof. intros Hres. by rewrite unpack_edge_step_found. Qed.

Lemma unpack_path_step_Ok_resolved a b stack out r :
  unpack_path_step facade (a, b) stack out = Ok r -> resolved facade (a, b).
Proof.
  intros Hstep Heq. rewrite unpack_path_step_abort in Hstep by done.
  discriminate.
Qed.

Lemma unpack_edge_step_Ok_resolved a b stack out r :
  unpack_edge_step facade (a, b) stack out = Ok r -> resolved facade (a, b).
Proof.
  intros Hstep Heq. rewrite unpack_edge_step_abort in Hstep by done.
  discriminate.
Qed.

Lemma expands_nonempty p l : expands facade p l -> (0 < length l)%nat.
Proof.
  intros [[Hne _] _]%expands_leads. destruct l; [done | simpl; lia].
Qed.

(** The loop of [UnpackPath] works a pair off in [2 * length l - 1] turns,
    [l] being the expansion of the pair, and appends the records of [l]. *)
Lemma unpack_path_loop_expands p l :
  expands facade p l ->
  forall fuel stack out,
    unpack_path_loop facade (2 * length l - 1 + fuel) (p :: stack) out =
    unpack_path_loop facade fuel stack (out ++ (record_of facade <$> l)).
Proof.
  induction 1 as [a b Hres Hshort|a b l1 l2 Hres Hshort H1 IH1 H2 IH2];
    intros fuel stack out.
  - change (2 * length [(a, b)] - 1 + fuel)%nat with (S fuel).
    cbn [unpack_path_loop]. rewrite unpack_path_step_resolved by done.
    by rewrite Hshort.
  - pose proof (expands_nonempty _ _ H1). pose proof (expands_nonempty _ _ H2).
    replace (2 * length (l1 ++ l2) - 1 + fuel)%nat
      with (S (2 * length l1 - 1 + (2 * length l2 - 1 + fuel)))
      by (rewrite length_app; lia).
    cbn [unpack_path_loop]. rewrite unpack_path_step_resolved by done.
    rewrite Hshort, bind_Ok. rewrite IH1, IH2.
    by rewrite fmap_app, app_assoc.
Qed.

Lemma unpack_edge_loop_expands p l :
  expands facade p l ->
  forall fuel stack out,
    unpack_edge_loop facade (2 * length l - 1 + fuel) (p :: stack) out =
    unpack_edge_loop facade fuel stack (out ++ l.*1).
Proof.
  induction 1 as [a b Hres Hshort|a b l1 l2 Hres Hshort H1 IH1 H2 IH2];
    intros fuel stack out.
  - change (2 * length [(a, b)] - 1 + fuel)%nat with (S fuel).
    cbn [unpack_edge_loop]. rewrite unpack_edge_step_resolved by done.
    by rewrite Hshort.
  - pose proof (expands_nonempty _ _ H1). pose proof (expands_nonempty _ _ H2).
    replace (2 * length (l1 ++ l2) - 1 + fuel)%nat
      with (S (2 * length l1 - 1 + (2 * length l2 - 1 + fuel)))
      by (rewrite length_app; lia).
    cbn [unpack_edge_loop]. rewrite unpack_edge_step_resolved by done.
    rewrite Hshort, bind_Ok. rewrite IH1, IH2.
    by rewrite fmap_app, app_assoc.
Qed.

Lemma expands_all_length stack ls :
  Forall2 (expands facade) stack ls ->
  (length ls <= length (concat ls))%nat.
Proof.
  induction 1 as [|p l stack ls Hp _ IH]; simpl; [lia|].
  pose proof (expands_nonempty _ _ Hp). rewrite length_app. lia.
Qed.

(** A whole stack of pairs. *)
Lemma unpack_path_loop_all stack ls :
  Forall2 (expands facade) stack ls ->
  forall fuel out,
    (2 * length (concat ls) - length ls <= fuel)%nat ->
    unpack_path_loop facade fuel stack out
      = Ok (out ++ (record_of facade <$> concat ls)).
Proof.
  induction 1 as [|p l stack ls Hp Hrest IH]; intros fuel out Hfuel.
  - destruct fuel; simpl; by rewrite app_nil_r.
  - pose proof (expands_nonempty _ _ Hp).
    pose proof (expands_all_length _ _ Hrest).
    cbn [concat length] in Hfuel. rewrite length_app in Hfuel.
    replace fuel with (2 * length l - 1 + (fuel - (2 * length l - 1)))%nat
      by lia.
    rewrite unpack_path_loop_expands by done. rewrite IH by lia.
    simpl. by rewrite fmap_app, app_assoc.
Qed.

Lemma unpack_edge_loop_all stack ls :
  Forall2 (expands facade) stack ls ->
  forall fuel out,
    (2 * length (concat ls) - length ls <= fuel)%nat ->
    unpack_edge_loop facade fuel stack out = Ok (out ++ (concat ls).*1).
Proof.
  induction 1 as [|p l stack ls Hp Hrest IH]; intros fuel out Hfuel.
  - destruct fuel; simpl; by rewrite app_nil_r.
  - pose proof (expands_nonempty _ _ Hp).
    pose proof (expands_all_length _ _ Hrest).
    cbn [concat length] in Hfuel. rewrite length_app in Hfuel.
    replace fuel with (2 * length l - 1 + (fuel - (2 * length l - 1)))%nat
      by lia.
    rewrite unpack_edge_loop_expands by done. rewrite IH by lia.
    simpl. by rewrite fmap_app, app_assoc.
Qed.

(** A loop that returns has expanded every pair of its stack, and the other
    loop returns on the same stack within the same number of turns. *)
Lemma unpack_path_loop_sound fuel stack out r :
  unpack_path_loop facade fuel stack out = Ok r ->
  exists ls,
    Forall2 (expands facade) stack ls /\
    r = out ++ (record_of facade <$> concat ls) /\
    forall out', unpack_edge_loop facade fuel stack out'
                 = Ok (out' ++ (concat ls).*1).
Proof.
  revert stack out. induction fuel as [|fuel IH]; intros stack out.
  - destruct stack as [|p stack]; simpl; [|discriminate].
    intros [= <-]. exists []. split; [constructor|].
    split; [by rewrite app_nil_r|]. intros out'. by rewrite app_nil_r.
  - destruct stack as [|[a b] stack]; simpl.
    + intros [= <-]. exists []. split; [constructor|].
      split; [by rewrite app_nil_r|]. intros out'. by rewrite app_nil_r.
    + intros ([stack' out1] & Hstep & Hloop)%bind_inv_Ok.
      pose proof (unpack_path_step_Ok_resolved _ _ _ _ _ Hstep) as Hres.
      rewrite unpack_path_step_resolved in Hstep by done.
      destruct (Edge.shortcut (edge_data_of facade (a, b))) eqn:Hshort;
        injection Hstep as <- <-;
        apply IH in Hloop as (ls & Hall & -> & Hedge).
      * inversion Hall as [|p1 l1 st1 ls1 Hp1 Hall1]; subst.
        inversion Hall1 as [|p2 l2 st2 ls2 Hp2 Hall2]; subst.
        exists ((l1 ++ l2) :: ls2). split; [|split].
        -- constructor; [|done]. by eapply expands_shortcut.
        -- simpl. by rewrite <- app_assoc.
        -- intros out'. rewrite unpack_edge_step_resolved by done.
           rewrite Hshort, bind_Ok, Hedge. simpl. by rewrite <- app_assoc.
      * exists ([(a, b)] :: ls). split; [|split].
        -- constructor; [|done]. by apply expands_original.
        -- simpl. by rewrite <- app_assoc.
        -- intros out'. rewrite unpack_edge_step_resolved by done.
           rewrite Hshort, bind_Ok, Hedge. simpl. by rewrite <- app_assoc.
Qed.

Lemma unpack_edge_loop_sound fuel stack out r :
  unpack_edge_loop facade fuel stack out = Ok r ->
  exists ls,
    Forall2 (expands facade) stack ls /\
    r = out ++ (concat ls).*1 /\
    forall out', unpack_path_loop facade fuel stack out'
                 = Ok (out' ++ (record_of facade <$> concat ls)).
Proof.
  revert stack out. induction fuel as [|fuel IH]; intros stack out.
  - destruct stack as [|p stack]; simpl; [|discriminate].
    intros [= <-]. exists []. split; [constructor|].
    split; [by rewrite app_nil_r|]. intros out'. by rewrite app_nil_r.
  - destruct stack as [|[a b] stack]; simpl.
    + intros [= <-]. exists []. split; [constructor|].
      split; [by rewrite app_nil_r|]. intros out'. by rewrite app_nil_r.
    + intros ([stack' out1] & Hstep & Hloop)%bind_inv_Ok.
      pose proof (unpack_edge_step_Ok_resolved _ _ _ _ _ Hstep) as Hres.
      rewrite unpack_edge_step_resolved in Hstep by done.
      destruct (Edge.shortcut (edge_data_of facade (a, b))) eqn:Hshort;
        injection Hstep as <- <-;
        apply IH in Hloop as (ls & Hall & -> & Hpath).
      * inversion Hall as [|p1 l1 st1 ls1 Hp1 Hall1]; subst.
        inversion Hall1 as [|p2 l2 st2 ls2 Hp2 Hall2]; subst.
        exists ((l1 ++ l2) :: ls2). split; [|split].
        -- constructor; [|done]. by eapply expands_shortcut.
        -- simpl. by rewrite <- app_assoc.
        -- intros out'. rewrite unpack_path_step_resolved by done.
           rewrite Hshort, bind_Ok, Hpath. simpl. by rewrite <- app_assoc.
      * exists ([(a, b)] :: ls). split; [|split].
        -- constructor; [|done]. by apply expands_original.
        -- simpl. by rewrite <- app_assoc.
        -- intros out'. rewrite unpack_path_step_resolved by done.
           rewrite Hshort, bind_Ok, Hpath. simpl. by rewrite <- app_assoc.
Qed.

End UnpackMore.

Lemma seed_recursion_stack_fits (packed_path : list NodeID) :
  packed_path <> [] ->
  (N.of_nat (length packed_path) <= UINT_MAX)%N ->
  seed_recursion_stack packed_path = Ok (adjacent_pairs packed_path).
Proof.
  intros Hne Hfit. unfold seed_recursion_stack.
  assert (Hlen : (0 < length packed_path)%nat)
    by (destruct packed_path; [done | simpl; lia]).
  rewrite seed_stack_in_bounds by (by apply seed_index_in_bounds).
  rewrite seed_index_exact by done. rewrite app_nil_r.
  rewrite take_ge; [done|]. rewrite length_adjacent_pairs. lia.
Qed.

Section UnpackExtras.

Context {F : Type} `{DataFacade F} (facade : F).

(** X13.  [UnpackEdge] computes the recursive expansion of its pair.  If it
    returns, the pair [(s, t)] expands to a list [l] of original pairs and
    the result is what was in the vector, the first nodes of [l], and [t].
    If the pair expands to [l], the function returns that result as soon as
    [2 * length l - 1] turns of its loop are allowed. *)
Theorem UnpackEdge_refines_expansion s t :
  (forall fuel out0 out,
     UnpackEdge facade fuel s t out0 = Ok out ->
     exists l, expands facade (s, t) l /\ out = out0 ++ l.*1 ++ [t]) /\
  (forall l, expands facade (s, t) l ->
     forall fuel out0, (2 * length l - 1 <= fuel)%nat ->
       UnpackEdge facade fuel s t out0 = Ok (out0 ++ l.*1 ++ [t])).
Proof.
  split.
  - intros fuel out0 out. unfold UnpackEdge.
    intros (r & (ls & Hall & -> & _)%unpack_edge_loop_sound
              & [= <-])%bind_inv_Ok.
    inversion Hall as [|p l st ls' Hp Hnil]; subst.
    inversion Hnil; subst. exists l. split; [done|].
    simpl. by rewrite app_nil_r, <- app_assoc.
  - intros l Hl fuel out0 Hfuel. unfold UnpackEdge.
    rewrite (unpack_edge_loop_all facade [(s, t)] [l]).
    + rewrite bind_Ok. simpl. by rewrite app_nil_r, <- app_assoc.
    + by repeat constructor.
    + simpl. rewrite app_nil_r. lia.
Qed.

(** X14.  [UnpackPath] computes the recursive expansion of every pair of
    neighbours of the packed path, left to right.  On a non-empty packed
    path whose size fits in [unsigned]: if it returns, every pair of
    neighbours expands and the records appended are those of the expansions
    in order; if every pair of neighbours expands, it returns them as soon
    as enough turns are allowed, one per pair and shortcut met. *)
Theorem UnpackPath_refines_expansion packed_path :
  packed_path <> [] ->
  (N.of_nat (length packed_path) <= UINT_MAX)%N ->
  (forall fuel out0 out,
     UnpackPath facade fuel packed_path out0 = Ok out ->
     exists ls,
       Forall2 (expands facade) (adjacent_pairs packed_path) ls /\
       out = out0 ++ (record_of facade <$> concat ls)) /\
  (forall ls,
     Forall2 (expands facade) (adjacent_pairs packed_path) ls ->
     forall fuel out0,
       (2 * length (concat ls) - length ls <= fuel)%nat ->
       UnpackPath facade fuel packed_path out0
         = Ok (out0 ++ (record_of facade <$> concat ls))).
Proof.
  intros Hne Hfit. unfold UnpackPath.
  rewrite seed_recursion_stack_fits by done. split.
  - intros fuel out0 out. rewrite bind_Ok.
    intros (ls & Hall & -> & _)%unpack_path_loop_sound. by exists ls.
  - intros ls Hall fuel out0 Hfuel. rewrite bind_Ok.
    by apply unpack_path_loop_all.
Qed.

(** X15.  The node list [UnpackEdge] returns is a path of original edges
    from [s] to [t]: it starts with [s], ends with [t], and every two
    neighbours [(x, y)] of it are resolved by the edge selection to an edge
    that is no shortcut, a forward edge [x→y] or else a backward edge
    [y→x]. *)
Theorem UnpackEdge_returns_path fuel s t nodes :
  edge_ids_fit facade ->
  UnpackEdge facade fuel s t [] = Ok nodes ->
  head nodes = Some s /\
  last nodes = Some t /\
  forall x y, (x, y) ∈ adjacent_pairs nodes ->
    original_pair facade (x, y) /\
    selected_by_code facade x y (find_smaller_edge facade (x, y)).1.
Proof.
  intros Hfit Hrun. unfold UnpackEdge in Hrun.
  apply bind_inv_Ok in Hrun as (r & Hloop & [= <-]).
  apply unpack_edge_loop_sound in Hloop as (ls & Hall & -> & _).
  inversion Hall as [|p l st ls' Hp Hnil]; subst. inversion Hnil; subst.
  simpl. rewrite app_nil_r.
  apply expands_leads in Hp as [Hleads Horig]. simpl in Hleads.
  destruct (leads_from_to_nodes _ _ _ Hleads) as (Hhead & Hlast & Hadj).
  split; [done|]. split; [done|]. rewrite Hadj. intros x y Hxy.
  rewrite Forall_forall in Horig. pose proof (Horig _ Hxy) as Hxyo.
  split; [done|]. destruct Hxyo as [Hres _].
  destruct (find_smaller_edge_cases facade x y Hfit)
    as [(Hsel & _)|(_ & _ & Hnone)]; [done|].
  unfold resolved in Hres. by rewrite Hnone in Hres.
Qed.

(** X16.  The two unpacking functions agree.  On the pair [(s, t)] and with
    the same number of turns allowed, [UnpackEdge] returns a node list
    exactly if [UnpackPath] returns a record list on the packed path
    [[s; t]], and the records are those of the neighbours of the node list,
    in order. *)
Theorem UnpackPath_records_of_UnpackEdge s t :
  (forall fuel nodes,
     UnpackEdge facade fuel s t [] = Ok nodes ->
     UnpackPath facade fuel [s; t] []
       = Ok (record_of facade <$> adjacent_pairs nodes)) /\
  (forall fuel records,
     UnpackPath facade fuel [s; t] [] = Ok records ->
     exists nodes,
       UnpackEdge facade fuel s t [] = Ok nodes /\
       records = record_of facade <$> adjacent_pairs nodes).
Proof.
  assert (Hseed : seed_recursion_stack [s; t] = Ok [(s, t)]) by reflexivity.
  assert (Hadj : forall l, expands facade (s, t) l ->
                           adjacent_pairs (l.*1 ++ [t]) = l).
  { intros l [Hleads _]%expands_leads. simpl in Hleads.
    by destruct (leads_from_to_nodes _ _ _ Hleads) as (_ & _ & ?). }
  split.
  - intros fuel nodes. unfold UnpackEdge, UnpackPath.
    intros (r & (ls & Hall & -> & Hpath)%unpack_edge_loop_sound
              & [= <-])%bind_inv_Ok.
    rewrite Hseed, bind_Ok, Hpath.
    inversion Hall as [|p l st ls' Hp Hnil]; subst. inversion Hnil; subst.
    simpl. rewrite !app_nil_r. by rewrite Hadj.
  - intros fuel records. unfold UnpackEdge, UnpackPath.
    rewrite Hseed, bind_Ok.
    intros (ls & Hall & -> & Hedge)%unpack_path_loop_sound.
    inversion Hall as [|p l st ls' Hp Hnil]; subst. inversion Hnil; subst.
    eexists. rewrite Hedge, bind_Ok. split; [done|].
    simpl. rewrite !app_nil_r. by rewrite Hadj.
Qed.

(** X17.  Edge ids being [unsigned] values other than [SPECIAL_EDGEID], a
    turn of either unpacking loop aborts on the pair [(a, b)] exactly when
    there is neither a forward edge [a→b] nor a backward edge [b→a] of
    weight below [INT_MAX]; an edge of weight [INT_MAX] counts as none. *)
Theorem unpacking_aborts_iff a b stack :
  edge_ids_fit facade ->
  (forall out,
     unpack_path_step facade (a, b) stack out
       = Err (InvariantViolation "edge id invalid") <->
     (~ exists e, below_INT_MAX facade (forward_edge facade a b) e) /\
     (~ exists e, below_INT_MAX facade (backward_edge facade a b) e)) /\
  (forall out,
     unpack_edge_step facade (a, b) stack out
       = Err (InvariantViolation "edge weight invalid") <->
     (~ exists e, below_INT_MAX facade (forward_edge facade a b) e) /\
     (~ exists e, below_INT_MAX facade (backward_edge facade a b) e)).
Proof.
  intros Hfit.
  assert (Hiff :
    (find_smaller_edge facade (a, b)).2 = INT_MAX <->
    (~ exists e, below_INT_MAX facade (forward_edge facade a b) e) /\
    (~ exists e, below_INT_MAX facade (backward_edge facade a b) e)).
  { destruct (find_smaller_edge_cases facade a b Hfit)
      as [(Hsel & _ & Hlt)|(Hnof & Hnob & Hnone)].
    - split; [lia|]. intros [Hnof Hnob]. exfalso.
      destruct Hsel as [[Hcand _]|[_ [Hcand _]]]; eauto.
    - split; [done|]. intros _. by rewrite Hnone. }
  split; intros out; rewrite <- Hiff; split.
  - intros Hstep.
    destruct (Z.eq_dec (find_smaller_edge facade (a, b)).2 INT_MAX); [done|].
    rewrite unpack_path_step_found in Hstep by done. discriminate.
  - apply unpack_path_step_abort.
  - intros Hstep.
    destruct (Z.eq_dec (find_smaller_edge facade (a, b)).2 INT_MAX); [done|].
    rewrite unpack_edge_step_found in Hstep by done. discriminate.
  - apply unpack_edge_step_abort.
Qed.

End UnpackExtras.

(** ** The further properties on the worked examples *)

Lemma heap_of_lookup l n s :
  slots (heap_of l) !! n = Some s ->
  exists k p q, (n, k, p, q) ∈ l /\
                s = {| entry := {| key := k; parent := p |}; in_queue := q |}.
Proof.
  unfold heap_of. simpl. intros Hs.
  apply elem_of_list_to_map_2 in Hs.
  apply list_elem_of_fmap in Hs as ([[[n' k] p] q] & [= -> ->] & Hin).
  by exists k, p, q.
Qed.

Lemma stall_graph_edges_0 e :
  edge_of stall_graph 0 e -> e = 0%N \/ e = 1%N.
Proof. intros [Hb He]. simpl in Hb, He. lia. Qed.

Lemma stall_graph_no_overflow_0 : no_overflow stall_graph 0 0 true.
Proof.
  intros e [-> | ->]%stall_graph_edges_0 _; by vm_compute.
Qed.

Lemma stall_graph_no_stalling_edge_0 :
  ~ exists e, stalling_edge stall_graph start_heap_settled 0 true 0 e.
Proof.
  intros (e & [-> | ->]%stall_graph_edges_0 & Hflag & _); discriminate.
Qed.

Lemma start_heap_ordered : parents_have_smaller_keys start_heap.
Proof.
  intros n s (k & p & q & Hin & ->)%heap_of_lookup. left. simpl.
  apply list_elem_of_singleton in Hin. by injection Hin as -> _ ->.
Qed.

Lemma forward_tree_ordered : parents_have_smaller_keys forward_tree.
Proof.
  intros n s (k & p & q & Hin & ->)%heap_of_lookup. simpl.
  repeat (apply elem_of_cons in Hin as [Hin|Hin];
          [injection Hin as -> -> -> ->|]);
    [by left | right; eexists; split; [reflexivity | simpl; lia] ..
    | by apply elem_of_nil in Hin].
Qed.

Lemma reverse_tree_ordered : parents_have_smaller_keys reverse_tree.
Proof.
  intros n s (k & p & q & Hin & ->)%heap_of_lookup. simpl.
  repeat (apply elem_of_cons in Hin as [Hin|Hin];
          [injection Hin as -> -> -> ->|]);
    [by left | right; eexists; split; [reflexivity | simpl; lia] ..
    | by apply elem_of_nil in Hin].
Qed.

Lemma cyclic_tree_no_root l :
  ~ parent_chain cyclic_tree 1 l /\ ~ parent_chain cyclic_tree 2 l.
Proof.
  induction l as [|x l [IH1 IH2]]; split; intros Hchain;
    inversion Hchain as [y d Hd Hroot|y d l' Hd Hne Hrest]; subst;
    vm_compute in Hd; injection Hd as <-; simpl in *; done.
Qed.

Lemma start_call :
  DeleteMin start_heap = Ok (0%N, start_heap_settled) /\
  GetKey start_heap_settled 0 = Ok 0 /\
  meet_in_the_middle empty_heap 0 0 99%N 1000 = Ok (99%N, 1000) /\
  ~ int_sub 0 0 > 1000 /\
  RoutingStep stall_graph start_heap empty_heap 99%N 1000 0 true
    = Ok start_state.
Proof.
  split; [by vm_compute|]. split; [done|]. split; [done|].
  split; [by vm_compute | by vm_compute].
Qed.

Lemma RoutingStep_opposite_heap_untouched_witness :
  RoutingStep stall_graph meeting_heap opposite_heap 99%N 1000 0 true
    = Ok meeting_state /\
  reverse_heap meeting_state = opposite_heap.
Proof.
  assert (Hstep : RoutingStep stall_graph meeting_heap opposite_heap 99%N
                    1000 0 true = Ok meeting_state)
    by (vm_compute; reflexivity).
  split; [exact Hstep|].
  exact (RoutingStep_opposite_heap_untouched stall_graph meeting_heap
           opposite_heap 99%N 1000 0 true meeting_state Hstep).
Defined.

Lemma RoutingStep_fails_only_on_witness :
  RoutingStep stall_graph empty_heap opposite_heap 99%N 1000 0 true
    = Err EmptyHeap /\
  ((EmptyHeap = EmptyHeap /\
    forall n s, slots empty_heap !! n = Some s -> in_queue s = false) \/
   (EmptyHeap = InvariantViolation "edge_weight invalid" /\
    exists node h1 e,
      DeleteMin empty_heap = Ok (node, h1) /\ edge_of stall_graph node e /\
      weight_of stall_graph e <= 0)).
Proof.
  assert (Hstep : RoutingStep stall_graph empty_heap opposite_heap 99%N
                    1000 0 true = Err EmptyHeap)
    by (vm_compute; reflexivity).
  split; [exact Hstep|].
  exact (RoutingStep_fails_only_on stall_graph empty_heap opposite_heap 99%N
           1000 0 true EmptyHeap Hstep).
Defined.

Lemma RoutingStep_stalls_iff_witness :
  DeleteMin stall_heap = Ok (2%N, stall_heap_settled) /\
  GetKey stall_heap_settled 2 = Ok 10 /\
  meet_in_the_middle empty_heap 2 10 99%N 1000 = Ok (99%N, 1000) /\
  ~ int_sub 10 0 > 1000 /\
  RoutingStep stall_graph stall_heap empty_heap 99%N 1000 0 true
    = Ok stall_state /\
  ((exists e, stalling_edge stall_graph stall_heap_settled 10 true 2 e) <->
   stall_scan stall_graph stall_heap_settled 10 true
     (edge_range (BeginEdges stall_graph 2) (EndEdges stall_graph 2))
   = Ok true).
Proof.
  assert (Hmin : DeleteMin stall_heap = Ok (2%N, stall_heap_settled))
    by (vm_compute; reflexivity).
  assert (Hkey : GetKey stall_heap_settled 2 = Ok 10) by reflexivity.
  assert (Hmeet : meet_in_the_middle empty_heap 2 10 99%N 1000
                  = Ok (99%N, 1000)) by reflexivity.
  assert (Hterm : ~ int_sub 10 0 > 1000) by (vm_compute; discriminate).
  assert (Hstep : RoutingStep stall_graph stall_heap empty_heap 99%N 1000 0
                    true = Ok stall_state) by (vm_compute; reflexivity).
  split; [exact Hmin|]. split; [exact Hkey|]. split; [exact Hmeet|].
  split; [exact Hterm|]. split; [exact Hstep|].
  exact (proj2 (proj2 (RoutingStep_stalls_iff stall_graph stall_heap
                         empty_heap 99%N 1000 0 true 2%N stall_heap_settled
                         10 99%N 1000 stall_state
                         Hmin Hkey Hmeet Hterm Hstep))).
Defined.

Lemma RoutingStep_keys_not_raised_witness :
  RoutingStep stall_graph start_heap empty_heap 99%N 1000 0 true
    = Ok start_state /\
  forall n s, slots start_heap !! n = Some s ->
    exists s', slots (forward_heap start_state) !! n = Some s' /\
               key (entry s') <= key (entry s) /\
               (n = 0%N -> in_queue s' = false) /\
               (n <> 0%N -> in_queue s' = in_queue s).
Proof.
  destruct start_call as (Hmin & Hkey & Hmeet & Hterm & Hstep).
  split; [exact Hstep|].
  exact (RoutingStep_keys_not_raised stall_graph start_heap empty_heap 99%N
           1000 0 true 0%N start_heap_settled 0 99%N 1000 start_state
           Hmin Hkey Hmeet Hterm Hstep).
Defined.

Lemma RoutingStep_changes_by_relaxation_witness :
  RoutingStep stall_graph start_heap empty_heap 99%N 1000 0 true
    = Ok start_state /\
  forall n s', slots (forward_heap start_state) !! n = Some s' ->
    slots start_heap_settled !! n = Some s' \/
    (parent (entry s') = 0%N /\
     exists e, edge_of stall_graph 0 e /\
               direction_flag stall_graph true e = true /\
               GetTarget stall_graph e = n /\
               key (entry s') = int_add 0 (weight_of stall_graph e)).
Proof.
  destruct start_call as (Hmin & Hkey & Hmeet & Hterm & Hstep).
  split; [exact Hstep|].
  exact (RoutingStep_changes_by_relaxation stall_graph start_heap empty_heap
           99%N 1000 0 true 0%N start_heap_settled 0 99%N 1000 start_state
           Hmin Hkey Hmeet Hterm Hstep).
Defined.

Lemma RoutingStep_relaxes_all_edges_witness :
  RoutingStep stall_graph start_heap empty_heap 99%N 1000 0 true
    = Ok start_state /\
  (~ exists e, stalling_edge stall_graph start_heap_settled 0 true 0 e) /\
  forall e, edge_of stall_graph 0 e ->
    direction_flag stall_graph true e = true ->
    exists s,
      slots (forward_heap start_state) !! GetTarget stall_graph e = Some s /\
      key (entry s) <= int_add 0 (weight_of stall_graph e).
Proof.
  destruct start_call as (Hmin & Hkey & Hmeet & Hterm & Hstep).
  split; [exact Hstep|]. split; [exact stall_graph_no_stalling_edge_0|].
  exact (RoutingStep_relaxes_all_edges stall_graph start_heap empty_heap
           99%N 1000 0 true 0%N start_heap_settled 0 99%N 1000 start_state
           Hmin Hkey Hmeet Hterm Hstep stall_graph_no_stalling_edge_0).
Defined.

Lemma RoutingStep_queue_not_below_witness :
  RoutingStep stall_graph start_heap empty_heap 99%N 1000 0 true
    = Ok start_state /\
  no_overflow stall_graph 0 0 true /\
  (forall n s, slots (forward_heap start_state) !! n = Some s ->
               in_queue s = true -> 0 <= key (entry s)) /\
  (forall n' h' k, DeleteMin (forward_heap start_state) = Ok (n', h') ->
                   GetKey h' n' = Ok k -> 0 <= k).
Proof.
  destruct start_call as (Hmin & Hkey & Hmeet & Hterm & Hstep).
  split; [exact Hstep|]. split; [exact stall_graph_no_overflow_0|].
  exact (RoutingStep_queue_not_below stall_graph start_heap empty_heap
           99%N 1000 0 true 0%N start_heap_settled 0 99%N 1000 start_state
           Hmin Hkey Hmeet Hterm Hstep stall_graph_no_overflow_0).
Defined.

Lemma RoutingStep_keeps_parent_order_witness :
  RoutingStep stall_graph start_heap empty_heap 99%N 1000 0 true
    = Ok start_state /\
  no_overflow stall_graph 0 0 true /\
  parents_have_smaller_keys start_heap /\
  parents_have_smaller_keys (forward_heap start_state).
Proof.
  destruct start_call as (Hmin & Hkey & Hmeet & Hterm & Hstep).
  split; [exact Hstep|]. split; [exact stall_graph_no_overflow_0|].
  split; [exact start_heap_ordered|].
  exact (RoutingStep_keeps_parent_order stall_graph start_heap empty_heap
           99%N 1000 0 true 0%N start_heap_settled 0 start_state
           Hmin Hkey stall_graph_no_overflow_0 start_heap_ordered Hstep).
Defined.

Lemma RetrievePackedPathFromHeap_returns_witness :
  parents_have_smaller_keys forward_tree /\
  parents_have_smaller_keys reverse_tree /\
  WasInserted forward_tree 2 = true /\
  WasInserted reverse_tree 2 = true /\
  exists forward_parents reverse_parents source target enough,
    parent_chain forward_tree 2 forward_parents /\
    parent_chain reverse_tree 2 reverse_parents /\
    (forall fuel, (enough <= fuel)%nat ->
       RetrievePackedPathFromHeap fuel forward_tree reverse_tree 2 []
       = Ok (rev forward_parents ++ [2%N] ++ reverse_parents)) /\
    head (rev forward_parents ++ [2%N] ++ reverse_parents) = Some source /\
    last (rev forward_parents ++ [2%N] ++ reverse_parents) = Some target /\
    self_parent forward_tree source /\ self_parent reverse_tree target.
Proof.
  assert (Hif : WasInserted forward_tree 2 = true) by reflexivity.
  assert (Hir : WasInserted reverse_tree 2 = true) by reflexivity.
  split; [exact forward_tree_ordered|]. split; [exact reverse_tree_ordered|].
  split; [exact Hif|]. split; [exact Hir|].
  exact (RetrievePackedPathFromHeap_returns forward_tree reverse_tree 2%N
           forward_tree_ordered reverse_tree_ordered Hif Hir).
Defined.

Lemma RetrievePackedPathFromHeap_sound_witness :
  RetrievePackedPathFromHeap 3 forward_tree reverse_tree 2 []
    = Ok [0; 1; 2; 3; 4]%N /\
  (exists forward_parents reverse_parents,
     parent_chain forward_tree 2 forward_parents /\
     parent_chain reverse_tree 2 reverse_parents /\
     [0; 1; 2; 3; 4]%N
       = rev ([] ++ forward_parents) ++ [2%N] ++ reverse_parents) /\
  (forall l, ~ parent_chain cyclic_tree 1 l) /\
  (forall fuel packed_path path,
     RetrievePackedPathFromHeap fuel cyclic_tree reverse_tree 1 packed_path
       <> Ok path).
Proof.
  assert (Hrun : RetrievePackedPathFromHeap 3 forward_tree reverse_tree 2 []
                 = Ok [0; 1; 2; 3; 4]%N) by reflexivity.
  assert (Hnone : forall l, ~ parent_chain cyclic_tree 1 l)
    by (intros l; exact (proj1 (cyclic_tree_no_root l))).
  split; [exact Hrun|]. split; [|split; [exact Hnone|]].
  - exact (proj1 (RetrievePackedPathFromHeap_sound forward_tree reverse_tree
                    2%N) 3%nat [] _ Hrun).
  - exact (proj2 (RetrievePackedPathFromHeap_sound cyclic_tree reverse_tree
                    1%N) (or_introl Hnone)).
Defined.

Lemma RetrievePackedPathFromSingleHeap_spec_witness :
  parent_chain forward_tree 2 [1; 0]%N /\
  RetrievePackedPathFromSingleHeap 3 forward_tree 2 [7%N]
    = Ok [7; 1; 0]%N /\
  (forall fuel packed_path, (length [1; 0]%N < fuel)%nat ->
     RetrievePackedPathFromSingleHeap fuel forward_tree 2 packed_path
       = Ok (packed_path ++ [1; 0]%N)).
Proof.
  split; [exact forward_tree_chain|]. split; [reflexivity|].
  exact (proj1 (proj2 (RetrievePackedPathFromSingleHeap_spec forward_tree 2%N)
                  [1; 0]%N forward_tree_chain)).
Defined.

Lemma shortcut_graph_expands :
  expands shortcut_graph (0, 2)%N [(0, 1); (1, 2)]%N.
Proof.
  apply (expands_shortcut shortcut_graph 0 2 [(0, 1)%N] [(1, 2)%N]).
  - by vm_compute.
  - reflexivity.
  - apply (expands_original shortcut_graph 0 1); [by vm_compute | reflexivity].
  - apply (expands_original shortcut_graph 1 2); [by vm_compute | reflexivity].
Qed.

Lemma shortcut_graph_fits : edge_ids_fit shortcut_graph.
Proof.
  apply edge_ids_fit_StaticGraph.
  repeat constructor; unfold SPECIAL_EDGEID, UINT_MAX; lia.
Qed.

Lemma UnpackEdge_refines_expansion_witness :
  expands shortcut_graph (0, 2)%N [(0, 1); (1, 2)]%N /\
  (2 * length [(0, 1); (1, 2)]%N - 1 <= 3)%nat /\
  UnpackEdge shortcut_graph 3 0 2 [9%N]
    = Ok ([9%N] ++ [(0, 1); (1, 2)]%N.*1 ++ [2%N]).
Proof.
  assert (Hfuel : (2 * length [(0, 1); (1, 2)]%N - 1 <= 3)%nat)
    by (simpl; lia).
  split; [exact shortcut_graph_expands|]. split; [exact Hfuel|].
  exact (proj2 (UnpackEdge_refines_expansion shortcut_graph 0%N 2%N)
           _ shortcut_graph_expands 3%nat [9%N] Hfuel).
Defined.

Lemma UnpackPath_refines_expansion_witness :
  [0; 2]%N <> [] /\
  (N.of_nat (length [0; 2]%N) <= UINT_MAX)%N /\
  UnpackPath shortcut_graph 3 [0; 2]%N [] =
    Ok [{| edge_payload := 20; name_index := 120;
           turn_instruction := 4; path_weight := 3 |};
        {| edge_payload := 21; name_index := 121;
           turn_instruction := 5; path_weight := 4 |}] /\
  exists ls,
    Forall2 (expands shortcut_graph) (adjacent_pairs [0; 2]%N) ls /\
    [{| edge_payload := 20; name_index := 120;
        turn_instruction := 4; path_weight := 3 |};
     {| edge_payload := 21; name_index := 121;
        turn_instruction := 5; path_weight := 4 |}]
      = [] ++ (record_of shortcut_graph <$> concat ls).
Proof.
  assert (Hne : [0; 2]%N <> []) by discriminate.
  assert (Hfit : (N.of_nat (length [0; 2]%N) <= UINT_MAX)%N)
    by (vm_compute; discriminate).
  assert (Hrun : UnpackPath shortcut_graph 3 [0; 2]%N [] =
    Ok [{| edge_payload := 20; name_index := 120;
           turn_instruction := 4; path_weight := 3 |};
        {| edge_payload := 21; name_index := 121;
           turn_instruction := 5; path_weight := 4 |}])
    by (vm_compute; reflexivity).
  split; [exact Hne|]. split; [exact Hfit|]. split; [exact Hrun|].
  exact (proj1 (UnpackPath_refines_expansion shortcut_graph [0; 2]%N
                  Hne Hfit) 3%nat [] _ Hrun).
Defined.

Lemma UnpackEdge_returns_path_witness :
  edge_ids_fit shortcut_graph /\
  UnpackEdge shortcut_graph 3 0 2 [] = Ok [0; 1; 2]%N /\
  head [0; 1; 2]%N = Some 0%N /\
  last [0; 1; 2]%N = Some 2%N /\
  forall x y, (x, y) ∈ adjacent_pairs [0; 1; 2]%N ->
    original_pair shortcut_graph (x, y) /\
    selected_by_code shortcut_graph x y
      (find_smaller_edge shortcut_graph (x, y)).1.
Proof.
  assert (Hrun : UnpackEdge shortcut_graph 3 0 2 [] = Ok [0; 1; 2]%N)
    by (vm_compute; reflexivity).
  split; [exact shortcut_graph_fits|]. split; [exact Hrun|].
  exact (UnpackEdge_returns_path shortcut_graph 3%nat 0%N 2%N [0; 1; 2]%N
           shortcut_graph_fits Hrun).
Defined.

Lemma UnpackPath_records_of_UnpackEdge_witness :
  UnpackEdge shortcut_graph 3 0 2 [] = Ok [0; 1; 2]%N /\
  UnpackPath shortcut_graph 3 [0; 2]%N []
    = Ok (record_of shortcut_graph <$> adjacent_pairs [0; 1; 2]%N).
Proof.
  assert (Hrun : UnpackEdge shortcut_graph 3 0 2 [] = Ok [0; 1; 2]%N)
    by (vm_compute; reflexivity).
  split; [exact Hrun|].
  exact (proj1 (UnpackPath_records_of_UnpackEdge shortcut_graph 0%N 2%N)
           3%nat [0; 1; 2]%N Hrun).
Defined.

Lemma heavy_graph_fits : edge_ids_fit heavy_graph.
Proof.
  apply edge_ids_fit_StaticGraph.
  repeat constructor; unfold SPECIAL_EDGEID, UINT_MAX; lia.
Qed.

Lemma heavy_graph_no_candidate :
  (~ exists e, below_INT_MAX heavy_graph (forward_edge heavy_graph 0 1) e) /\
  (~ exists e, below_INT_MAX heavy_graph (backward_edge heavy_graph 0 1) e).
Proof.
  split.
  - intros (e & [[Hb He] _] & Hlt). simpl in Hb, He.
    assert (e = 0%N) as -> by lia. vm_compute in Hlt. discriminate.
  - intros (e & [[Hb He] _] & _). simpl in Hb, He. lia.
Qed.

Lemma unpacking_aborts_iff_witness :
  edge_ids_fit heavy_graph /\
  forward_edge heavy_graph 0 1 0 /\
  unpack_path_step heavy_graph (0, 1)%N [] []
    = Err (InvariantViolation "edge id invalid") /\
  unpack_edge_step heavy_graph (0, 1)%N [] []
    = Err (InvariantViolation "edge weight invalid").
Proof.
  assert (Hfwd : forward_edge heavy_graph 0 1 0).
  { split; [split; simpl; lia | split; reflexivity]. }
  split; [exact heavy_graph_fits|]. split; [exact Hfwd|].
  destruct (unpacking_aborts_iff heavy_graph 0%N 1%N [] heavy_graph_fits)
    as [Hpath Hedge].
  split.
  - exact (proj2 (Hpath []) heavy_graph_no_candidate).
  - exact (proj2 (Hedge []) heavy_graph_no_candidate).
Defined.

Lemma RoutingStep_meeting_node_inserted_witness :
  DeleteMin meeting_heap = Ok (2%N, meeting_heap_settled) /\
  GetKey meeting_heap_settled 2 = Ok 5 /\
  meet_in_the_middle opposite_heap 2 5 99%N 1000 = Ok (2%N, 12) /\
  ~ int_sub 5 0 > 12 /\
  RoutingStep stall_graph meeting_heap opposite_heap 99%N 1000 0 true
    = Ok meeting_state /\
  meeting_candidate opposite_heap 2 5 1000 12 /\
  middle_node_id meeting_state = 2%N /\
  upper_bound meeting_state = 12 /\
  WasInserted (reverse_heap meeting_state) (middle_node_id meeting_state)
    = true /\
  exists s,
    slots (forward_heap meeting_state) !! middle_node_id meeting_state
      = Some s /\
    in_queue s = false.
Proof.
  assert (Hmin : DeleteMin meeting_heap = Ok (2%N, meeting_heap_settled))
    by (vm_compute; reflexivity).
  assert (Hkey : GetKey meeting_heap_settled 2 = Ok 5) by reflexivity.
  assert (Hmeet : meet_in_the_middle opposite_heap 2 5 99%N 1000
                  = Ok (2%N, 12)) by reflexivity.
  assert (Hterm : ~ int_sub 5 0 > 12) by (vm_compute; discriminate).
  assert (Hstep : RoutingStep stall_graph meeting_heap opposite_heap 99%N
                    1000 0 true = Ok meeting_state)
    by (vm_compute; reflexivity).
  assert (Hcand : meeting_candidate opposite_heap 2 5 1000 12).
  { split; [reflexivity|]. split; [by exists 7 | lia]. }
  split; [exact Hmin|]. split; [exact Hkey|]. split; [exact Hmeet|].
  split; [exact Hterm|]. split; [exact Hstep|]. split; [exact Hcand|].
  exact (RoutingStep_meeting_node_inserted stall_graph meeting_heap
           opposite_heap 99%N 1000 0 true 2%N meeting_heap_settled 5 2%N 12
           meeting_state 12 Hmin Hkey Hmeet Hterm Hstep Hcand).
Defined.

(** ** The relaxation and the meeting update on the worked examples *)

Lemma RoutingStep_relaxes_witness :
  DeleteMin start_heap = Ok (0%N, start_heap_settled) /\
  GetKey start_heap_settled 0 = Ok 0 /\
  meet_in_the_middle empty_heap 0 0 99%N 1000 = Ok (99%N, 1000) /\
  ~ int_sub 0 0 > 1000 /\
  (~ exists e, stalling_edge stall_graph start_heap_settled 0 true 0 e) /\
  positive_weights stall_graph 0 /\
  RoutingStep stall_graph start_heap empty_heap 99%N 1000 0 true
    = Ok start_state /\
  GetData (forward_heap start_state) 1 = Ok {| key := 1; parent := 0 |} /\
  GetData (forward_heap start_state) 2 = Ok {| key := 10; parent := 0 |} /\
  exists final,
    RoutingStep stall_graph start_heap empty_heap 99%N 1000 0 true =
      Ok {| forward_heap := final; reverse_heap := empty_heap;
            middle_node_id := 99%N; upper_bound := 1000 |} /\
    forall e,
      edge_of stall_graph 0 e ->
      direction_flag stall_graph true e = true ->
      exists pre post before after,
        (forall x, x ∈ pre <-> (BeginEdges stall_graph 0 <= x < e)%N) /\
        (forall x, x ∈ post <-> (e < x < EndEdges stall_graph 0)%N) /\
        relax_edges stall_graph 0 0 true start_heap_settled pre = Ok before /\
        relax_edge stall_graph 0 0 true before e = Ok after /\
        relax_edges stall_graph 0 0 true after post = Ok final /\
        relaxation_outcome stall_graph 0 0 before e after /\
        keys_not_raised after final /\
        exists s, slots final !! GetTarget stall_graph e = Some s /\
                  key (entry s) <= int_add 0 (weight_of stall_graph e).
Proof.
  assert (Hmin : DeleteMin start_heap = Ok (0%N, start_heap_settled))
    by (vm_compute; reflexivity).
  assert (Hkey : GetKey start_heap_settled 0 = Ok 0) by reflexivity.
  assert (Hmeet : meet_in_the_middle empty_heap 0 0 99%N 1000
                  = Ok (99%N, 1000)) by reflexivity.
  assert (Hterm : ~ int_sub 0 0 > 1000) by (vm_compute; discriminate).
  assert (Hstep : RoutingStep stall_graph start_heap empty_heap 99%N 1000 0
                    true = Ok start_state) by (vm_compute; reflexivity).
  split; [exact Hmin|]. split; [exact Hkey|]. split; [exact Hmeet|].
  split; [exact Hterm|]. split; [exact stall_graph_no_stalling_edge_0|].
  split; [exact stall_graph_positive_0|]. split; [exact Hstep|].
  split; [reflexivity|]. split; [reflexivity|].
  exact (RoutingStep_relaxes stall_graph start_heap empty_heap 99%N 1000
           0 true 0%N start_heap_settled 0 99%N 1000
           Hmin Hkey Hmeet Hterm stall_graph_no_stalling_edge_0
           stall_graph_positive_0).
Defined.

Lemma RoutingStep_meeting_update_witness :
  DeleteMin meeting_heap = Ok (2%N, meeting_heap_settled) /\
  GetKey meeting_heap_settled 2 = Ok 5 /\
  positive_weights stall_graph 2 /\
  meeting_candidate opposite_heap 2 5 1000 12 /\
  RoutingStep stall_graph meeting_heap opposite_heap 99%N 1000 0 true
    = Ok meeting_state /\
  exists mid' ub' st,
    meet_in_the_middle opposite_heap 2 5 99%N 1000 = Ok (mid', ub') /\
    RoutingStep stall_graph meeting_heap opposite_heap 99%N 1000 0 true
      = Ok st /\
    middle_node_id st = mid' /\ upper_bound st = ub' /\
    (forall candidate, meeting_candidate opposite_heap 2 5 1000 candidate ->
                       mid' = 2%N /\ ub' = candidate /\ ub' < 1000) /\
    ((~ exists candidate, meeting_candidate opposite_heap 2 5 1000 candidate) ->
     mid' = 99%N /\ ub' = 1000) /\
    (forall k, GetKey opposite_heap 2 = Ok k -> int_add k 5 = 1000 ->
               mid' = 99%N /\ ub' = 1000) /\
    query_run stall_graph
      (caller_state true meeting_heap opposite_heap 99%N 1000)
      (caller_state true (forward_heap st) (reverse_heap st) mid' ub') /\
    (forall s s', query_run stall_graph s s' ->
       upper_bound s' <= upper_bound s /\
       (upper_bound s' = upper_bound s ->
        middle_node_id s' = middle_node_id s)).
Proof.
  assert (Hmin : DeleteMin meeting_heap = Ok (2%N, meeting_heap_settled))
    by (vm_compute; reflexivity).
  assert (Hkey : GetKey meeting_heap_settled 2 = Ok 5) by reflexivity.
  assert (Hcand : meeting_candidate opposite_heap 2 5 1000 12).
  { split; [reflexivity|]. split; [by exists 7 | lia]. }
  assert (Hstep : RoutingStep stall_graph meeting_heap opposite_heap 99%N
                    1000 0 true = Ok meeting_state)
    by (vm_compute; reflexivity).
  split; [exact Hmin|]. split; [exact Hkey|].
  split; [exact stall_graph_positive|]. split; [exact Hcand|].
  split; [exact Hstep|].
  exact (RoutingStep_meeting_update stall_graph meeting_heap opposite_heap
           99%N 1000 0 true 2%N meeting_heap_settled 5 Hmin Hkey
           stall_graph_positive).
Defined.
